(** * run-skill-code: the code-execution engine of [run-skill-code-impl.ts]

    A shallow embedding of [DefaultTypeScriptExecutor.execute] and of the
    two entry points [runSkillCodeImpl] and [runSkillCode], followed by
    the properties of the engine.  The handler of the tool that the
    protocol adapter registers, and the restructuring script of the
    discovery tree with its command runner [bd], are embedded after the
    engine, and their properties follow those of the engine.

    JavaScript strings are sequences of UTF-16 code units; a code unit is
    a number of [N] and a string a [list N].  The built-ins the engine
    calls ([split], [join], [indexOf], [slice], [RegExp.test],
    [String.replace], [JSON.stringify], [JSON.parse]) are written out
    after ECMA-262. *)

From Stdlib Require Import ZArith NArith Lia Ascii String DecimalN DecimalFacts.
From stdpp Require Import base option list gmap.

Local Open Scope N_scope.
Set Warnings "-register-all".

(** ** Strings *)

Abbreviation jsstring := (list N).

(** A source literal as a sequence of code units (ASCII literals only). *)
Definition js (s : string) : jsstring :=
  (fun a => N_of_ascii a) <$> list_ascii_of_string s.

Definition LF : N := 10.
Definition DQUOTE : N := 34.
Definition DOLLAR : N := 36.
Definition AMP : N := 38.
Definition SQUOTE : N := 39.
Definition SLASH : N := 47.
Definition BACKSLASH : N := 92.
Definition BACKTICK : N := 96.
Definition TILDE : N := 126.

Module JSString.

(** [s.startsWith(p)] *)
Fixpoint startsWith (p s : jsstring) : bool :=
  match p, s with
  | [], _ => true
  | _ :: _, [] => false
  | a :: p', b :: s' => (a =? b) && startsWith p' s'
  end.

(** [s.split(sep)] for a separator of one code unit. *)
Fixpoint split (sep : N) (s : jsstring) : list jsstring :=
  match s with
  | [] => [[]]
  | c :: t =>
      if c =? sep then [] :: split sep t
      else match split sep t with
           | l :: ls => (c :: l) :: ls
           | [] => [[c]]
           end
  end.

(** [parts.join(sep)] *)
Fixpoint join (sep : jsstring) (parts : list jsstring) : jsstring :=
  match parts with
  | [] => []
  | [x] => x
  | x :: xs => x ++ sep ++ join sep xs
  end.

Fixpoint indexOf_from (needle hay : jsstring) (i : Z) : Z :=
  if startsWith needle hay then i
  else match hay with
       | [] => (-1)%Z
       | _ :: t => indexOf_from needle t (i + 1)%Z
       end.

(** [hay.indexOf(needle)]: the least index where [needle] starts, or -1. *)
Definition indexOf (hay needle : jsstring) : Z := indexOf_from needle hay 0%Z.

(** An index argument of [slice], relative to the end when negative and
    clamped to the string. *)
Definition clamp (len k : Z) : Z :=
  if (k <? 0)%Z then Z.max (len + k) 0 else Z.min k len.

(** [s.slice(start, end)]; [None] is an omitted [end]. *)
Definition slice (s : jsstring) (start : Z) (end_ : option Z) : jsstring :=
  let len := Z.of_nat (length s) in
  let from := clamp len start in
  let to := match end_ with None => len | Some e => clamp len e end in
  take (Z.to_nat (to - from)) (drop (Z.to_nat from) s).

End JSString.

(** ** Regular expressions *)

Module RegExp.

(** The character class [\s]: WhiteSpace and LineTerminator. *)
Definition is_space (c : N) : bool :=
  (c =? 0x09) || (c =? 0x0A) || (c =? 0x0B) || (c =? 0x0C) || (c =? 0x0D)
  || (c =? 0x20) || (c =? 0xA0) || (c =? 0x1680)
  || ((0x2000 <=? c) && (c <=? 0x200A))
  || (c =? 0x2028) || (c =? 0x2029) || (c =? 0x202F) || (c =? 0x205F)
  || (c =? 0x3000) || (c =? 0xFEFF).

Inductive regex : Type :=
| Never : regex
| Empty : regex
| Class (p : N -> bool) : regex
| Cat (r1 r2 : regex) : regex
| Alt (r1 r2 : regex) : regex
| Star (r : regex) : regex.

(** [r+] *)
Definition Plus (r : regex) : regex := Cat r (Star r).

(** A literal word. *)
Fixpoint Lit (w : jsstring) : regex :=
  match w with
  | [] => Empty
  | c :: w' => Cat (Class (N.eqb c)) (Lit w')
  end.

(** The language of a regular expression. *)
Inductive matches : regex -> jsstring -> Prop :=
| m_empty : matches Empty []
| m_class p c : p c = true -> matches (Class p) [c]
| m_cat r1 r2 s1 s2 : matches r1 s1 -> matches r2 s2 -> matches (Cat r1 r2) (s1 ++ s2)
| m_alt_l r1 r2 s : matches r1 s -> matches (Alt r1 r2) s
| m_alt_r r1 r2 s : matches r2 s -> matches (Alt r1 r2) s
| m_star_nil r : matches (Star r) []
| m_star_cons r s1 s2 : matches r s1 -> matches (Star r) s2 -> matches (Star r) (s1 ++ s2).

Fixpoint nullable (r : regex) : bool :=
  match r with
  | Never => false
  | Empty => true
  | Class _ => false
  | Cat r1 r2 => nullable r1 && nullable r2
  | Alt r1 r2 => nullable r1 || nullable r2
  | Star _ => true
  end.

(** What is left of [r] after reading [c]. *)
Fixpoint deriv (c : N) (r : regex) : regex :=
  match r with
  | Never => Never
  | Empty => Never
  | Class p => if p c then Empty else Never
  | Cat r1 r2 =>
      if nullable r1 then Alt (Cat (deriv c r1) r2) (deriv c r2)
      else Cat (deriv c r1) r2
  | Alt r1 r2 => Alt (deriv c r1) (deriv c r2)
  | Star r1 => Cat (deriv c r1) (Star r1)
  end.

(** [/^r/.test(s)]: some prefix of [s] is in the language of [r]. *)
Fixpoint test (r : regex) (s : jsstring) : bool :=
  nullable r ||
  match s with
  | [] => false
  | c :: t => test (deriv c r) t
  end.

(** A pattern that is a sequence of one-character atoms (a quote class,
    a tilde and a slash in the engine): does [s] start with a match, and
    what follows it. *)
Fixpoint match_atoms (pat : list (N -> bool)) (s : jsstring) : option (jsstring * jsstring) :=
  match pat with
  | [] => Some ([], s)
  | p :: pat' =>
      match s with
      | [] => None
      | c :: t =>
          if p c then
            match match_atoms pat' t with
            | Some (m, rest) => Some (c :: m, rest)
            | None => None
            end
          else None
      end
  end.

(** GetSubstitution for a pattern without capture groups: in the
    replacement text a dollar sign followed by a dollar sign, an
    ampersand, a backtick or a single quote is expanded (to a dollar sign,
    the match, the text before it, the text after it); every other dollar
    sign stands for itself. *)
Fixpoint GetSubstitution (template matched before after : jsstring) : jsstring :=
  match template with
  | [] => []
  | c :: t =>
      if c =? DOLLAR then
        match t with
        | [] => [c]
        | d :: t' =>
            if d =? DOLLAR then DOLLAR :: GetSubstitution t' matched before after
            else if d =? AMP then matched ++ GetSubstitution t' matched before after
            else if d =? BACKTICK then before ++ GetSubstitution t' matched before after
            else if d =? SQUOTE then after ++ GetSubstitution t' matched before after
            else c :: GetSubstitution t matched before after
        end
      else c :: GetSubstitution t matched before after
  end.

(** The scan of [s.replace(/pat/g, template)].  [before] is the part of
    the subject already passed; [skip] counts the code units of the
    current match that are still to be passed over. *)
Fixpoint replace_scan (pat : list (N -> bool)) (template before : jsstring)
    (skip : nat) (s : jsstring) : jsstring :=
  match s with
  | [] => []
  | c :: t =>
      match skip with
      | S k => replace_scan pat template (before ++ [c]) k t
      | O =>
          match match_atoms pat s with
          | Some (m, rest) =>
              GetSubstitution template m before rest
                ++ replace_scan pat template (before ++ [c]) (length m - 1) t
          | None => c :: replace_scan pat template (before ++ [c]) 0 t
          end
      end
  end.

(** [s.replace(/pat/g, template)] for a non-empty sequence of atoms. *)
Definition replace (pat : list (N -> bool)) (template s : jsstring) : jsstring :=
  replace_scan pat template [] 0 s.

End RegExp.

(** ** Values and completions *)

(** The values a submitted body can resolve to, as far as the engine can
    tell them apart.  [VNum] is an integral number; [VFrac] is a number
    with a fraction or an exponent part, carried by the decimal text that
    [Number::toString] prints for it (its binary64 value is outside this
    development); [VNonFinite] is NaN or an infinity. *)
Inductive value : Type :=
| VUndefined : value
| VFunction : value
| VNull : value
| VBool (b : bool) : value
| VNum (z : Z) : value
| VNonFinite : value
| VFrac (lit : jsstring) : value
| VStr (s : jsstring) : value
| VArr (elements : list value) : value
| VObj (members : list (jsstring * value)) : value.

(** What can be thrown. *)
Inductive exn : Type :=
| SyntaxError : exn
| SystemError (code : jsstring) : exn
| UserError (message : jsstring) : exn.

(** How an evaluation ends: normally with a value, or abruptly. *)
Inductive completion (A : Type) : Type :=
| Normal (a : A) : completion A
| Throw (e : exn) : completion A.
Arguments Normal {A} a.
Arguments Throw {A} e.

(** [try { c } catch { h }] *)
Definition try_catch {A} (c : completion A) (h : exn -> completion A) : completion A :=
  match c with
  | Normal a => Normal a
  | Throw e => h e
  end.

(** ** JSON *)

Module JSON.

Definition hex_digit (d : N) : N := if d <? 10 then 48 + d else 87 + d.

(** [\uXXXX] with lower-case digits. *)
Definition UnicodeEscape (c : N) : jsstring :=
  [BACKSLASH; 117; hex_digit (c / 4096 mod 16); hex_digit (c / 256 mod 16);
   hex_digit (c / 16 mod 16); hex_digit (c mod 16)].

Definition is_leading_surrogate (c : N) : bool := (0xD800 <=? c) && (c <=? 0xDBFF).
Definition is_trailing_surrogate (c : N) : bool := (0xDC00 <=? c) && (c <=? 0xDFFF).

(** The characters between the quotes of QuoteJSONString. *)
Fixpoint quote_units (s : jsstring) : jsstring :=
  match s with
  | [] => []
  | c :: t =>
      if c =? 0x08 then BACKSLASH :: 98 :: quote_units t
      else if c =? 0x09 then BACKSLASH :: 116 :: quote_units t
      else if c =? 0x0A then BACKSLASH :: 110 :: quote_units t
      else if c =? 0x0C then BACKSLASH :: 102 :: quote_units t
      else if c =? 0x0D then BACKSLASH :: 114 :: quote_units t
      else if c =? DQUOTE then BACKSLASH :: DQUOTE :: quote_units t
      else if c =? BACKSLASH then BACKSLASH :: BACKSLASH :: quote_units t
      else if c <? 0x20 then UnicodeEscape c ++ quote_units t
      else if is_leading_surrogate c then
        match t with
        | d :: t' =>
            if is_trailing_surrogate d then c :: d :: quote_units t'
            else UnicodeEscape c ++ quote_units t
        | [] => UnicodeEscape c
        end
      else if is_trailing_surrogate c then UnicodeEscape c ++ quote_units t
      else c :: quote_units t
  end.

Definition QuoteJSONString (s : jsstring) : jsstring :=
  DQUOTE :: quote_units s ++ [DQUOTE].

Fixpoint uint_units (u : Decimal.uint) : jsstring :=
  match u with
  | Decimal.Nil => []
  | Decimal.D0 u' => 48 :: uint_units u'
  | Decimal.D1 u' => 49 :: uint_units u'
  | Decimal.D2 u' => 50 :: uint_units u'
  | Decimal.D3 u' => 51 :: uint_units u'
  | Decimal.D4 u' => 52 :: uint_units u'
  | Decimal.D5 u' => 53 :: uint_units u'
  | Decimal.D6 u' => 54 :: uint_units u'
  | Decimal.D7 u' => 55 :: uint_units u'
  | Decimal.D8 u' => 56 :: uint_units u'
  | Decimal.D9 u' => 57 :: uint_units u'
  end.

(** [Number::toString] of an integral number printed in plain decimal. *)
Definition Number_toString (z : Z) : jsstring :=
  (if (z <? 0)%Z then [45] else []) ++ uint_units (N.to_uint (Z.abs_N z)).

(** SerializeJSONProperty without replacer or indentation; [None] is
    [undefined]. *)
Fixpoint SerializeJSONProperty (v : value) : option jsstring :=
  match v with
  | VUndefined => None
  | VFunction => None
  | VNull => Some (js "null")
  | VBool true => Some (js "true")
  | VBool false => Some (js "false")
  | VNum z => Some (Number_toString z)
  | VNonFinite => Some (js "null")
  | VFrac lit => Some lit
  | VStr s => Some (QuoteJSONString s)
  | VArr l =>
      Some ([91] ++ JSString.join [44]
              ((fix elements (l : list value) : list jsstring :=
                  match l with
                  | [] => []
                  | x :: l' =>
                      match SerializeJSONProperty x with
                      | Some t => t :: elements l'
                      | None => js "null" :: elements l'
                      end
                  end) l) ++ [93])
  | VObj ms =>
      Some ([123] ++ JSString.join [44]
              ((fix members (ms : list (jsstring * value)) : list jsstring :=
                  match ms with
                  | [] => []
                  | (k, x) :: ms' =>
                      match SerializeJSONProperty x with
                      | Some t => (QuoteJSONString k ++ [58] ++ t) :: members ms'
                      | None => members ms'
                      end
                  end) ms) ++ [125])
  end.

(** [JSON.stringify(v)] *)
Definition stringify (v : value) : option jsstring := SerializeJSONProperty v.

(** *** JSON.parse *)

Definition is_json_ws (c : N) : bool :=
  (c =? 0x09) || (c =? 0x0A) || (c =? 0x0D) || (c =? 0x20).

Fixpoint skip_ws (s : jsstring) : jsstring :=
  match s with
  | c :: t => if is_json_ws c then skip_ws t else s
  | [] => []
  end.

Definition hex_value (c : N) : option N :=
  if (48 <=? c) && (c <=? 57) then Some (c - 48)
  else if (97 <=? c) && (c <=? 102) then Some (c - 87)
  else if (65 <=? c) && (c <=? 70) then Some (c - 55)
  else None.

(** The character an escape letter stands for. *)
Definition simple_escape (e : N) : option N :=
  if e =? DQUOTE then Some DQUOTE
  else if e =? BACKSLASH then Some BACKSLASH
  else if e =? SLASH then Some SLASH
  else if e =? 98 then Some 0x08
  else if e =? 102 then Some 0x0C
  else if e =? 110 then Some 0x0A
  else if e =? 114 then Some 0x0D
  else if e =? 116 then Some 0x09
  else None.

(** The characters of a string literal after its opening quote, up to
    and including the closing quote. *)
Fixpoint parse_units (s : jsstring) : option (jsstring * jsstring) :=
  match s with
  | [] => None
  | c :: t =>
      if c =? DQUOTE then Some ([], t)
      else if c =? BACKSLASH then
        match t with
        | [] => None
        | e :: t' =>
            if e =? 117 then
              match t' with
              | h1 :: h2 :: h3 :: h4 :: t'' =>
                  match hex_value h1, hex_value h2, hex_value h3, hex_value h4 with
                  | Some a, Some b, Some c', Some d =>
                      match parse_units t'' with
                      | Some (str, rest) => Some ((((a * 16 + b) * 16 + c') * 16 + d) :: str, rest)
                      | None => None
                      end
                  | _, _, _, _ => None
                  end
              | _ => None
              end
            else
              match simple_escape e with
              | Some x =>
                  match parse_units t' with
                  | Some (str, rest) => Some (x :: str, rest)
                  | None => None
                  end
              | None => None
              end
        end
      else if c <? 0x20 then None
      else
        match parse_units t with
        | Some (str, rest) => Some (c :: str, rest)
        | None => None
        end
  end.

Definition digit (c : N) : option (Decimal.uint -> Decimal.uint) :=
  if c =? 48 then Some Decimal.D0
  else if c =? 49 then Some Decimal.D1
  else if c =? 50 then Some Decimal.D2
  else if c =? 51 then Some Decimal.D3
  else if c =? 52 then Some Decimal.D4
  else if c =? 53 then Some Decimal.D5
  else if c =? 54 then Some Decimal.D6
  else if c =? 55 then Some Decimal.D7
  else if c =? 56 then Some Decimal.D8
  else if c =? 57 then Some Decimal.D9
  else None.

(** The longest run of decimal digits at the head of [s]. *)
Fixpoint read_digits (s : jsstring) : Decimal.uint * jsstring :=
  match s with
  | [] => (Decimal.Nil, [])
  | c :: t =>
      match digit c with
      | Some d => let (u, r) := read_digits t in (d u, r)
      | None => (Decimal.Nil, s)
      end
  end.

(** A digit run that is no JSON integer part: empty, or a zero followed
    by more digits. *)
Definition bad_int (u : Decimal.uint) : bool :=
  match u with
  | Decimal.Nil => true
  | Decimal.D0 Decimal.Nil => false
  | Decimal.D0 _ => true
  | _ => false
  end.

(** An optional fraction part; [None] is a syntax error. *)
Definition read_fraction (s : jsstring) : option jsstring :=
  match s with
  | c :: t =>
      if c =? 46 then
        match read_digits t with
        | (Decimal.Nil, _) => None
        | (_, r) => Some r
        end
      else Some s
  | [] => Some s
  end.

(** An optional exponent part; [None] is a syntax error. *)
Definition read_exponent (s : jsstring) : option jsstring :=
  match s with
  | c :: t =>
      if (c =? 101) || (c =? 69) then
        let t' := match t with
                  | d :: t'' => if (d =? 43) || (d =? 45) then t'' else t
                  | [] => t
                  end in
        match read_digits t' with
        | (Decimal.Nil, _) => None
        | (_, r) => Some r
        end
      else Some s
  | [] => Some s
  end.

Definition parse_number (s : jsstring) : option (value * jsstring) :=
  let (neg, s1) := match s with
                   | c :: t => if c =? 45 then (true, t) else (false, s)
                   | [] => (false, s)
                   end in
  let (int, s2) := read_digits s1 in
  if bad_int int then None
  else
    match read_fraction s2 with
    | None => None
    | Some s3 =>
        match read_exponent s3 with
        | None => None
        | Some s4 =>
            if (length s4 =? length s2)%nat then
              let n := Z.of_N (N.of_uint int) in
              Some (VNum (if neg then (- n)%Z else n), s2)
            else Some (VFrac (take (length s - length s4)%nat s), s4)
        end
    end.

(** An array index: the canonical decimal text of an integer below
    2^32 - 1. *)
Definition array_index (k : jsstring) : option N :=
  match read_digits k with
  | (u, []) =>
      if bad_int u then None
      else if N.of_uint u <? 2 ^ 32 - 1 then Some (N.of_uint u) else None
  | _ => None
  end.

Definition eqb_string (a b : jsstring) : bool := bool_decide (a = b).

Fixpoint has_key (k : jsstring) (ms : list (jsstring * value)) : bool :=
  match ms with
  | [] => false
  | (k', _) :: ms' => eqb_string k k' || has_key k ms'
  end.

Fixpoint set_existing (k : jsstring) (v : value) (ms : list (jsstring * value))
    : list (jsstring * value) :=
  match ms with
  | [] => []
  | (k', v') :: ms' =>
      if eqb_string k k' then (k', v) :: ms' else (k', v') :: set_existing k v ms'
  end.

Fixpoint insert_index (n : N) (k : jsstring) (v : value) (ms : list (jsstring * value))
    : list (jsstring * value) :=
  match ms with
  | [] => [(k, v)]
  | (k', v') :: ms' =>
      match array_index k' with
      | Some n' => if n' <? n then (k', v') :: insert_index n k v ms' else (k, v) :: ms
      | None => (k, v) :: ms
      end
  end.

(** CreateDataProperty on an ordinary object, whose own properties are
    listed in the order of OrdinaryOwnPropertyKeys: array indices in
    ascending order, then the other keys in order of creation. *)
Definition CreateDataProperty (ms : list (jsstring * value)) (k : jsstring) (v : value)
    : list (jsstring * value) :=
  if has_key k ms then set_existing k v ms
  else match array_index k with
       | Some n => insert_index n k v ms
       | None => ms ++ [(k, v)]
       end.

Definition keyword (w : string) (v : value) (s : jsstring) : option (value * jsstring) :=
  if JSString.startsWith (js w) s then Some (v, drop (length (js w)) s) else None.

(** A JSON value at the head of [s], after optional white space.  The
    fuel bounds the depth of the descent. *)
Fixpoint parse_value (fuel : nat) (s : jsstring) {struct fuel} : option (value * jsstring) :=
  match fuel with
  | O => None
  | S f =>
      match skip_ws s with
      | [] => None
      | c :: t =>
          if c =? DQUOTE then
            match parse_units t with
            | Some (str, rest) => Some (VStr str, rest)
            | None => None
            end
          else if c =? 91 then
            match skip_ws t with
            | d :: r => if d =? 93 then Some (VArr [], r) else parse_elements f t
            | [] => None
            end
          else if c =? 123 then
            match skip_ws t with
            | d :: r => if d =? 125 then Some (VObj [], r) else parse_members f t []
            | [] => None
            end
          else if c =? 110 then keyword "null" VNull (c :: t)
          else if c =? 116 then keyword "true" (VBool true) (c :: t)
          else if c =? 102 then keyword "false" (VBool false) (c :: t)
          else parse_number (c :: t)
      end
  end
with parse_elements (fuel : nat) (s : jsstring) {struct fuel} : option (value * jsstring) :=
  match fuel with
  | O => None
  | S f =>
      match parse_value f s with
      | None => None
      | Some (v, r) =>
          match skip_ws r with
          | d :: r' =>
              if d =? 93 then Some (VArr [v], r')
              else if d =? 44 then
                match parse_elements f r' with
                | Some (VArr vs, r'') => Some (VArr (v :: vs), r'')
                | _ => None
                end
              else None
          | [] => None
          end
      end
  end
with parse_members (fuel : nat) (s : jsstring) (acc : list (jsstring * value)) {struct fuel}
    : option (value * jsstring) :=
  match fuel with
  | O => None
  | S f =>
      match skip_ws s with
      | q :: t =>
          if q =? DQUOTE then
            match parse_units t with
            | None => None
            | Some (k, r) =>
                match skip_ws r with
                | colon :: r1 =>
                    if colon =? 58 then
                      match parse_value f r1 with
                      | None => None
                      | Some (v, r2) =>
                          let acc' := CreateDataProperty acc k v in
                          match skip_ws r2 with
                          | d :: r3 =>
                              if d =? 125 then Some (VObj acc', r3)
                              else if d =? 44 then parse_members f r3 acc'
                              else None
                          | [] => None
                          end
                      end
                    else None
                | [] => None
                end
            end
          else None
      | [] => None
      end
  end.

(** [JSON.parse(text)]: the value of the text, or a SyntaxError. *)
Definition parse (text : jsstring) : completion value :=
  match parse_value (2 * length text + 2) text with
  | Some (v, rest) =>
      match skip_ws rest with
      | [] => Normal v
      | _ :: _ => Throw SyntaxError
      end
  | None => Throw SyntaxError
  end.

End JSON.

(** ** The engine: splitter, alias expander, harness synthesizer *)

(** The sentinel token of the decoder. *)
Definition returnMarker : jsstring := js "__RETURN_VALUE__:".

(** The pattern of the import test: start of line, white space, the word
    import, white space at least once. *)
Definition import_re : RegExp.regex :=
  RegExp.Cat (RegExp.Star (RegExp.Class RegExp.is_space))
    (RegExp.Cat (RegExp.Lit (js "import")) (RegExp.Plus (RegExp.Class RegExp.is_space))).

Definition is_quote (c : N) : bool := (c =? SQUOTE) || (c =? DQUOTE).

(** The pattern of the alias expansion: a single or double quote, a tilde,
    a slash. *)
Definition home_alias_re : list (N -> bool) := [is_quote; N.eqb TILDE; N.eqb SLASH].

(** The replacement text: a single quote, the home directory, a slash. *)
Definition home_template (homeDir : jsstring) : jsstring := [SQUOTE] ++ homeDir ++ [SLASH].

Definition expandedLine (homeDir line : jsstring) : jsstring :=
  RegExp.replace home_alias_re (home_template homeDir) line.

Record ParsedSource : Type := { imports : list jsstring; codeLines : list jsstring }.

(** One turn of the loop over the lines. *)
Definition split_step (homeDir : jsstring) (acc : ParsedSource) (line : jsstring) : ParsedSource :=
  if RegExp.test import_re line then
    {| imports := imports acc ++ [expandedLine homeDir line]; codeLines := codeLines acc |}
  else
    {| imports := imports acc; codeLines := codeLines acc ++ [line] |}.

Definition split_source (homeDir code : jsstring) : ParsedSource :=
  fold_left (split_step homeDir) (JSString.split LF code) {| imports := []; codeLines := [] |}.

(** The text before the body lines in the template of the harness. *)
Definition harness_open : jsstring := js "

(async () => {
  const __result = await (async () => {
    ".

(** The text after the body lines in the template of the harness. *)
Definition harness_close : jsstring := js "
  })();

  console.log('__RETURN_VALUE__:' + JSON.stringify(__result));
})();
".

Definition wrappedCode (imports codeLines : list jsstring) : jsstring :=
  [LF] ++ JSString.join [LF] imports ++ harness_open
    ++ JSString.join [LF] codeLines ++ harness_close.

(** ** The engine: result decoder *)

Record ExecutionResult : Type :=
  { returnValue : value; stdout : jsstring; stderr : jsstring }.

Definition decode (rawStdout : jsstring) : completion (value * jsstring) :=
  let returnIndex := JSString.indexOf rawStdout returnMarker in
  if (returnIndex =? -1)%Z then Normal (VUndefined, rawStdout)
  else
    let returnLine :=
      JSString.slice rawStdout (returnIndex + Z.of_nat (length returnMarker))%Z None in
    let returnEnd := JSString.indexOf returnLine [LF] in
    let returnJson :=
      if (returnEnd =? -1)%Z then returnLine
      else JSString.slice returnLine 0%Z (Some returnEnd) in
    match try_catch (JSON.parse returnJson) (fun _ => Normal VUndefined) with
    | Throw e => Throw e
    | Normal returnValue =>
        let stdoutClean :=
          JSString.slice rawStdout 0%Z (Some returnIndex)
            ++ (if (returnEnd =? -1)%Z then []
                else JSString.slice returnLine (returnEnd + 1)%Z None) in
        Normal (returnValue, stdoutClean)
    end.

(** ** The harness as a program *)

(** A run of JavaScript code, read sequentially: what it writes to
    standard output until it settles, and whether it yields a value or
    throws.  Work that the code leaves pending when it settles is not
    part of a run. *)
Record Script (A : Type) : Type := { written : jsstring; settled : completion A }.
Arguments written {A} _.
Arguments settled {A} _.

Definition script_ret {A} (a : A) : Script A := {| written := []; settled := Normal a |}.

Definition script_bind {A B} (m : Script A) (k : A -> Script B) : Script B :=
  match settled m with
  | Normal a => {| written := written m ++ written (k a); settled := settled (k a) |}
  | Throw e => {| written := written m; settled := Throw e |}
  end.

(** [console.log(s)] with one string argument: the string and a line break. *)
Definition console_log (s : jsstring) : Script unit :=
  {| written := s ++ [LF]; settled := Normal tt |}.

Definition script_throw {A} (e : exn) : Script A := {| written := []; settled := Throw e |}.

(** String concatenation with the result of JSON.stringify, which is
    the text undefined when there is no encoding. *)
Definition concat_stringified (prefix : jsstring) (encoded : option jsstring) : jsstring :=
  prefix ++ default (js "undefined") encoded.

(** What the synthesized program does: its imports are evaluated, the
    body block is awaited, and then the sentinel line is logged. *)
Definition harness (importsRun : Script unit) (body : Script value) : Script unit :=
  script_bind importsRun (fun _ =>
  script_bind body (fun __result =>
  console_log (concat_stringified (js "__RETURN_VALUE__:") (JSON.stringify __result)))).

(** The head line of what the runtime prints on standard error for an
    uncaught exception; the stack trace is left out. *)
Definition diagnostic (e : exn) : jsstring :=
  match e with
  | SyntaxError => js "error: Unexpected token" ++ [LF]
  | SystemError code => js "error: " ++ code ++ [LF]
  | UserError message => js "error: " ++ message ++ [LF]
  end.

Record ChildOutput : Type :=
  { child_stdout : jsstring; child_stderr : jsstring; child_exitCode : Z }.

(** The output of the child process that runs a program to its end. *)
Definition run_to_end (p : Script unit) : ChildOutput :=
  match settled p with
  | Normal _ => {| child_stdout := written p; child_stderr := []; child_exitCode := 0 |}
  | Throw e => {| child_stdout := written p; child_stderr := diagnostic e; child_exitCode := 1 |}
  end.

(** ** The host: file system, environment and child processes *)

(** The calls the engine makes on its host, in the order they are made. *)
Inductive event : Type :=
| CallMkdtemp (prefix : jsstring) : event
| CallWriteFile (path data : jsstring) : event
| CallSpawn (argv : list jsstring) (cwd : jsstring) (env : gmap jsstring jsstring) : event
| CallReadStreams : event
| CallExited : event
| CallRm (path : jsstring) (recursive force : bool) : event.

(** The state the engine acts on: the directories that exist and the
    calls made so far. *)
Record world : Type := { dirs : gset jsstring; trace : list event }.

(** A spawned child: each of its two streams reads to a text or fails,
    and waiting for its end gives the exit code or fails. *)
Record Subprocess : Type :=
  { proc_stdout : completion jsstring;
    proc_stderr : completion jsstring;
    proc_exited : completion Z }.

(** The host the engine runs on: its environment, and how each of its
    operations answers. *)
Record Host : Type :=
  { process_env : gmap jsstring jsstring;
    os_homedir : jsstring;
    os_tmpdir : jsstring;
    process_cwd : jsstring;
    path_join : jsstring -> jsstring -> jsstring;
    mkdtemp_answer : jsstring -> completion jsstring;
    writeFile_answer : jsstring -> jsstring -> completion unit;
    spawn_answer : list jsstring -> jsstring -> gmap jsstring jsstring -> completion Subprocess;
    rm_answer : jsstring -> completion unit }.

(** Asynchronous code of the engine: it acts on the world and completes
    normally or abruptly. *)
Definition Async (A : Type) : Type := world -> completion A * world.

Definition async_ret {A} (a : A) : Async A := fun w => (Normal a, w).

Definition async_bind {A B} (m : Async A) (k : A -> Async B) : Async B :=
  fun w =>
    match m w with
    | (Normal a, w') => k a w'
    | (Throw e, w') => (Throw e, w')
    end.

Notation "x <- m ;; k" := (async_bind m (fun x => k))
  (at level 100, m at next level, right associativity).

(** [await] of a promise that is already settled. *)
Definition await {A} (c : completion A) : Async A := fun w => (c, w).

Definition call (e : event) : Async unit :=
  fun w => (Normal tt, {| dirs := dirs w; trace := trace w ++ [e] |}).

(** [try { body } finally { fin }] *)
Definition try_finally {A} (body : Async A) (fin : Async unit) : Async A :=
  fun w =>
    let (r, w1) := body w in
    match fin w1 with
    | (Normal _, w2) => (r, w2)
    | (Throw e, w2) => (Throw e, w2)
    end.

(** [try { body } catch { handler }] *)
Definition try_catch_async {A} (body : Async A) (handler : exn -> Async A) : Async A :=
  fun w =>
    match body w with
    | (Normal a, w') => (Normal a, w')
    | (Throw e, w') => handler e w'
    end.

(** [fs.mkdtemp(prefix)]: on success the new directory exists. *)
Definition fs_mkdtemp (h : Host) (prefix : jsstring) : Async jsstring :=
  _ <- call (CallMkdtemp prefix) ;;
  fun w =>
    match mkdtemp_answer h prefix with
    | Normal p => (Normal p, {| dirs := {[p]} ∪ dirs w; trace := trace w |})
    | Throw e => (Throw e, w)
    end.

(** [fs.writeFile(path, data)] *)
Definition fs_writeFile (h : Host) (path data : jsstring) : Async unit :=
  _ <- call (CallWriteFile path data) ;;
  await (writeFile_answer h path data).

(** [fs.rm(path, { recursive, force })]: on success the directory is gone. *)
Definition fs_rm (h : Host) (path : jsstring) (recursive force : bool) : Async unit :=
  _ <- call (CallRm path recursive force) ;;
  fun w =>
    match rm_answer h path with
    | Normal _ => (Normal tt, {| dirs := dirs w ∖ {[path]}; trace := trace w |})
    | Throw e => (Throw e, w)
    end.

(** [Bun.spawn(argv, { cwd, stdout: 'pipe', stderr: 'pipe', env })] *)
Definition Bun_spawn (h : Host) (argv : list jsstring) (cwd : jsstring)
    (env : gmap jsstring jsstring) : Async Subprocess :=
  _ <- call (CallSpawn argv cwd env) ;;
  await (spawn_answer h argv cwd env).

(** [Promise.all] of the texts of the two streams. *)
Definition read_streams (proc : Subprocess) : Async (jsstring * jsstring) :=
  _ <- call CallReadStreams ;;
  out <- await (proc_stdout proc) ;;
  err <- await (proc_stderr proc) ;;
  async_ret (out, err).

(** [a || b] on strings: [b] when [a] is undefined or empty. *)
Definition or_else (a : option jsstring) (b : jsstring) : jsstring :=
  match a with
  | Some (c :: s) => c :: s
  | _ => b
  end.

(** [process.env.HOME || os.homedir()] *)
Definition resolve_home (h : Host) : jsstring :=
  or_else (process_env h !! js "HOME") (os_homedir h).

(** ** The executor *)

Class TypeScriptExecutor : Type :=
  { execute : jsstring -> jsstring -> Async ExecutionResult }.

(** The block under [try] of [DefaultTypeScriptExecutor.execute]. *)
Definition execute_body (h : Host) (code workingDir tmpFile : jsstring) : Async ExecutionResult :=
  let homeDir := resolve_home h in
  let parsed := split_source homeDir code in
  _ <- fs_writeFile h tmpFile (wrappedCode (imports parsed) (codeLines parsed)) ;;
  proc <- Bun_spawn h [js "bun"; js "run"; tmpFile] workingDir
            (<[js "HOME" := resolve_home h]> (process_env h)) ;;
  texts <- read_streams proc ;;
  let '(stdout, stderr) := texts in
  _ <- (_ <- call CallExited ;; await (proc_exited proc)) ;;
  decoded <- await (decode stdout) ;;
  let '(returnValue, stdoutClean) := decoded in
  async_ret {| returnValue := returnValue; stdout := stdoutClean; stderr := stderr |}.

(** The block under [finally]. *)
Definition cleanup (h : Host) (tmpDir : jsstring) : Async unit :=
  try_catch_async (fs_rm h tmpDir true true) (fun _ => async_ret tt).

Definition DefaultTypeScriptExecutor_execute (h : Host) (code workingDir : jsstring)
    : Async ExecutionResult :=
  tmpDir <- fs_mkdtemp h (path_join h (os_tmpdir h) (js "run-skill-code-")) ;;
  let tmpFile := path_join h tmpDir (js "code.ts") in
  try_finally (execute_body h code workingDir tmpFile) (cleanup h tmpDir).

Definition defaultExecutor (h : Host) : TypeScriptExecutor :=
  {| execute := DefaultTypeScriptExecutor_execute h |}.

Definition runSkillCodeImpl (code workingDir : jsstring) (executor : TypeScriptExecutor)
    : Async ExecutionResult :=
  @execute executor code workingDir.

Record RunSkillCodeParams : Type := { code : jsstring; description : option jsstring }.

Definition runSkillCode (h : Host) (params : RunSkillCodeParams) : Async ExecutionResult :=
  let workingDir := process_cwd h in
  runSkillCodeImpl (code params) workingDir (defaultExecutor h).

(** ** Vocabulary of the statements *)

(** The needle occurs in the text right after [pre]. *)
Definition occurs_at (needle hay pre : jsstring) : Prop :=
  exists post, hay = pre ++ needle ++ post.

(** [pre] is what precedes the first occurrence of the needle. *)
Definition first_occurrence (needle hay pre : jsstring) : Prop :=
  occurs_at needle hay pre
  /\ forall pre', occurs_at needle hay pre' -> (length pre <= length pre')%nat.

(** The needle occurs nowhere in the text. *)
Definition absent (needle hay : jsstring) : Prop :=
  forall pre, ~ occurs_at needle hay pre.

(** What is left of a text after a payload: nothing, or a line break and
    the text after it. *)
Definition line_rest (after : option jsstring) : jsstring :=
  match after with
  | Some a => LF :: a
  | None => []
  end.

(** The value the decoder keeps of an attempt to parse. *)
Definition value_or_undefined (c : completion value) : value :=
  match c with
  | Normal v => v
  | Throw _ => VUndefined
  end.

(** A line that, leading white space ignored, begins with the import
    keyword followed by white space. *)
Definition import_line (line : jsstring) : Prop :=
  exists lead c rest,
    line = lead ++ js "import" ++ c :: rest
    /\ Forall (fun x => RegExp.is_space x = true) lead
    /\ RegExp.is_space c = true.


(** The prefix of the workspace name. *)
Definition tmp_prefix (h : Host) : jsstring :=
  path_join h (os_tmpdir h) (js "run-skill-code-").

(** The environment given to the child. *)
Definition child_env (h : Host) : gmap jsstring jsstring :=
  <[js "HOME" := resolve_home h]> (process_env h).

(** The program the engine writes for a submitted code. *)
Definition program_of (h : Host) (code : jsstring) : jsstring :=
  let parsed := split_source (resolve_home h) code in
  wrappedCode (imports parsed) (codeLines parsed).

(** The world after one more call. *)
Definition called (w : world) (calls : list event) : world :=
  {| dirs := dirs w; trace := trace w ++ calls |}.

(** ** Plain values *)

(** [k] may stand before [k'] among the own properties of an object:
    array indices in ascending order, then the other keys, all distinct. *)
Definition key_before (k k' : jsstring) : bool :=
  match JSON.array_index k, JSON.array_index k' with
  | Some n, Some n' => n <? n'
  | Some _, None => true
  | None, Some _ => false
  | None, None => negb (JSON.eqb_string k k')
  end.

(** The keys are in the order in which an object lists its own properties. *)
Fixpoint keys_in_order (ks : list jsstring) : bool :=
  match ks with
  | [] => true
  | k :: ks' => forallb (key_before k) ks' && keys_in_order ks'
  end.

(** A plain value: null, a boolean, a string, an integral number in the
    safe range, an array of plain values, or an object of plain values
    whose keys are distinct and in own-property order. *)
Fixpoint plain (v : value) : bool :=
  match v with
  | VNull => true
  | VBool _ => true
  | VStr _ => true
  | VNum z => (Z.abs z <=? 2 ^ 53 - 1)%Z
  | VArr l =>
      (fix all (l : list value) : bool :=
         match l with
         | [] => true
         | x :: l' => plain x && all l'
         end) l
  | VObj ms =>
      keys_in_order (map fst ms)
      && (fix all (ms : list (jsstring * value)) : bool :=
            match ms with
            | [] => true
            | (_, x) :: ms' => plain x && all ms'
            end) ms
  | _ => false
  end.

(** ** Vocabulary of the JSON facts *)

(** No code unit of the text is a control character. *)
Definition visible (t : jsstring) : Prop := Forall (fun c => 0x20 <= c) t.

Definition is_digit (c : N) : bool := (48 <=? c) && (c <=? 57).

(** A text at which a number ends. *)
Definition ends_number (rest : jsstring) : Prop :=
  match rest with
  | [] => True
  | c :: _ => is_digit c = false /\ c <> 46 /\ c <> 101 /\ c <> 69
  end.

(** The text of an array element. *)
Definition element_text (x : value) : jsstring :=
  default (js "null") (JSON.SerializeJSONProperty x).

(** The text of an object member. *)
Definition member_text (kv : jsstring * value) : jsstring :=
  JSON.QuoteJSONString (fst kv) ++ [58] ++ element_text (snd kv).

(** A text that starts with a code unit that is neither white space nor
    a closing bracket. *)
Definition starts_value (t : jsstring) : Prop :=
  exists c t', t = c :: t' /\ JSON.is_json_ws c = false /\ c <> 93.

(** The value has a text, and a value parser with enough fuel reads the
    value back from it, leaving what follows. *)
Definition roundtrips (v : value) : Prop :=
  exists t,
    JSON.SerializeJSONProperty v = Some t
    /\ starts_value t
    /\ visible t
    /\ forall fuel rest,
         (length t <= fuel)%nat -> ends_number rest ->
         JSON.parse_value fuel (t ++ rest) = Some (v, rest).


(** ** Sample hosts and bodies *)

(** [path.join] on two plain segments. *)
Definition posix_join (a b : jsstring) : jsstring := a ++ [SLASH] ++ b.

(** The handle of a child that wrote the given output. *)
Definition subprocess_of (c : ChildOutput) : Subprocess :=
  {| proc_stdout := Normal (child_stdout c);
     proc_stderr := Normal (child_stderr c);
     proc_exited := Normal (child_exitCode c) |}.

(** A host without HOME in its environment, with the given answers of
    [Bun.spawn] and [fs.rm]. *)
Definition sample_host (spawned : completion Subprocess) (removed : completion unit) : Host :=
  {| process_env := {[ js "PATH" := js "/usr/bin" ]};
     os_homedir := js "/home/u";
     os_tmpdir := js "/tmp";
     process_cwd := js "/work/project";
     path_join := posix_join;
     mkdtemp_answer := fun prefix => Normal (prefix ++ js "Ab12Cd");
     writeFile_answer := fun _ _ => Normal tt;
     spawn_answer := fun _ _ _ => spawned;
     rm_answer := fun _ => removed |}.

(** A host on which the workspace cannot be created. *)
Definition host_without_tmp : Host :=
  {| process_env := ∅;
     os_homedir := js "/home/u";
     os_tmpdir := js "/tmp";
     process_cwd := js "/work/project";
     path_join := posix_join;
     mkdtemp_answer := fun _ => Throw (SystemError (js "EACCES"));
     writeFile_answer := fun _ _ => Normal tt;
     spawn_answer := fun _ _ _ => Throw (SystemError (js "ENOENT"));
     rm_answer := fun _ => Normal tt |}.

Definition empty_world : world := {| dirs := ∅; trace := [] |}.

(** The host on which the child runs the harness around a body. *)
Definition host_running (body : Script value) : Host :=
  sample_host (Normal (subprocess_of (run_to_end (harness (script_ret tt) body)))) (Normal tt).

(** A body that logs a line and returns an object. *)
Definition logging_body : Script value :=
  script_bind (console_log (js "hello")) (fun _ =>
  script_ret (VObj [(js "7", VArr [VNum (-42); VNull]); (js "title", VStr (js "done"))])).


(** A body that throws. *)
Definition throwing_body : Script value :=
  script_bind (console_log (js "before")) (fun _ => script_throw (UserError (js "boom"))).


(** A body that logs the sentinel token itself and then throws:
    [console.log('__RETURN_VALUE__:1'); throw new Error('boom');] *)
Definition decoy_then_throw : Script value :=
  script_bind (console_log (js "__RETURN_VALUE__:1")) (fun _ =>
  script_throw (UserError (js "boom"))).


(** An import written with double quotes. *)
Definition double_quoted_import : jsstring :=
  js "import { x } from " ++ [DQUOTE] ++ js "~/lib/x.js" ++ [DQUOTE] ++ js ";".

(** A raw standard output with the sentinel line between two lines. *)
Definition sample_stdout : jsstring :=
  js "out" ++ [LF] ++ js "__RETURN_VALUE__:42" ++ [LF] ++ js "late" ++ [LF].

(** The workspace [sample_host] creates. *)
Definition sample_tmpDir : jsstring := js "/tmp/run-skill-code-Ab12Cd".

(** A host on which neither the launch of the process nor the removal
    of the workspace succeeds. *)
Definition failing_host : Host :=
  sample_host (Throw (SystemError (js "ENOENT"))) (Throw (SystemError (js "EBUSY"))).

Definition sample_params : RunSkillCodeParams :=
  {| code := js "return 42;"; description := Some (js "Return simple number") |}.

(** The request whose body logs the token and then throws. *)
Definition decoy_params : RunSkillCodeParams :=
  {| code := js "console.log('__RETURN_VALUE__:1'); throw new Error('boom');";
     description := None |}.

(** ** Vocabulary of the executor facts *)

(** The file of the workspace that holds the program. *)
Definition tmp_file (h : Host) (tmpDir : jsstring) : jsstring :=
  path_join h tmpDir (js "code.ts").

(** The calls of the guarded block when every step succeeds, in order. *)
Definition block_calls (h : Host) (code workingDir tmpDir : jsstring) : list event :=
  [CallWriteFile (tmp_file h tmpDir) (program_of h code);
   CallSpawn [js "bun"; js "run"; tmp_file h tmpDir] workingDir (child_env h);
   CallReadStreams;
   CallExited].

(** A host on which the program cannot be written. *)
Definition host_with_full_disk : Host :=
  {| process_env := ∅;
     os_homedir := js "/home/u";
     os_tmpdir := js "/tmp";
     process_cwd := js "/work/project";
     path_join := posix_join;
     mkdtemp_answer := fun prefix => Normal (prefix ++ js "Ab12Cd");
     writeFile_answer := fun _ _ => Throw (SystemError (js "ENOSPC"));
     spawn_answer := fun _ _ _ => Throw (SystemError (js "ENOENT"));
     rm_answer := fun _ => Normal tt |}.


(** ** Vocabulary of the further facts *)

(** The alias as it is written with a single and with a double quote. *)
Definition single_quoted_alias : jsstring := [SQUOTE; TILDE; SLASH].
Definition double_quoted_alias : jsstring := [DQUOTE; TILDE; SLASH].

(** A value that is neither undefined nor a function. *)
Definition is_defined (v : value) : bool :=
  match v with
  | VUndefined => false
  | VFunction => false
  | _ => true
  end.

(** ** What JSON keeps of a value *)






(** ** JSON.stringify with indentation *)

(** The text of an array or an object from the texts of its parts:
    [stepback] is the indentation of the enclosing level, [gap] what one
    level adds. *)
Definition enclose (gap stepback : jsstring) (opening closing : N) (partial : list jsstring)
    : jsstring :=
  match partial with
  | [] => [opening; closing]
  | _ :: _ =>
      match gap with
      | [] => [opening] ++ JSString.join [44] partial ++ [closing]
      | _ :: _ =>
          [opening; LF] ++ (stepback ++ gap)
            ++ JSString.join ([44; LF] ++ stepback ++ gap) partial
            ++ [LF] ++ stepback ++ [closing]
      end
  end.

(** What stands between the key and the value of a member. *)
Definition member_colon (gap : jsstring) : jsstring :=
  match gap with
  | [] => [58]
  | _ :: _ => [58; 32]
  end.

(** SerializeJSONProperty with a gap, at the indentation [indent]. *)
Fixpoint SerializeIndented (gap indent : jsstring) (v : value) : option jsstring :=
  match v with
  | VUndefined => None
  | VFunction => None
  | VNull => Some (js "null")
  | VBool true => Some (js "true")
  | VBool false => Some (js "false")
  | VNum z => Some (JSON.Number_toString z)
  | VNonFinite => Some (js "null")
  | VFrac lit => Some lit
  | VStr s => Some (JSON.QuoteJSONString s)
  | VArr l =>
      Some (enclose gap indent 91 93
              ((fix elements (l : list value) : list jsstring :=
                  match l with
                  | [] => []
                  | x :: l' =>
                      match SerializeIndented gap (indent ++ gap) x with
                      | Some t => t :: elements l'
                      | None => js "null" :: elements l'
                      end
                  end) l))
  | VObj ms =>
      Some (enclose gap indent 123 125
              ((fix members (ms : list (jsstring * value)) : list jsstring :=
                  match ms with
                  | [] => []
                  | (k, x) :: ms' =>
                      match SerializeIndented gap (indent ++ gap) x with
                      | Some t =>
                          (JSON.QuoteJSONString k ++ member_colon gap ++ t) :: members ms'
                      | None => members ms'
                      end
                  end) ms))
  end.

(** [JSON.stringify(v, null, space)] for a number of spaces. *)
Definition stringify_spaced (v : value) (space : nat) : option jsstring :=
  SerializeIndented (repeat 32 (Nat.min 10 space)) [] v.

(** ** The tool handler of the protocol adapter *)

Record TextContent : Type := { content_type : jsstring; content_text : option jsstring }.

(** The response of the tool; [isError] is [None] when the property is
    not set. *)
Record CallToolResult : Type := { isError : option bool; content : list TextContent }.

(** The result of the engine as the object it is. *)
Definition result_object (r : ExecutionResult) : value :=
  VObj [(js "returnValue", returnValue r);
        (js "stdout", VStr (stdout r));
        (js "stderr", VStr (stderr r))].

(** The handler registered for the tool run-skill-code.  [describe] is
    the message of an error, or its string conversion when it is no Error
    object. *)
Definition tool_handler (describe : exn -> jsstring) (h : Host) (args : RunSkillCodeParams)
    : Async CallToolResult :=
  try_catch_async
    (result <- runSkillCode h {| code := code args; description := description args |} ;;
     async_ret {| isError := None;
                  content := [{| content_type := js "text";
                                 content_text := stringify_spaced (result_object result) 2 |}] |})
    (fun error =>
       async_ret {| isError := Some true;
                    content := [{| content_type := js "text";
                                   content_text :=
                                     Some (js "Error executing code: " ++ describe error) |}] |}).

(** Vocabulary: a text of JSON white space only. *)
Definition blank (t : jsstring) : Prop := Forall (fun c => JSON.is_json_ws c = true) t.

(** The value has an indented text at every blank indentation, and a
    value parser with enough fuel reads the value back from it. *)
Definition roundtrips_indented (gap : jsstring) (v : value) : Prop :=
  forall indent,
    blank indent ->
    exists t,
      SerializeIndented gap indent v = Some t
      /\ starts_value t
      /\ forall fuel rest,
           (length t <= fuel)%nat -> ends_number rest ->
           JSON.parse_value fuel (t ++ rest) = Some (v, rest).

(** The text of an element and of a member at an indentation. *)
Definition element_indented (gap indent : jsstring) (x : value) : jsstring :=
  default (js "null") (SerializeIndented gap indent x).

Definition member_indented (gap indent : jsstring) (kv : jsstring * value) : jsstring :=
  JSON.QuoteJSONString (fst kv) ++ member_colon gap ++ element_indented gap indent (snd kv).

(** How the message of an error reads on the sample hosts. *)
Definition sample_describe (e : exn) : jsstring :=
  match e with
  | SyntaxError => js "Unexpected token"
  | SystemError code => code
  | UserError message => message
  end.

(** The members of the result that the text of the response shows: a
    member whose value is undefined is left out by [JSON.stringify]. *)
Definition reported_members (r : ExecutionResult) : list (jsstring * value) :=
  match returnValue r with
  | VUndefined => []
  | v => [(js "returnValue", v)]
  end
  ++ [(js "stdout", VStr (stdout r)); (js "stderr", VStr (stderr r))].

(** A host whose child wrote a line, failed and ended with exit code 1. *)
Definition host_with_crashed_child : Host :=
  sample_host
    (Normal {| proc_stdout := Normal (js "step 1" ++ [LF]);
               proc_stderr := Normal (js "error: boom");
               proc_exited := Normal 1%Z |})
    (Normal tt).

(** A host whose environment has an empty HOME. *)
Definition host_with_empty_home : Host :=
  {| process_env := {[ js "HOME" := [] ]};
     os_homedir := js "/home/u";
     os_tmpdir := js "/tmp";
     process_cwd := js "/work/project";
     path_join := posix_join;
     mkdtemp_answer := fun prefix => Normal (prefix ++ js "Ab12Cd");
     writeFile_answer := fun _ _ => Normal tt;
     spawn_answer := fun _ _ _ => Throw (SystemError (js "ENOENT"));
     rm_answer := fun _ => Normal tt |}.

(** * The restructuring script of the discovery tree *)

Module Restructure.

(** What the script can throw: the error of the shell, as for a command
    that ends with a non-zero exit code, or a TypeError. *)
Inductive fault : Type :=
| ShellError (info : jsstring) : fault
| TypeError : fault.

Inductive outcome (A : Type) : Type :=
| Done (a : A) : outcome A
| Failed (e : fault) : outcome A.
Arguments Done {A} a.
Arguments Failed {A} e.

(** What the script does to its surroundings: it runs [bash -c cmd]
    through the shell of the runtime, and it writes a line with
    [console.log]. *)
Inductive effect : Type :=
| Shell (cmd : jsstring) : effect
| Log (line : jsstring) : effect.

(** The runtime of the script.  [shell_text past cmd] is the text of the
    standard output of [bash -c cmd] run after the effects [past], or the
    error of the shell; [ToBoolean] and [ToString] are the conversions of
    the language, [ToString] being [None] where it throws a TypeError;
    [describe_fault] is the text of a thrown error in a template. *)
Record Runtime : Type :=
  { shell_text : list effect -> jsstring -> outcome jsstring;
    ToBoolean : value -> bool;
    ToString : value -> option jsstring;
    describe_fault : fault -> jsstring }.

(** An asynchronous function of the script: from the effects so far to
    its outcome and the effects after it. *)
Definition Job (A : Type) : Type := list effect -> outcome A * list effect.

Definition job_ret {A} (a : A) : Job A := fun past => (Done a, past).

Definition job_bind {A B} (m : Job A) (k : A -> Job B) : Job B :=
  fun past =>
    match m past with
    | (Done a, now) => k a now
    | (Failed e, now) => (Failed e, now)
    end.

Declare Scope job_scope.
Notation "x <- m ;; k" := (job_bind m (fun x => k))
  (at level 100, m at next level, right associativity) : job_scope.
Local Open Scope job_scope.

(** A synchronous step that may throw. *)
Definition job_of {A} (o : outcome A) : Job A := fun past => (o, past).

(** [try { body } catch (error) { handler }] *)
Definition job_try_catch {A} (body : Job A) (handler : fault -> Job A) : Job A :=
  fun past =>
    match body past with
    | (Done a, now) => (Done a, now)
    | (Failed e, now) => handler e now
    end.

(** [for (const x of l) { body }] *)
Fixpoint for_of {A} (l : list A) (body : A -> Job unit) : Job unit :=
  match l with
  | [] => job_ret tt
  | x :: l' => _ <- body x ;; for_of l' body
  end.

(** [await $`bash -c ${cmd}`.text()] *)
Definition shell (rt : Runtime) (cmd : jsstring) : Job jsstring :=
  fun past => (shell_text rt past cmd, past ++ [Shell cmd]).

(** [o.id]: a TypeError on undefined and null, the own property of an
    object, undefined on everything else. *)
Definition Get_id (o : value) : outcome value :=
  match o with
  | VUndefined => Failed TypeError
  | VNull => Failed TypeError
  | VObj members =>
      Done (match List.find (fun kv => JSON.eqb_string (fst kv) (js "id")) members with
            | Some kv => snd kv
            | None => VUndefined
            end)
  | _ => Done VUndefined
  end.

(** A value in a template literal. *)
Definition template (rt : Runtime) (v : value) : outcome jsstring :=
  match ToString rt v with
  | Some text => Done text
  | None => Failed TypeError
  end.

(** Color codes for output *)
Definition colors_reset : jsstring := [27] ++ js "[0m".
Definition colors_red : jsstring := [27] ++ js "[31m".
Definition colors_green : jsstring := [27] ++ js "[32m".
Definition colors_yellow : jsstring := [27] ++ js "[33m".
Definition colors_blue : jsstring := [27] ++ js "[34m".
Definition colors_magenta : jsstring := [27] ++ js "[35m".
Definition colors_cyan : jsstring := [27] ++ js "[36m".

Definition log (message color : jsstring) : Job unit :=
  fun past => (Done tt, past ++ [Log (color ++ message ++ colors_reset)]).

Definition section (title : jsstring) : Job unit :=
  _ <- log ([LF] ++ repeat 61 60) colors_cyan ;;
  _ <- log title colors_cyan ;;
  log (repeat 61 60) colors_cyan.

(** Execute a bd command and return parsed JSON result *)
Definition bd (rt : Runtime) (args : jsstring) : Job value :=
  let cmd := js "bd " ++ args in
  _ <- log (js "  $ " ++ cmd) colors_yellow ;;
  result <- shell rt cmd ;;
  if negb (JSString.indexOf args (js "--json") =? -1)%Z then
    match JSON.parse result with
    | Normal v => job_ret v
    | Throw _ =>
        _ <- log (js "  Warning: Could not parse JSON from: " ++ result) colors_red ;;
        job_ret (VObj [(js "id", VNull)])
    end
  else job_ret (VStr result).

(** Close obsolete tasks from the forking approach *)
Record ObsoleteTask : Type :=
  { obsolete_id : jsstring; obsolete_title : jsstring; obsolete_reason : jsstring }.

Definition obsoleteTasks : list ObsoleteTask :=
  [
    {| obsolete_id := js "bts-te7";
       obsolete_title := js "Fork mcp-bun repository";
       obsolete_reason := js "No longer needed - building in-process tool instead of forking e"
                          ++ js "xternal MCP server" |};
    {| obsolete_id := js "bts-qv1";
       obsolete_title := js "Add temp workspace and auto-cleanup to execute tools";
       obsolete_reason := js "No longer needed - was for modifying forked mcp-bun, now buildin"
                          ++ js "g from scratch" |}
  ].

Definition closeObsoleteTasks (rt : Runtime) : Job unit :=
  _ <- section (js "STEP 1: Close Obsolete Tasks") ;;
  for_of obsoleteTasks (fun task =>
    _ <- log ([LF] ++ js "Closing " ++ obsolete_id task ++ js ": "
              ++ obsolete_title task) colors_magenta ;;
    _ <- bd rt (js "close " ++ obsolete_id task ++ js " --reason " ++ [DQUOTE]
                ++ obsolete_reason task ++ [DQUOTE]) ;;
    log (js "  " ++ [10003] ++ js " Closed") colors_green).

(** Link root task to epic *)
Definition linkRootToEpic (rt : Runtime) (rootId epicId : jsstring) : Job unit :=
  _ <- section (js "STEP 2: Link Root Task to Epic") ;;
  _ <- log ([LF] ++ js "Linking " ++ rootId ++ js " (root) " ++ [8594] ++ js " " ++ epicId
            ++ js " (epic)") colors_magenta ;;
  _ <- bd rt (js "dep add " ++ rootId ++ js " " ++ epicId ++ js " -t parent-child") ;;
  log (js "  " ++ [10003] ++ js " Linked") colors_green.

(** Create subtasks for the in-process approach *)
Record Subtask : Type :=
  { subtask_title : jsstring;
    subtask_description : jsstring;
    subtask_priority : Z;
    subtask_type : jsstring }.

Definition subtasks : list Subtask :=
  [
    {| subtask_title := js "Set up MCP plugin project structure";
       subtask_description := js "Create TypeScript project with MCP SDK dependencies, build confi"
                              ++ js "guration, and package.json setup for Claude Code plugin";
       subtask_priority := 1%Z;
       subtask_type := js "task" |};
    {| subtask_title := js "Implement MCP server with stdio transport";
       subtask_description := js "Build core MCP server infrastructure with stdio communication, t"
                              ++ js "ool registration, and request/response handling";
       subtask_priority := 1%Z;
       subtask_type := js "task" |};
    {| subtask_title := js "Implement execute_typescript tool handler";
       subtask_description := js "Create tool handler that accepts TypeScript code, creates temp w"
                              ++ js "orkspace, writes files, and executes with Bun";
       subtask_priority := 1%Z;
       subtask_type := js "task" |};
    {| subtask_title := js "Add temp workspace lifecycle management";
       subtask_description := js "Implement temp directory creation with unique IDs, execution iso"
                              ++ js "lation, and guaranteed cleanup on success/failure/timeout";
       subtask_priority := 1%Z;
       subtask_type := js "task" |};
    {| subtask_title := js "Add timeout and resource limits";
       subtask_description := js "Implement configurable execution timeouts (default 30s), process"
                              ++ js " killing, and resource constraints";
       subtask_priority := 2%Z;
       subtask_type := js "task" |};
    {| subtask_title := js "Add comprehensive error handling";
       subtask_description := js "Handle TypeScript compilation errors, runtime errors, timeout er"
                              ++ js "rors, and filesystem errors with clear error messages";
       subtask_priority := 2%Z;
       subtask_type := js "task" |}
  ].

(** The command that creates a subtask, and the command that links a
    created task to the root task. *)
Definition create_args (task : Subtask) : jsstring :=
  js "create " ++ [DQUOTE] ++ subtask_title task ++ [DQUOTE] ++ js " -t " ++ subtask_type task
    ++ js " -p " ++ JSON.Number_toString (subtask_priority task) ++ js " --description "
    ++ [DQUOTE] ++ subtask_description task ++ [DQUOTE] ++ js " --json".

Definition link_args (idText rootId : jsstring) : jsstring :=
  js "dep add " ++ idText ++ js " " ++ rootId ++ js " -t parent-child".

(** One round of the loop, from the identifiers created so far to those
    after it. *)
Definition create_subtask (rt : Runtime) (rootId : jsstring) (task : Subtask)
    (createdIds : list value) : Job (list value) :=
  _ <- log ([LF] ++ js "Creating: " ++ subtask_title task) colors_magenta ;;
  result <- bd rt (create_args task) ;;
  id <- job_of (Get_id result) ;;
  if ToBoolean rt id then
    let createdIds := createdIds ++ [id] in
    idText <- job_of (template rt id) ;;
    _ <- log (js "  " ++ [10003] ++ js " Created " ++ idText) colors_green ;;
    _ <- log (js "  Linking " ++ idText ++ js " " ++ [8594] ++ js " " ++ rootId
              ++ js " (parent-child)") colors_blue ;;
    _ <- bd rt (link_args idText rootId) ;;
    _ <- log (js "  " ++ [10003] ++ js " Linked") colors_green ;;
    job_ret createdIds
  else job_ret createdIds.

Fixpoint create_all (rt : Runtime) (rootId : jsstring) (tasks : list Subtask)
    (createdIds : list value) : Job (list value) :=
  match tasks with
  | [] => job_ret createdIds
  | task :: tasks' =>
      createdIds <- create_subtask rt rootId task createdIds ;;
      create_all rt rootId tasks' createdIds
  end.

Definition createSubtasks (rt : Runtime) (rootId : jsstring) : Job (list value) :=
  _ <- section (js "STEP 3: Create Subtasks for In-Process Implementation") ;;
  create_all rt rootId subtasks [].

(** Migrate existing configuration and test tasks *)
Record MigratedTask : Type :=
  { migrated_id : jsstring; migrated_title : jsstring; migrated_action : jsstring }.

Definition tasksToMigrate : list MigratedTask :=
  [
    {| migrated_id := js "bts-jz9";
       migrated_title := js "Configure Claude Code MCP integration";
       migrated_action := js "Link to new root" |};
    {| migrated_id := js "bts-kek";
       migrated_title := js "Test with jj command execution";
       migrated_action := js "Keep as test task" |};
    {| migrated_id := js "bts-80k";
       migrated_title := js "Test with beads command execution";
       migrated_action := js "Keep as test task" |}
  ].

(** [tasksToMigrate[0].id]: a TypeError when the list is empty. *)
Definition first_migrated_id : outcome jsstring :=
  match tasksToMigrate with
  | task :: _ => Done (migrated_id task)
  | [] => Failed TypeError
  end.

Definition migrateExistingTasks (rt : Runtime) (rootId : jsstring) : Job unit :=
  _ <- section (js "STEP 4: Migrate Existing Still-Relevant Tasks") ;;
  _ <- log ([LF] ++ js "Cleaning up old dependencies...") colors_magenta ;;
  id0 <- job_of first_migrated_id ;;
  _ <- log ([LF] ++ js "Linking " ++ id0 ++ js " " ++ [8594] ++ js " " ++ rootId
            ++ js " (parent-child)") colors_magenta ;;
  id0' <- job_of first_migrated_id ;;
  _ <- bd rt (js "dep add " ++ id0' ++ js " " ++ rootId ++ js " -t parent-child") ;;
  _ <- log (js "  " ++ [10003] ++ js " Linked") colors_green ;;
  log ([LF] ++ js "Test tasks (bts-kek, bts-80k) remain blocked by bts-jz9") colors_blue.

(** Show the updated tree structure *)
Definition showUpdatedTree (rt : Runtime) (epicId rootId : jsstring) : Job unit :=
  _ <- section (js "STEP 5: View Updated Discovery Tree") ;;
  _ <- log ([LF] ++ js "Epic Status:") colors_magenta ;;
  _ <- bd rt (js "epic status --no-daemon") ;;
  _ <- log ([LF; LF] ++ js "Tree from root task:") colors_magenta ;;
  _ <- bd rt (js "dep tree " ++ rootId) ;;
  _ <- log ([LF; LF] ++ js "Ready to work tasks:") colors_magenta ;;
  _ <- bd rt (js "ready") ;;
  job_ret tt.

(** IDs from existing tree *)
Definition EXISTING_EPIC_ID : jsstring := js "bts-5vg".
Definition EXISTING_ROOT_ID : jsstring := js "bts-m2w".

(** The guarded block of the main workflow. *)
Definition workflow (rt : Runtime) : Job unit :=
  _ <- closeObsoleteTasks rt ;;
  _ <- linkRootToEpic rt EXISTING_ROOT_ID EXISTING_EPIC_ID ;;
  _ <- createSubtasks rt EXISTING_ROOT_ID ;;
  _ <- migrateExistingTasks rt EXISTING_ROOT_ID ;;
  _ <- showUpdatedTree rt EXISTING_EPIC_ID EXISTING_ROOT_ID ;;
  _ <- section (js "RESTRUCTURING COMPLETE") ;;
  _ <- log ([LF; 10003]
            ++ js " Discovery tree successfully restructured for in-process approach") colors_green ;;
  _ <- log ([LF] ++ js "Next steps:") colors_cyan ;;
  _ <- log (js "  1. Run: bd ready") colors_blue ;;
  _ <- log (js "  2. Pick first task (likely: Set up MCP plugin project structure)") colors_blue ;;
  _ <- log (js "  3. Claim it: bd update <task-id> --status in_progress") colors_blue ;;
  log (js "  4. Start building!") colors_blue.

(** Main restructuring workflow *)
Definition main (rt : Runtime) : Job unit :=
  _ <- log (js "Discovery Tree Restructuring") colors_cyan ;;
  _ <- log (repeat 61 60) colors_cyan ;;
  job_try_catch (workflow rt)
    (fun error =>
       _ <- log ([LF; 10007] ++ js " Error during restructuring: "
                 ++ describe_fault rt error) colors_red ;;
       job_of (Failed error)).

(** The shell commands among the effects, in order. *)
Definition commands (effects : list effect) : list jsstring :=
  omap (fun e => match e with Shell cmd => Some cmd | Log _ => None end) effects.

End Restructure.

(** ** Vocabulary of the script facts *)

(** The shell command of [bd(args)]. *)
Definition bd_command (args : jsstring) : jsstring := js "bd " ++ args.

(** The line in which [bd(args)] echoes its command. *)
Definition bd_echo (args : jsstring) : Restructure.effect :=
  Restructure.Log (Restructure.colors_yellow ++ (js "  $ " ++ bd_command args)
                   ++ Restructure.colors_reset).

(** The line in which [bd] warns of an output that is no JSON. *)
Definition bd_warning (result : jsstring) : Restructure.effect :=
  Restructure.Log (Restructure.colors_red
                   ++ (js "  Warning: Could not parse JSON from: " ++ result)
                   ++ Restructure.colors_reset).

(** A job that goes on only while its shell commands succeed: what it
    adds to the effects is added at the end, and where a shell command of
    it fails, the job ends with that error and runs no further command. *)
Definition stops_at_failure (rt : Restructure.Runtime) {A} (m : Restructure.Job A) : Prop :=
  forall past,
    exists added,
      snd (m past) = past ++ added
      /\ forall pre cmd post e,
           added = pre ++ Restructure.Shell cmd :: post ->
           Restructure.shell_text rt (past ++ pre) cmd = Restructure.Failed e ->
           fst (m past) = Restructure.Failed e /\ Restructure.commands post = [].

(** A job that is rejected only for a reason: with a TypeError, or with
    the error of its last shell command. *)
Definition fails_for_a_reason (rt : Restructure.Runtime) {A} (m : Restructure.Job A) : Prop :=
  forall past e,
    fst (m past) = Restructure.Failed e ->
    e = Restructure.TypeError
    \/ exists pre cmd post,
         snd (m past) = past ++ pre ++ Restructure.Shell cmd :: post
         /\ Restructure.shell_text rt (past ++ pre) cmd = Restructure.Failed e
         /\ Restructure.commands post = [].

(** The commands of one round of the creation loop: the creation, and
    the link when an identifier came back. *)
Definition round_commands (rootId : jsstring) (task : Restructure.Subtask)
    (linked : option jsstring) : list jsstring :=
  bd_command (Restructure.create_args task)
  :: match linked with
     | Some idText => [bd_command (Restructure.link_args idText rootId)]
     | None => []
     end.

(** The line that announces the creation of a subtask. *)
Definition creating_line (task : Restructure.Subtask) : Restructure.effect :=
  Restructure.Log (Restructure.colors_magenta
                   ++ ([LF] ++ js "Creating: " ++ Restructure.subtask_title task)
                   ++ Restructure.colors_reset).

(** The commands of the main workflow before and after the creation of
    the subtasks. *)
Definition commands_before_creation : list jsstring :=
  map (fun task =>
         bd_command (js "close " ++ Restructure.obsolete_id task ++ js " --reason "
                     ++ [DQUOTE] ++ Restructure.obsolete_reason task ++ [DQUOTE]))
      Restructure.obsoleteTasks
  ++ [bd_command (js "dep add bts-m2w bts-5vg -t parent-child")].

Definition commands_after_creation : list jsstring :=
  [bd_command (js "dep add bts-jz9 bts-m2w -t parent-child");
   bd_command (js "epic status --no-daemon");
   bd_command (js "dep tree bts-m2w");
   bd_command (js "ready")].

(** The line in which the main workflow reports the error it rethrows. *)
Definition error_report (rt : Restructure.Runtime) (error : Restructure.fault)
    : Restructure.effect :=
  Restructure.Log (Restructure.colors_red
                   ++ ([LF; 10007] ++ js " Error during restructuring: "
                       ++ Restructure.describe_fault rt error)
                   ++ Restructure.colors_reset).

(** The conversions of the sample runtime.  They are those of the
    language on the values the sample answers contain: undefined, null,
    booleans, integral numbers, strings, arrays and objects as a
    condition, strings as a text.  The samples convert no other value. *)
Definition sample_ToBoolean (v : value) : bool :=
  match v with
  | VUndefined => false
  | VNull => false
  | VBool b => b
  | VNum z => negb (z =? 0)%Z
  | VStr s => negb (bool_decide (s = []))
  | _ => true
  end.

Definition sample_ToString (v : value) : option jsstring :=
  match v with
  | VStr s => Some s
  | _ => None
  end.

Definition sample_describe_fault (e : Restructure.fault) : jsstring :=
  match e with
  | Restructure.ShellError info => js "ShellError: " ++ info
  | Restructure.TypeError => js "TypeError"
  end.

Definition sample_runtime
    (answer : list Restructure.effect -> jsstring -> Restructure.outcome jsstring)
    : Restructure.Runtime :=
  {| Restructure.shell_text := answer;
     Restructure.ToBoolean := sample_ToBoolean;
     Restructure.ToString := sample_ToString;
     Restructure.describe_fault := sample_describe_fault |}.

(** A tracker that answers every creation with an object that carries
    an identifier, and every other command with a line of text. *)
Definition tracker_answer (past : list Restructure.effect) (cmd : jsstring)
    : Restructure.outcome jsstring :=
  if JSString.startsWith (js "bd create ") cmd
  then Restructure.Done (js "{" ++ [DQUOTE] ++ js "id" ++ [DQUOTE] ++ js ":" ++ [DQUOTE]
                         ++ js "bts-new" ++ [DQUOTE] ++ js "}" ++ [LF])
  else Restructure.Done (js "ok" ++ [LF]).

(** A tracker that answers every command with a line that is no JSON. *)
Definition plain_answer (past : list Restructure.effect) (cmd : jsstring)
    : Restructure.outcome jsstring :=
  Restructure.Done (js "Created issue bts-new" ++ [LF]).

(** A shell whose second command fails. *)
Definition failing_answer (past : list Restructure.effect) (cmd : jsstring)
    : Restructure.outcome jsstring :=
  if (length (Restructure.commands past) =? 1)%nat
  then Restructure.Failed (Restructure.ShellError (js "Failed with exit code 1"))
  else Restructure.Done (js "ok" ++ [LF]).

(** * Properties *)

(** ** Strings *)

Section StringFacts.

Import JSString.

Lemma startsWith_app (p t : jsstring) : startsWith p (p ++ t) = true.
Proof.
  induction p as [|a p IH]; simpl; [reflexivity|].
  rewrite N.eqb_refl. exact IH.
Qed.

Lemma startsWith_inv (p s : jsstring) :
  startsWith p s = true -> exists t, s = p ++ t.
Proof.
  revert s. induction p as [|a p IH]; intros s H.
  - exists s. reflexivity.
  - destruct s as [|b s]; simpl in H; [discriminate|].
    apply andb_true_iff in H as [Hab Hs].
    apply N.eqb_eq in Hab. subst b.
    destruct (IH _ Hs) as [t ->]. exists t. reflexivity.
Qed.

Lemma startsWith_false (p s : jsstring) :
  startsWith p s = false -> forall t, s <> p ++ t.
Proof.
  intros H t ->. rewrite startsWith_app in H. discriminate.
Qed.

Lemma indexOf_from_absent (needle hay : jsstring) (i : Z) :
  (0 <= i)%Z ->
  indexOf_from needle hay i = (-1)%Z <-> (forall pre, ~ occurs_at needle hay pre).
Proof.
  revert i. induction hay as [|c hay IH]; intros i Hi; simpl.
  - destruct needle as [|a needle]; simpl.
    + split; [lia|]. intros H. exfalso. apply (H []). exists []. reflexivity.
    + split; [|reflexivity]. intros _ pre [post H].
      destruct pre; discriminate.
  - destruct (startsWith needle (c :: hay)) eqn:E.
    + split; [lia|]. intros H. exfalso.
      apply startsWith_inv in E as [t Ht]. apply (H []). exists t. exact Ht.
    + rewrite IH by lia. split.
      * intros H pre [post Hp]. destruct pre as [|a pre].
        -- simpl in Hp. eapply startsWith_false; eauto.
        -- simpl in Hp. injection Hp as -> Hp. apply (H pre). exists post. exact Hp.
      * intros H pre [post Hp]. apply (H (c :: pre)). exists post.
        simpl. rewrite Hp. reflexivity.
Qed.

Lemma indexOf_from_present (needle hay : jsstring) (i : Z) :
  (0 <= i)%Z ->
  indexOf_from needle hay i <> (-1)%Z ->
  exists pre,
    occurs_at needle hay pre
    /\ indexOf_from needle hay i = (i + Z.of_nat (length pre))%Z
    /\ (forall pre', occurs_at needle hay pre' -> (length pre <= length pre')%nat).
Proof.
  revert i. induction hay as [|c hay IH]; intros i Hi; simpl.
  - destruct (startsWith needle []) eqn:E; [|congruence].
    intros _. apply startsWith_inv in E as [t Ht].
    exists []. split; [exists t; exact Ht|]. split; [simpl; lia|].
    intros; simpl; lia.
  - destruct (startsWith needle (c :: hay)) eqn:E.
    + intros _. apply startsWith_inv in E as [t Ht].
      exists []. split; [exists t; exact Ht|]. split; [simpl; lia|].
      intros; simpl; lia.
    + intros H. destruct (IH (i + 1)%Z ltac:(lia) H) as (pre & [post Hp] & Hidx & Hmin).
      exists (c :: pre). split; [exists post; simpl; rewrite Hp; reflexivity|].
      split; [rewrite Hidx; simpl length; lia|].
      intros pre' [post' Hp']. destruct pre' as [|a pre'].
      * exfalso. eapply startsWith_false; eauto.
      * simpl in Hp'. injection Hp' as -> Hp'. simpl.
        apply le_n_S. apply Hmin. exists post'. exact Hp'.
Qed.

Lemma indexOf_absent (hay needle : jsstring) :
  indexOf hay needle = (-1)%Z <-> absent needle hay.
Proof. unfold absent. apply indexOf_from_absent. lia. Qed.

Lemma indexOf_present (hay needle : jsstring) :
  indexOf hay needle <> (-1)%Z ->
  exists pre,
    occurs_at needle hay pre
    /\ indexOf hay needle = Z.of_nat (length pre)
    /\ (forall pre', occurs_at needle hay pre' -> (length pre <= length pre')%nat).
Proof.
  intros H. destruct (indexOf_from_present needle hay 0 ltac:(lia) H) as (pre & ? & ? & ?).
  exists pre. repeat split; auto.
Qed.

(** The first occurrence determines the index. *)
Lemma indexOf_first (hay needle pre : jsstring) :
  occurs_at needle hay pre ->
  (forall pre', occurs_at needle hay pre' -> (length pre <= length pre')%nat) ->
  indexOf hay needle = Z.of_nat (length pre).
Proof.
  intros Hocc Hmin.
  destruct (Z.eq_dec (indexOf hay needle) (-1)%Z) as [E|E].
  - exfalso. exact (proj1 (indexOf_absent _ _) E pre Hocc).
  - destruct (indexOf_present _ _ E) as (pre0 & Hocc0 & -> & Hmin0).
    f_equal. apply Nat.le_antisymm; auto.
Qed.

Lemma slice_from (pre post : jsstring) :
  slice (pre ++ post) (Z.of_nat (length pre)) None = post.
Proof.
  unfold slice, clamp. rewrite length_app.
  destruct (Z.ltb_spec (Z.of_nat (length pre)) 0); [lia|].
  rewrite Z.min_l by lia. rewrite Nat2Z.id.
  rewrite drop_app_length.
  apply take_ge. lia.
Qed.

Lemma slice_upto (pre post : jsstring) :
  slice (pre ++ post) 0 (Some (Z.of_nat (length pre))) = pre.
Proof.
  unfold slice, clamp. rewrite length_app. simpl.
  destruct (Z.ltb_spec (Z.of_nat (length pre)) 0); [lia|].
  rewrite Z.min_l by lia. rewrite Z.min_l by lia.
  rewrite Z.sub_0_r, Nat2Z.id. simpl.
  apply take_app_length.
Qed.

End StringFacts.

(** ** The result decoder *)

Section DecoderFacts.

Import JSString.

Lemma first_line_break (payload : jsstring) (after : jsstring) :
  LF ∉ payload -> first_occurrence [LF] (payload ++ LF :: after) payload.
Proof.
  intros Hnot. split; [exists after; reflexivity|].
  intros pre' [post Hp]. revert pre' Hp.
  induction payload as [|c payload IH]; intros pre' Hp; simpl; [lia|].
  destruct pre' as [|a pre'].
  - simpl in Hp. injection Hp as -> _. exfalso. apply Hnot. left.
  - simpl in Hp. injection Hp as -> Hp. simpl. apply le_n_S.
    apply IH; [|exact Hp]. intros Hin. apply Hnot. right. exact Hin.
Qed.

Lemma no_line_break (payload : jsstring) :
  LF ∉ payload -> absent [LF] payload.
Proof.
  intros Hnot pre [post Hp]. apply Hnot. rewrite Hp.
  apply elem_of_app. right. left.
Qed.

(** Every text splits at its first line break. *)
Lemma split_at_line_break (text : jsstring) :
  exists payload after, text = payload ++ line_rest after /\ (LF ∉ payload).
Proof.
  induction text as [|c text (payload & after & -> & Hnot)].
  - exists [], None. split; [reflexivity|]. apply not_elem_of_nil.
  - destruct (N.eq_dec c LF) as [->|Hc].
    + exists [], (Some (payload ++ line_rest after)).
      split; [reflexivity|]. apply not_elem_of_nil.
    + exists (c :: payload), after. split; [reflexivity|].
      intros Hin. apply elem_of_cons in Hin as [?|?]; auto.
Qed.

(** The decoder at the first occurrence of the token. *)
Lemma decode_at_first (before payload : jsstring) (after : option jsstring) :
  first_occurrence returnMarker (before ++ returnMarker ++ payload ++ line_rest after) before ->
  LF ∉ payload ->
  decode (before ++ returnMarker ++ payload ++ line_rest after)
  = Normal (value_or_undefined (JSON.parse payload), before ++ default [] after).
Proof.
  intros [Hocc Hmin] Hnot. unfold decode.
  rewrite (indexOf_first _ _ before Hocc Hmin).
  destruct (Z.eqb_spec (Z.of_nat (length before)) (-1)); [lia|].
  rewrite <- Nat2Z.inj_add, <- length_app.
  rewrite (app_assoc before returnMarker), slice_from.
  rewrite <- (app_assoc before returnMarker), slice_upto.
  destruct after as [a|]; simpl line_rest.
  - destruct (first_line_break payload a Hnot) as [Ho Hm].
    rewrite (indexOf_first _ _ payload Ho Hm).
    destruct (Z.eqb_spec (Z.of_nat (length payload)) (-1)); [lia|].
    rewrite slice_upto.
    replace (Z.of_nat (length payload) + 1)%Z
      with (Z.of_nat (length (payload ++ [LF]))) by (rewrite length_app; simpl; lia).
    replace (payload ++ LF :: a) with ((payload ++ [LF]) ++ a)
      by (rewrite <- app_assoc; reflexivity).
    rewrite slice_from.
    destruct (JSON.parse payload); reflexivity.
  - rewrite app_nil_r.
    rewrite (proj2 (indexOf_absent payload [LF]) (no_line_break payload Hnot)).
    simpl. rewrite app_nil_r.
    destruct (JSON.parse payload); reflexivity.
Qed.

Lemma decode_absent (rawStdout : jsstring) :
  absent returnMarker rawStdout -> decode rawStdout = Normal (VUndefined, rawStdout).
Proof.
  intros H. unfold decode.
  rewrite (proj2 (indexOf_absent rawStdout returnMarker) H). reflexivity.
Qed.

(** Where the token occurs, it has a first occurrence, followed by a
    payload that runs to the next line break or to the end. *)
Lemma first_sentinel_exists (rawStdout : jsstring) :
  ~ absent returnMarker rawStdout ->
  exists before payload after,
    rawStdout = before ++ returnMarker ++ payload ++ line_rest after
    /\ first_occurrence returnMarker rawStdout before
    /\ (LF ∉ payload).
Proof.
  intros H.
  assert (indexOf rawStdout returnMarker <> (-1)%Z) as Hidx.
  { intros E. apply H. exact (proj1 (indexOf_absent _ _) E). }
  destruct (indexOf_present _ _ Hidx) as (before & [post Hp] & _ & Hmin).
  destruct (split_at_line_break post) as (payload & after & -> & Hnot).
  exists before, payload, after. split; [exact Hp|]. split; [|exact Hnot].
  split; [|exact Hmin]. eexists. exact Hp.
Qed.

Lemma absent_dec (needle hay : jsstring) : absent needle hay \/ ~ absent needle hay.
Proof.
  destruct (Z.eq_dec (indexOf hay needle) (-1)%Z) as [E|E].
  - left. exact (proj1 (indexOf_absent _ _) E).
  - right. intros H. apply E. exact (proj2 (indexOf_absent _ _) H).
Qed.

End DecoderFacts.

(** Every raw standard output decodes to a normal result. *)
Lemma decode_total (rawStdout : jsstring) :
  exists returnValue stdoutClean, decode rawStdout = Normal (returnValue, stdoutClean).
Proof.
  destruct (absent_dec returnMarker rawStdout) as [H|H].
  - eexists _, _. apply decode_absent. exact H.
  - destruct (first_sentinel_exists rawStdout H)
      as (before & payload & after & E & Hfirst & Hnot).
    eexists _, _. rewrite E in Hfirst |- *. apply decode_at_first; assumption.
Qed.

(** C5. The decoder honors the first occurrence of the sentinel token
    only.  When the token occurs in the raw standard output, the text is
    [before], the token, a payload without line break, and then either
    nothing or a line break and [after]; no occurrence of the token starts
    earlier than [before]; the value is decoded from that payload; and the
    cleaned standard output is [before] followed by [after]: the token and
    its payload line are cut out, all text before the token and all text
    after the line break of the payload is kept. *)
Theorem decode_first_sentinel_excised (rawStdout : jsstring) :
  ~ absent returnMarker rawStdout ->
  exists before payload after,
    rawStdout = before ++ returnMarker ++ payload ++ line_rest after
    /\ first_occurrence returnMarker rawStdout before
    /\ (LF ∉ payload)
    /\ decode rawStdout
       = Normal (value_or_undefined (JSON.parse payload), before ++ default [] after).
Proof.
  intros H.
  destruct (first_sentinel_exists rawStdout H) as (before & payload & after & E & Hfirst & Hnot).
  exists before, payload, after. repeat split; try assumption; try apply Hfirst.
  rewrite E in Hfirst |- *. apply decode_at_first; assumption.
Qed.

(** ** Regular expressions: the test agrees with the language *)

Section RegExpFacts.

Import RegExp.

Lemma nullable_spec (r : regex) : nullable r = true <-> matches r [].
Proof.
  induction r as [| |p|r1 IH1 r2 IH2|r1 IH1 r2 IH2|r IH]; simpl.
  - split; [discriminate|]. intros H; inversion H.
  - split; [intros _; constructor|reflexivity].
  - split; [discriminate|]. intros H; inversion H.
  - rewrite andb_true_iff, IH1, IH2. split.
    + intros [H1 H2]. exact (m_cat _ _ [] [] H1 H2).
    + intros H. inversion H as [| |? ? s1 s2 H1 H2| | | |]; subst.
      match goal with E : _ ++ _ = [] |- _ => apply app_eq_nil in E as [-> ->] end.
      split; assumption.
  - rewrite orb_true_iff, IH1, IH2. split.
    + intros [H|H]; [apply m_alt_l|apply m_alt_r]; exact H.
    + intros H. inversion H; subst; [left|right]; assumption.
  - split; [intros _; constructor|reflexivity].
Qed.

Lemma star_cons_inv (r : regex) (c : N) (s : jsstring) :
  matches (Star r) (c :: s) ->
  exists s1 s2, s = s1 ++ s2 /\ matches r (c :: s1) /\ matches (Star r) s2.
Proof.
  intros H. remember (Star r) as r' eqn:Er. remember (c :: s) as s' eqn:Es.
  revert s Es.
  induction H as [| | | | | |r0 s1 s2 H1 _ H2 IH2]; intros s0 Es; try discriminate.
  injection Er as ->.
  destruct s1 as [|a s1].
  - simpl in Es. apply IH2; [reflexivity|exact Es].
  - simpl in Es. injection Es as -> <-. exists s1, s2. auto.
Qed.

Lemma deriv_spec (c : N) (r : regex) (s : jsstring) :
  matches (deriv c r) s <-> matches r (c :: s).
Proof.
  revert s.
  induction r as [| |p|r1 IH1 r2 IH2|r1 IH1 r2 IH2|r IH]; intros s; simpl.
  - split; intros H; inversion H.
  - split; intros H; inversion H.
  - destruct (p c) eqn:E; split; intros H; inversion H; subst.
    + constructor. exact E.
    + constructor.
    + congruence.
  - assert (forall s, matches (Cat (deriv c r1) r2) s ->
                      matches (Cat r1 r2) (c :: s)) as Hleft.
    { intros s0 H. inversion H as [| |? ? s1 s2 H1 H2| | | |]; subst.
      apply IH1 in H1. exact (m_cat _ _ (c :: s1) s2 H1 H2). }
    assert (forall s, matches (Cat r1 r2) (c :: s) ->
                      matches (Cat (deriv c r1) r2) s
                      \/ (matches r1 [] /\ matches r2 (c :: s))) as Hinv.
    { intros s0 H. inversion H as [| |? ? s1 s2 H1 H2| | | |]; subst.
      match goal with E : _ ++ _ = _ :: _ |- _ => rename E into Eapp end.
      destruct s1 as [|a s1]; simpl in Eapp.
      - subst s2. right. auto.
      - injection Eapp as -> <-. left. apply m_cat; [apply IH1|]; assumption. }
    destruct (nullable r1) eqn:En.
    + split.
      * intros H. inversion H; subst; [apply Hleft; assumption|].
        apply (m_cat _ _ [] (c :: s)); [apply nullable_spec; exact En|].
        apply IH2. assumption.
      * intros H. destruct (Hinv _ H) as [H'|[_ H']];
          [apply m_alt_l; exact H'|apply m_alt_r; apply IH2; exact H'].
    + split; [apply Hleft|].
      intros H. destruct (Hinv _ H) as [H'|[H' _]]; [exact H'|].
      apply nullable_spec in H'. congruence.
  - split; intros H; inversion H; subst.
    + apply m_alt_l, IH1. assumption.
    + apply m_alt_r, IH2. assumption.
    + apply m_alt_l, IH1. assumption.
    + apply m_alt_r, IH2. assumption.
  - split.
    + intros H. inversion H as [| |? ? s1 s2 H1 H2| | | |]; subst.
      apply IH in H1. exact (m_star_cons _ (c :: s1) s2 H1 H2).
    + intros H. apply star_cons_inv in H as (s1 & s2 & -> & H1 & H2).
      apply m_cat; [apply IH|]; assumption.
Qed.

(** The test succeeds exactly when a prefix of the text is in the
    language of the expression. *)
Lemma test_spec (r : regex) (s : jsstring) :
  test r s = true <-> exists p q, s = p ++ q /\ matches r p.
Proof.
  revert r. induction s as [|c s IH]; intros r; simpl.
  - rewrite orb_false_r, nullable_spec. split.
    + intros H. exists [], []. auto.
    + intros (p & q & E & H). symmetry in E. apply app_eq_nil in E as [-> _]. exact H.
  - rewrite orb_true_iff, nullable_spec, IH. split.
    + intros [H|(p & q & -> & H)].
      * exists [], (c :: s). auto.
      * exists (c :: p), q. split; [reflexivity|]. apply deriv_spec. exact H.
    + intros (p & q & E & H). destruct p as [|a p].
      * left. exact H.
      * simpl in E. injection E as <- ->. right. exists p, q.
        split; [reflexivity|]. apply deriv_spec. exact H.
Qed.

Lemma matches_Lit (w s : jsstring) : matches (Lit w) s <-> s = w.
Proof.
  revert s. induction w as [|a w IH]; intros s; simpl.
  - split; [intros H; inversion H; reflexivity|intros ->; constructor].
  - split.
    + intros H. inversion H as [| |? ? s1 s2 H1 H2| | | |]; subst.
      inversion H1; subst. apply IH in H2. subst.
      match goal with E : (a =? _) = true |- _ => apply N.eqb_eq in E; subst end.
      reflexivity.
    + intros ->. apply (m_cat _ _ [a] w); [|apply IH; reflexivity].
      constructor. apply N.eqb_refl.
Qed.

Lemma matches_Star_Class (p : N -> bool) (s : jsstring) :
  matches (Star (Class p)) s <-> Forall (fun x => p x = true) s.
Proof.
  split.
  - intros H. remember (Star (Class p)) as r eqn:Er.
    induction H as [| | | | | |r0 s1 s2 H1 _ H2 IH2]; try discriminate.
    + constructor.
    + injection Er as ->. inversion H1; subst. simpl.
      constructor; [assumption|]. apply IH2. reflexivity.
  - induction 1 as [|x s Hx _ IH]; [constructor|].
    apply (m_star_cons _ [x] s); [constructor; exact Hx|exact IH].
Qed.

(** The import test of the splitter reads as the rule of the
    specification. *)
Lemma test_import_re (line : jsstring) :
  test import_re line = true <-> import_line line.
Proof.
  rewrite test_spec. unfold import_re, import_line, Plus.
  generalize (js "import"). intros kw. split.
  - intros (p & q & -> & H).
    inversion H as [| |? ? lead s2 Hlead H2| | | |]; subst.
    inversion H2 as [| |? ? s3 s4 H3 H4| | | |]; subst.
    inversion H4 as [| |? ? s5 s6 H5 H6| | | |]; subst.
    apply matches_Lit in H3. subst s3.
    inversion H5; subst.
    exists lead, c, (s6 ++ q). split.
    + rewrite <- !app_assoc. reflexivity.
    + split; [apply matches_Star_Class; exact Hlead|assumption].
  - intros (lead & c & rest & -> & Hlead & Hc).
    exists (lead ++ kw ++ [c] ++ []), rest. split.
    + rewrite <- !app_assoc. reflexivity.
    + apply m_cat; [apply matches_Star_Class; exact Hlead|].
      apply m_cat; [apply matches_Lit; reflexivity|].
      apply m_cat; [constructor; exact Hc|constructor].
Qed.

End RegExpFacts.

(** ** The source splitter *)

Section SplitterFacts.

Import JSString.

Lemma split_nonempty (sep : N) (s : jsstring) : split sep s <> [].
Proof.
  destruct s as [|c s]; simpl; [discriminate|].
  destruct (c =? sep); [discriminate|].
  destruct (split sep s); discriminate.
Qed.

(** Joining the lines gives the text back: the lines are the lines of
    the text, none lost, none changed. *)
Lemma join_split (sep : N) (s : jsstring) : join [sep] (split sep s) = s.
Proof.
  induction s as [|c s IH]; simpl; [reflexivity|].
  destruct (N.eqb_spec c sep) as [->|Hc].
  - pose proof (split_nonempty sep s) as Hne.
    simpl. destruct (split sep s) as [|l ls]; [congruence|].
    rewrite IH. reflexivity.
  - pose proof (split_nonempty sep s) as Hne.
    destruct (split sep s) as [|l ls]; [congruence|].
    rewrite <- IH. destruct ls; reflexivity.
Qed.

Lemma split_no_sep (sep : N) (s : jsstring) :
  Forall (fun line => sep ∉ line) (split sep s).
Proof.
  induction s as [|c s IH]; simpl.
  - constructor; [apply not_elem_of_nil|constructor].
  - destruct (N.eqb_spec c sep) as [->|Hc].
    + constructor; [apply not_elem_of_nil|exact IH].
    + destruct (split sep s) as [|l ls]; [constructor; [|constructor]|].
      * intros Hin. apply list_elem_of_singleton in Hin. congruence.
      * inversion IH; subst. constructor; [|assumption].
        intros Hin. apply elem_of_cons in Hin as [?|?]; [congruence|contradiction].
Qed.

Lemma fold_split_step (homeDir : jsstring) (lines : list jsstring) (acc : ParsedSource) :
  fold_left (split_step homeDir) lines acc
  = {| imports := imports acc
                  ++ map (expandedLine homeDir) (List.filter (RegExp.test import_re) lines);
       codeLines := codeLines acc
                    ++ List.filter (fun l => negb (RegExp.test import_re l)) lines |}.
Proof.
  revert acc. induction lines as [|line lines IH]; intros acc; simpl.
  - rewrite !app_nil_r. destruct acc; reflexivity.
  - rewrite IH. unfold split_step.
    destruct (RegExp.test import_re line); simpl; rewrite <- ?app_assoc; reflexivity.
Qed.

Lemma filter_partition_length {A} (f : A -> bool) (l : list A) :
  (length (List.filter f l) + length (List.filter (fun x => negb (f x)) l) = length l)%nat.
Proof.
  induction l as [|x l IH]; simpl; [reflexivity|].
  destruct (f x); simpl; lia.
Qed.

End SplitterFacts.

(** C4. The splitter is a total function of the input text.  The lines
    are those of the text: joined by line breaks they give it back, and
    none holds a line break.  A line goes to the imports exactly when the
    import test accepts it, and the test accepts exactly the lines that,
    leading white space ignored, begin with the import keyword followed by
    white space.  The body is the sequence of the other lines, unchanged
    and in their order; the imports are the accepted lines, in their
    order, each alias-expanded; and the two groups together count every
    line once. *)
Theorem split_source_partition (homeDir code : jsstring) :
  let lines := JSString.split LF code in
  let parsed := split_source homeDir code in
  JSString.join [LF] lines = code
  /\ Forall (fun line => LF ∉ line) lines
  /\ (forall line, RegExp.test import_re line = true <-> import_line line)
  /\ imports parsed
     = map (expandedLine homeDir) (List.filter (RegExp.test import_re) lines)
  /\ codeLines parsed
     = List.filter (fun line => negb (RegExp.test import_re line)) lines
  /\ (length (imports parsed) + length (codeLines parsed) = length lines)%nat.
Proof.
  intros lines parsed.
  assert (parsed = {| imports := map (expandedLine homeDir)
                                   (List.filter (RegExp.test import_re) lines);
                      codeLines := List.filter
                                     (fun l => negb (RegExp.test import_re l)) lines |}) as E.
  { unfold parsed, split_source. rewrite fold_split_step. reflexivity. }
  split; [apply join_split|].
  split; [apply split_no_sep|].
  split; [apply test_import_re|].
  rewrite E. simpl. repeat split.
  rewrite length_map. apply filter_partition_length.
Qed.

(** C6. The decoder never fails.  Every raw standard output decodes to
    a normal result; without the sentinel token the value is undefined and
    the text is returned as it is; and with a token whose payload JSON.parse
    rejects, the value is undefined and the result is still normal. *)
Theorem decode_never_fails (rawStdout : jsstring) :
  (exists returnValue stdoutClean, decode rawStdout = Normal (returnValue, stdoutClean))
  /\ (absent returnMarker rawStdout -> decode rawStdout = Normal (VUndefined, rawStdout))
  /\ (forall before payload after e,
        rawStdout = before ++ returnMarker ++ payload ++ line_rest after ->
        first_occurrence returnMarker rawStdout before ->
        LF ∉ payload ->
        JSON.parse payload = Throw e ->
        decode rawStdout = Normal (VUndefined, before ++ default [] after)).
Proof.
  split; [apply decode_total|]. split; [apply decode_absent|].
  intros before payload after e -> Hfirst Hnot Hparse.
  rewrite decode_at_first by assumption.
  rewrite Hparse. reflexivity.
Qed.

(** ** The harness *)





(** ** The executor *)

Section ExecutorFacts.

Context (h : Host).

Abbreviation tmp_prefix := (tmp_prefix h).
Abbreviation child_env := (child_env h).

Lemma cleanup_unfold (tmpDir : jsstring) (w : world) :
  cleanup h tmpDir w
  = (Normal tt,
     {| dirs := match rm_answer h tmpDir with
                | Normal _ => dirs w ∖ {[tmpDir]}
                | Throw _ => dirs w
                end;
        trace := trace w ++ [CallRm tmpDir true true] |}).
Proof.
  unfold cleanup, try_catch_async, fs_rm, async_bind, call, async_ret. simpl.
  destruct (rm_answer h tmpDir); reflexivity.
Qed.

Lemma execute_unfold (code workingDir : jsstring) (w : world) :
  DefaultTypeScriptExecutor_execute h code workingDir w
  = match mkdtemp_answer h tmp_prefix with
    | Throw e => (Throw e, {| dirs := dirs w; trace := trace w ++ [CallMkdtemp tmp_prefix] |})
    | Normal tmpDir =>
        let w1 := {| dirs := {[tmpDir]} ∪ dirs w;
                     trace := trace w ++ [CallMkdtemp tmp_prefix] |} in
        let (r, w2) := execute_body h code workingDir (path_join h tmpDir (js "code.ts")) w1 in
        (r, {| dirs := match rm_answer h tmpDir with
                       | Normal _ => dirs w2 ∖ {[tmpDir]}
                       | Throw _ => dirs w2
                       end;
               trace := trace w2 ++ [CallRm tmpDir true true] |})
    end.
Proof.
  unfold DefaultTypeScriptExecutor_execute, async_bind at 1.
  unfold fs_mkdtemp, async_bind at 1. unfold call. cbn [dirs trace].
  fold tmp_prefix.
  destruct (mkdtemp_answer h tmp_prefix) as [tmpDir|e]; [|reflexivity].
  unfold try_finally. cbn zeta.
  destruct (execute_body h code workingDir _ _) as [r w2].
  rewrite cleanup_unfold. reflexivity.
Qed.

Local Ltac norm_trace := cbn [dirs trace]; repeat rewrite <- app_assoc; reflexivity.

Lemma execute_body_unfold (code workingDir tmpFile : jsstring) (w : world) :
  execute_body h code workingDir tmpFile w
  = let argv := [js "bun"; js "run"; tmpFile] in
    let c1 := [CallWriteFile tmpFile (program_of h code)] in
    let c2 := c1 ++ [CallSpawn argv workingDir child_env] in
    let c3 := c2 ++ [CallReadStreams] in
    let c4 := c3 ++ [CallExited] in
    match writeFile_answer h tmpFile (program_of h code) with
    | Throw e => (Throw e, called w c1)
    | Normal _ =>
        match spawn_answer h argv workingDir child_env with
        | Throw e => (Throw e, called w c2)
        | Normal proc =>
            match proc_stdout proc with
            | Throw e => (Throw e, called w c3)
            | Normal out =>
                match proc_stderr proc with
                | Throw e => (Throw e, called w c3)
                | Normal err =>
                    match proc_exited proc with
                    | Throw e => (Throw e, called w c4)
                    | Normal _ =>
                        match decode out with
                        | Throw e => (Throw e, called w c4)
                        | Normal (returnValue, stdoutClean) =>
                            (Normal {| returnValue := returnValue;
                                       stdout := stdoutClean;
                                       stderr := err |}, called w c4)
                        end
                    end
                end
            end
        end
    end.
Proof.
  unfold execute_body, fs_writeFile, Bun_spawn, read_streams, async_bind, call, await,
    async_ret, called. cbn [dirs trace]. fold (program_of h code). fold child_env.
  destruct (writeFile_answer h tmpFile (program_of h code)); [|reflexivity].
  destruct (spawn_answer h _ workingDir child_env) as [proc|]; cbn zeta;
    [|norm_trace].
  destruct (proc_stdout proc); [|norm_trace].
  destruct (proc_stderr proc); [|norm_trace].
  destruct (proc_exited proc); [|norm_trace].
  destruct (decode _) as [[rv clean]|]; norm_trace.
Qed.

End ExecutorFacts.

Local Ltac elem_cases H :=
  cbn [app] in H;
  repeat (apply elem_of_cons in H; destruct H as [H|H]);
  [..|apply elem_of_nil in H; destruct H].

Lemma execute_body_calls (h : Host) (code workingDir tmpFile : jsstring) (w : world) :
  exists calls,
    snd (execute_body h code workingDir tmpFile w) = called w calls
    /\ (forall path r f, CallRm path r f ∉ calls)
    /\ (forall argv cwd env,
          CallSpawn argv cwd env ∈ calls ->
          argv = [js "bun"; js "run"; tmpFile] /\ cwd = workingDir /\ env = child_env h)
    /\ (forall u, writeFile_answer h tmpFile (program_of h code) = Normal u ->
          CallSpawn [js "bun"; js "run"; tmpFile] workingDir (child_env h) ∈ calls).
Proof.
  rewrite execute_body_unfold. cbn zeta.
  destruct (writeFile_answer h tmpFile (program_of h code));
    [destruct (spawn_answer h _ workingDir (child_env h)) as [proc|];
     [destruct (proc_stdout proc);
      [destruct (proc_stderr proc);
       [destruct (proc_exited proc);
        [destruct (decode _) as [[rv clean]|]|]|]|]|]|];
    (eexists; split; [reflexivity|]; split; [|split]).
  all: try (intros path r f Hin; elem_cases Hin; discriminate).
  all: try (intros argv cwd env Hin; elem_cases Hin; try discriminate;
            injection Hin as -> -> ->; auto).
  all: intros u Hu; try discriminate Hu; cbn [app];
    apply elem_of_cons; right; apply elem_of_cons; left; reflexivity.
Qed.

(** C7. When the workspace directory has been created, the outcome of
    the execution is the outcome of the guarded block, whatever the
    removal answers; the removal of the workspace, recursive and forced,
    is the last call of every execution and the only removal; the block
    under [finally] always completes normally; and when the removal
    succeeds the directory no longer exists.  The host is arbitrary, so
    this covers success, a decode failure, a failure to launch the
    process and a failure to read its output. *)
Theorem workspace_removed_on_every_exit
    (h : Host) (code workingDir tmpDir : jsstring) (w : world) :
  mkdtemp_answer h (tmp_prefix h) = Normal tmpDir ->
  let created := {| dirs := {[tmpDir]} ∪ dirs w;
                    trace := trace w ++ [CallMkdtemp (tmp_prefix h)] |} in
  let primary := execute_body h code workingDir (path_join h tmpDir (js "code.ts")) created in
  let final := DefaultTypeScriptExecutor_execute h code workingDir w in
  fst final = fst primary
  /\ (exists calls,
        trace (snd final) = trace created ++ calls ++ [CallRm tmpDir true true]
        /\ forall path r f, CallRm path r f ∉ calls)
  /\ (forall w0, fst (cleanup h tmpDir w0) = Normal tt)
  /\ (forall u, rm_answer h tmpDir = Normal u -> tmpDir ∉ dirs (snd final)).
Proof.
  intros Hmk created primary final.
  unfold final. rewrite execute_unfold, Hmk. cbn zeta. fold created. fold primary.
  destruct (execute_body_calls h code workingDir (path_join h tmpDir (js "code.ts")) created)
    as (calls & Hcalls & Hrm & _).
  fold primary in Hcalls.
  destruct primary as [r w2]. simpl in Hcalls. subst w2. simpl.
  split; [reflexivity|]. split; [|split].
  - exists calls. split; [|exact Hrm]. rewrite <- app_assoc. reflexivity.
  - intros w0. rewrite cleanup_unfold. reflexivity.
  - intros u Hu. rewrite Hu. intros Hin.
  apply elem_of_difference in Hin as [_ Hn]. apply Hn. apply elem_of_singleton. reflexivity.
Qed.

(** C9. The entry point passes the working directory of the host
    process to the executor.  Once the workspace exists and the program
    is written, the one child the engine spawns runs the program file of
    the workspace, with the working directory of the caller and with the
    environment of the host in which HOME is set: to its own value when
    it has a non-empty one, to the home directory the platform reports
    otherwise.  Every other variable is inherited unchanged. *)
Theorem child_runs_in_caller_dir_with_home
    (h : Host) (params : RunSkillCodeParams) (tmpDir : jsstring) (w : world) :
  mkdtemp_answer h (tmp_prefix h) = Normal tmpDir ->
  writeFile_answer h (path_join h tmpDir (js "code.ts")) (program_of h (code params))
    = Normal tt ->
  let final := snd (runSkillCode h params w) in
  let spawned := CallSpawn [js "bun"; js "run"; path_join h tmpDir (js "code.ts")]
                   (process_cwd h) (child_env h) in
  (exists calls,
     trace final = trace w ++ calls
     /\ spawned ∈ calls
     /\ forall argv cwd env, CallSpawn argv cwd env ∈ calls -> CallSpawn argv cwd env = spawned)
  /\ child_env h !! js "HOME" = Some (resolve_home h)
  /\ (forall k, k <> js "HOME" -> child_env h !! k = process_env h !! k)
  /\ (process_env h !! js "HOME" = None -> resolve_home h = os_homedir h)
  /\ (forall v, process_env h !! js "HOME" = Some v -> v <> [] -> resolve_home h = v).
Proof.
  intros Hmk Hwrite final spawned.
  split; [|split; [|split; [|split]]].
  - unfold final, runSkillCode, runSkillCodeImpl, defaultExecutor. cbn [execute].
    rewrite execute_unfold, Hmk. cbn zeta.
    match goal with |- context [execute_body h ?c ?d ?f ?w1] =>
      destruct (execute_body_calls h c d f w1) as (calls & Hcalls & _ & Hspawn & Hone);
      destruct (execute_body h c d f w1) as [r w2] end.
    simpl in Hcalls. subst w2. simpl.
    exists ([CallMkdtemp (tmp_prefix h)] ++ calls ++ [CallRm tmpDir true true]).
    split; [rewrite <- !app_assoc; reflexivity|]. split.
    + apply elem_of_app. right. apply elem_of_app. left. eapply Hone. exact Hwrite.
    + intros argv cwd env Hin.
      apply elem_of_app in Hin as [Hin|Hin];
        [apply list_elem_of_singleton in Hin; discriminate|].
      apply elem_of_app in Hin as [Hin|Hin];
        [|apply list_elem_of_singleton in Hin; discriminate].
      destruct (Hspawn _ _ _ Hin) as (-> & -> & ->). reflexivity.
  - unfold child_env. apply lookup_insert_eq.
  - intros k Hk. unfold child_env. apply lookup_insert_ne. congruence.
  - intros E. unfold resolve_home. rewrite E. reflexivity.
  - intros v E Hv. unfold resolve_home. rewrite E. destruct v; [congruence|reflexivity].
Qed.

(** ** JSON: the parser reads back what the serializer writes *)

Section JSONFacts.

Import JSON.

Lemma hex_value_digit (d : N) : d < 16 -> hex_value (hex_digit d) = Some d.
Proof.
  intros H.
  assert (d = 0 \/ d = 1 \/ d = 2 \/ d = 3 \/ d = 4 \/ d = 5 \/ d = 6 \/ d = 7 \/ d = 8
          \/ d = 9 \/ d = 10 \/ d = 11 \/ d = 12 \/ d = 13 \/ d = 14 \/ d = 15) as Hd by lia.
  repeat (destruct Hd as [->|Hd]; [reflexivity|]). subst. reflexivity.
Qed.

Lemma hex4_value (c : N) :
  c < 65536 ->
  ((c / 4096 mod 16 * 16 + c / 256 mod 16) * 16 + c / 16 mod 16) * 16 + c mod 16 = c.
Proof.
  intros H.
  assert (c / 256 = c / 16 / 16) as E1 by (rewrite N.Div0.div_div; reflexivity).
  assert (c / 4096 = c / 256 / 16) as E2 by (rewrite N.Div0.div_div; reflexivity).
  pose proof (N.div_mod c 16 ltac:(lia)) as H0.
  pose proof (N.div_mod (c / 16) 16 ltac:(lia)) as H1.
  pose proof (N.div_mod (c / 256) 16 ltac:(lia)) as H2.
  rewrite <- E1 in H1. rewrite <- E2 in H2.
  assert (c / 4096 < 16) by (apply N.Div0.div_lt_upper_bound; lia).
  rewrite (N.mod_small (c / 4096) 16) by assumption.
  lia.
Qed.

Lemma parse_UnicodeEscape (c : N) (s : jsstring) :
  c < 65536 ->
  parse_units (UnicodeEscape c ++ s)
  = match parse_units s with
    | Some (str, rest) => Some (c :: str, rest)
    | None => None
    end.
Proof.
  intros H. unfold UnicodeEscape. cbn [app parse_units].
  change (BACKSLASH =? DQUOTE) with false. change (BACKSLASH =? BACKSLASH) with true.
  change (117 =? 117) with true. cbn iota.
  rewrite !hex_value_digit by (apply N.mod_lt; lia).
  rewrite hex4_value by exact H. reflexivity.
Qed.

Lemma parse_quote_units (s rest : jsstring) :
  parse_units (quote_units s ++ DQUOTE :: rest) = Some (s, rest).
Proof.
  remember (length s) as n eqn:En.
  revert s En. induction n as [n IH] using lt_wf_ind. intros s En.
  destruct s as [|c t]; [reflexivity|].
  assert (parse_units (quote_units t ++ DQUOTE :: rest) = Some (t, rest)) as IHt.
  { apply (IH (length t)); [subst; simpl; lia|reflexivity]. }
  cbn [quote_units].
  repeat match goal with
         | |- context [if ?a =? ?b then _ else _] =>
             destruct (N.eqb_spec a b) as [->|?];
             [cbn [app parse_units]; rewrite IHt; reflexivity|]
         end.
  destruct (N.ltb_spec c 0x20).
  { rewrite <- app_assoc, parse_UnicodeEscape by lia. rewrite IHt. reflexivity. }
  assert (forall u, parse_units (quote_units u ++ DQUOTE :: rest) = Some (u, rest) ->
            parse_units ((c :: quote_units u) ++ DQUOTE :: rest) = Some (c :: u, rest)) as Hlit.
  { intros u Hu. cbn [app parse_units].
    destruct (N.eqb_spec c DQUOTE); [congruence|].
    destruct (N.eqb_spec c BACKSLASH); [congruence|].
    destruct (N.ltb_spec c 0x20); [lia|].
    rewrite Hu. reflexivity. }
  destruct (is_leading_surrogate c) eqn:Elead.
  - unfold is_leading_surrogate in Elead. apply andb_true_iff in Elead as [Hl1 Hl2].
    apply N.leb_le in Hl1, Hl2.
    destruct t as [|d t'].
    + rewrite parse_UnicodeEscape by lia. reflexivity.
    + destruct (is_trailing_surrogate d) eqn:Etrail.
      * unfold is_trailing_surrogate in Etrail. apply andb_true_iff in Etrail as [Ht1 Ht2].
        apply N.leb_le in Ht1, Ht2.
        assert (parse_units (quote_units t' ++ DQUOTE :: rest) = Some (t', rest)) as IHt'.
        { apply (IH (length t')); [subst; simpl; lia|reflexivity]. }
        cbn [app parse_units].
        destruct (N.eqb_spec c DQUOTE); [unfold DQUOTE in *; lia|].
        destruct (N.eqb_spec c BACKSLASH); [unfold BACKSLASH in *; lia|].
        destruct (N.ltb_spec c 0x20); [lia|].
        destruct (N.eqb_spec d DQUOTE); [unfold DQUOTE in *; lia|].
        destruct (N.eqb_spec d BACKSLASH); [unfold BACKSLASH in *; lia|].
        destruct (N.ltb_spec d 0x20); [lia|].
        rewrite IHt'. reflexivity.
      * rewrite <- app_assoc, parse_UnicodeEscape by lia. rewrite IHt. reflexivity.
  - destruct (is_trailing_surrogate c) eqn:Etrail.
    + unfold is_trailing_surrogate in Etrail. apply andb_true_iff in Etrail as [Ht1 Ht2].
        apply N.leb_le in Ht1, Ht2.
      rewrite <- app_assoc, parse_UnicodeEscape by lia. rewrite IHt. reflexivity.
    + apply Hlit. exact IHt.
Qed.

Lemma visible_UnicodeEscape (c : N) : visible (UnicodeEscape c).
Proof.
  assert (forall d, 0x20 <= hex_digit d) as Hd.
  { intros d. unfold hex_digit. destruct (d <? 10); lia. }
  unfold UnicodeEscape, visible, BACKSLASH. repeat constructor; try apply Hd; lia.
Qed.

Lemma visible_quote_units (s : jsstring) : visible (quote_units s).
Proof.
  remember (length s) as n eqn:En.
  revert s En. induction n as [n IH] using lt_wf_ind. intros s En.
  destruct s as [|c t]; [constructor|].
  assert (visible (quote_units t)) as IHt.
  { apply (IH (length t)); [subst; simpl; lia|reflexivity]. }
  cbn [quote_units]. unfold visible, DQUOTE, BACKSLASH in *.
  repeat match goal with
         | |- context [if ?a =? ?b then _ else _] =>
             destruct (N.eqb_spec a b) as [->|?];
             [constructor; [lia|constructor; [lia|exact IHt]]|]
         end.
  destruct (N.ltb_spec c 0x20).
  { apply Forall_app. split; [apply visible_UnicodeEscape|exact IHt]. }
  destruct (is_leading_surrogate c).
  - destruct t as [|d t']; [apply visible_UnicodeEscape|].
    destruct (is_trailing_surrogate d) eqn:Etrail.
    + unfold is_trailing_surrogate in Etrail. apply andb_true_iff in Etrail as [Ht1 Ht2].
      apply N.leb_le in Ht1, Ht2.
      constructor; [lia|]. constructor; [lia|].
      apply (IH (length t')); [subst; simpl; lia|reflexivity].
    + apply Forall_app. split; [apply visible_UnicodeEscape|exact IHt].
  - destruct (is_trailing_surrogate c).
    + apply Forall_app. split; [apply visible_UnicodeEscape|exact IHt].
    + constructor; [lia|exact IHt].
Qed.

Lemma digit_None (c : N) : is_digit c = false -> digit c = None.
Proof.
  unfold is_digit, digit. intros H.
  repeat match goal with
         | |- context [if ?a =? ?b then _ else _] =>
             destruct (N.eqb_spec a b) as [->|?]; [discriminate H|]
         end.
  reflexivity.
Qed.

Lemma read_digits_units (u : Decimal.uint) (rest : jsstring) :
  ends_number rest -> read_digits (uint_units u ++ rest) = (u, rest).
Proof.
  intros Hrest. induction u; cbn [uint_units app read_digits];
    try (change (digit _) with (Some Decimal.D0) || change (digit _) with (Some Decimal.D1)
         || change (digit _) with (Some Decimal.D2) || change (digit _) with (Some Decimal.D3)
         || change (digit _) with (Some Decimal.D4) || change (digit _) with (Some Decimal.D5)
         || change (digit _) with (Some Decimal.D6) || change (digit _) with (Some Decimal.D7)
         || change (digit _) with (Some Decimal.D8) || change (digit _) with (Some Decimal.D9));
    try (rewrite IHu; reflexivity).
  destruct rest as [|c rest]; [reflexivity|].
  destruct Hrest as [Hd _]. cbn [read_digits]. rewrite (digit_None c Hd). reflexivity.
Qed.

Lemma bad_int_unorm (u : Decimal.uint) : bad_int (Decimal.unorm u) = false.
Proof.
  unfold Decimal.unorm. pose proof (nzhead_nonzero u) as H.
  destruct (Decimal.nzhead u) as [|u'| | | | | | | | |]; try reflexivity.
  exfalso. apply (H u'). reflexivity.
Qed.

Lemma bad_int_to_uint (n : N) : bad_int (N.to_uint n) = false.
Proof.
  rewrite <- (DecimalN.Unsigned.of_to n) at 1.
  rewrite DecimalN.Unsigned.to_of. apply bad_int_unorm.
Qed.

Lemma uint_units_head (u : Decimal.uint) :
  bad_int u = false -> exists c t, uint_units u = c :: t /\ is_digit c = true.
Proof.
  destruct u; simpl; try discriminate; intros _; eexists _, _; split; reflexivity.
Qed.

Lemma parse_Number_toString (z : Z) (rest : jsstring) :
  ends_number rest ->
  parse_number (Number_toString z ++ rest) = Some (VNum z, rest).
Proof.
  intros Hrest. unfold Number_toString, parse_number.
  pose proof (bad_int_to_uint (Z.abs_N z)) as Hbad.
  assert (read_fraction rest = Some rest /\ read_exponent rest = Some rest) as [Hf He].
  { destruct rest as [|c rest]; [split; reflexivity|].
    destruct Hrest as (_ & H1 & H2 & H3). unfold read_fraction, read_exponent.
    destruct (N.eqb_spec c 46); [congruence|].
    destruct (N.eqb_spec c 101); [congruence|].
    destruct (N.eqb_spec c 69); [congruence|]. split; reflexivity. }
  destruct (Z.ltb_spec z 0) as [Hneg|Hpos].
  - cbn [app]. change (45 =? 45) with true. cbn iota.
    rewrite read_digits_units by exact Hrest. rewrite Hbad, Hf, He.
    rewrite Nat.eqb_refl. rewrite DecimalN.Unsigned.of_to.
    f_equal. f_equal. f_equal. lia.
  - cbn [app].
    destruct (uint_units_head _ Hbad) as (c & t & E & Hc).
    pose proof (read_digits_units (N.to_uint (Z.abs_N z)) rest Hrest) as Hread.
    rewrite E in Hread |- *. cbn [app] in Hread |- *.
    destruct (N.eqb_spec c 45) as [->|_]; [discriminate Hc|].
    rewrite Hread, Hbad, Hf, He. rewrite Nat.eqb_refl. rewrite DecimalN.Unsigned.of_to.
    f_equal. f_equal. f_equal. lia.
Qed.

Section value_induction.
Variable P : value -> Prop.
Hypothesis Hundef : P VUndefined.
Hypothesis Hfun : P VFunction.
Hypothesis Hnull : P VNull.
Hypothesis Hbool : forall b, P (VBool b).
Hypothesis Hnum : forall z, P (VNum z).
Hypothesis Hnonfin : P VNonFinite.
Hypothesis Hfrac : forall lit, P (VFrac lit).
Hypothesis Hstr : forall s, P (VStr s).
Hypothesis Harr : forall l, Forall P l -> P (VArr l).
Hypothesis Hobj : forall ms, Forall (fun kv => P (snd kv)) ms -> P (VObj ms).

Fixpoint value_nested_ind (v : value) : P v :=
  match v with
  | VUndefined => Hundef
  | VFunction => Hfun
  | VNull => Hnull
  | VBool b => Hbool b
  | VNum z => Hnum z
  | VNonFinite => Hnonfin
  | VFrac lit => Hfrac lit
  | VStr s => Hstr s
  | VArr l =>
      Harr l ((fix go (l : list value) : Forall P l :=
                 match l with
                 | [] => List.Forall_nil _
                 | x :: l' => List.Forall_cons _ x l' (value_nested_ind x) (go l')
                 end) l)
  | VObj ms =>
      Hobj ms ((fix go (ms : list (jsstring * value)) : Forall (fun kv => P (snd kv)) ms :=
                  match ms with
                  | [] => List.Forall_nil _
                  | kv :: ms' =>
                      List.Forall_cons _ kv ms' (value_nested_ind (snd kv)) (go ms')
                  end) ms)
  end.
End value_induction.

Lemma plain_VArr (l : list value) :
  plain (VArr l) = true <-> Forall (fun x => plain x = true) l.
Proof.
  induction l as [|x l IH].
  - split; [constructor|reflexivity].
  - change (plain (VArr (x :: l))) with (plain x && plain (VArr l)).
    rewrite andb_true_iff, IH. split.
    + intros [? ?]. constructor; assumption.
    + intros H. inversion H; subst. auto.
Qed.

Lemma plain_VObj (ms : list (jsstring * value)) :
  plain (VObj ms) = true
  <-> keys_in_order (map fst ms) = true /\ Forall (fun kv => plain (snd kv) = true) ms.
Proof.
  cbn [plain]. rewrite andb_true_iff.
  apply and_iff_compat_l.
  induction ms as [|[k x] ms IH].
  - split; [constructor|reflexivity].
  - rewrite andb_true_iff, IH. split.
    + intros [? ?]. constructor; assumption.
    + intros H. inversion H; subst. auto.
Qed.

Lemma Serialize_VArr (l : list value) :
  SerializeJSONProperty (VArr l)
  = Some ([91] ++ JSString.join [44] (map element_text l) ++ [93]).
Proof.
  cbn [SerializeJSONProperty]. do 4 f_equal.
  induction l as [|x l IH]; [reflexivity|].
  cbn [map]. rewrite <- IH. unfold element_text.
  destruct (SerializeJSONProperty x); reflexivity.
Qed.

Lemma Serialize_VObj (ms : list (jsstring * value)) :
  Forall (fun kv => is_Some (SerializeJSONProperty (snd kv))) ms ->
  SerializeJSONProperty (VObj ms)
  = Some ([123] ++ JSString.join [44] (map member_text ms) ++ [125]).
Proof.
  intros H. cbn [SerializeJSONProperty]. do 4 f_equal.
  induction H as [|[k x] ms [t Ht] _ IH]; [reflexivity|].
  cbn [map]. rewrite <- IH. unfold member_text, element_text. cbn [fst snd] in *.
  rewrite Ht. reflexivity.
Qed.

(** Own-property order *)

Lemma eqb_string_refl (k : jsstring) : eqb_string k k = true.
Proof. unfold eqb_string. apply bool_decide_eq_true. reflexivity. Qed.

Lemma key_before_irrefl (k : jsstring) : key_before k k = false.
Proof.
  unfold key_before. destruct (array_index k).
  - apply N.ltb_irrefl.
  - rewrite eqb_string_refl. reflexivity.
Qed.

Lemma keys_in_order_app_inv (ks ks' : list jsstring) (k : jsstring) :
  keys_in_order (ks ++ k :: ks') = true -> Forall (fun k' => key_before k' k = true) ks.
Proof.
  induction ks as [|a ks IH]; intros H; [constructor|].
  cbn [app keys_in_order] in H. apply andb_true_iff in H as [Ha Hks].
  constructor; [|apply IH; exact Hks].
  rewrite forallb_forall in Ha. apply Ha. apply in_or_app. right. left. reflexivity.
Qed.

Lemma CreateDataProperty_append (acc : list (jsstring * value)) (k : jsstring) (v : value) :
  Forall (fun k' => key_before k' k = true) (map fst acc) ->
  CreateDataProperty acc k v = acc ++ [(k, v)].
Proof.
  intros H. unfold CreateDataProperty.
  assert (has_key k acc = false) as ->.
  { induction acc as [|[k' v'] acc IH]; [reflexivity|].
    inversion H as [|? ? Hk Hacc]; subst. cbn [has_key].
    rewrite (IH Hacc), orb_false_r. unfold eqb_string.
    apply bool_decide_eq_false. intros ->. cbn [fst] in Hk.
    rewrite key_before_irrefl in Hk. discriminate. }
  destruct (array_index k) as [n|] eqn:En; [|reflexivity].
  induction acc as [|[k' v'] acc IH]; [reflexivity|].
  inversion H as [|? ? Hk Hacc]; subst. cbn [insert_index app].
  cbn [fst] in Hk. unfold key_before in Hk. rewrite En in Hk.
  destruct (array_index k') as [n'|]; [|discriminate].
  rewrite Hk, (IH Hacc). reflexivity.
Qed.

Lemma roundtrips_element_text (v : value) :
  roundtrips v ->
  starts_value (element_text v)
  /\ visible (element_text v)
  /\ forall fuel rest,
       (length (element_text v) <= fuel)%nat -> ends_number rest ->
       parse_value fuel (element_text v ++ rest) = Some (v, rest).
Proof.
  intros (t & E & H). unfold element_text. rewrite E. exact H.
Qed.

Lemma skip_ws_starts (t rest : jsstring) :
  starts_value t -> skip_ws (t ++ rest) = t ++ rest.
Proof.
  intros (c & t' & -> & Hc & _). cbn [app skip_ws]. rewrite Hc. reflexivity.
Qed.

Lemma join_cons2 (sep x y : jsstring) (l : list jsstring) :
  JSString.join sep (x :: y :: l) = x ++ sep ++ JSString.join sep (y :: l).
Proof. reflexivity. Qed.

Lemma ends_number_close (c : N) (rest : jsstring) :
  c = 93 \/ c = 44 \/ c = 125 -> ends_number (c :: rest).
Proof. intros [-> | [-> | ->]]; repeat split; discriminate. Qed.

Lemma parse_elements_texts (l : list value) :
  l <> [] -> Forall roundtrips l ->
  forall fuel rest,
    (1 + length (JSString.join [44%N] (map element_text l)) <= fuel)%nat ->
    parse_elements fuel (JSString.join [44] (map element_text l) ++ 93 :: rest)
    = Some (VArr l, rest).
Proof.
  intros Hne Hall. induction Hall as [|x l Hx Hl IH]; [congruence|].
  intros fuel rest Hfuel.
  destruct (roundtrips_element_text x Hx) as (_ & _ & Hparse).
  destruct fuel as [|f]; [lia|]. cbn [parse_elements].
  destruct l as [|y l].
  - cbn [map JSString.join] in *.
    rewrite Hparse; [|lia|apply ends_number_close; auto].
    reflexivity.
  - cbn [map] in *. rewrite join_cons2 in *. rewrite length_app in Hfuel.
    rewrite <- app_assoc. cbn [app].
    rewrite Hparse; [|lia|apply ends_number_close; auto].
    cbn [skip_ws]. change (is_json_ws 44) with false. cbn iota.
    change (44 =? 93) with false. change (44 =? 44) with true. cbn iota.
    rewrite IH; [reflexivity|discriminate|].
    cbn [length app] in Hfuel. lia.
Qed.

Lemma member_text_eq (k : jsstring) (x : value) (rest : jsstring) :
  member_text (k, x) ++ rest
  = DQUOTE :: quote_units k ++ DQUOTE :: 58 :: element_text x ++ rest.
Proof.
  unfold member_text, QuoteJSONString. cbn [fst snd app].
  rewrite <- !app_assoc. reflexivity.
Qed.

Lemma parse_members_texts (ms : list (jsstring * value)) :
  ms <> [] -> Forall (fun kv => roundtrips (snd kv)) ms ->
  forall acc fuel rest,
    keys_in_order (map fst (acc ++ ms)) = true ->
    (1 + length (JSString.join [44%N] (map member_text ms)) <= fuel)%nat ->
    parse_members fuel (JSString.join [44] (map member_text ms) ++ 125 :: rest) acc
    = Some (VObj (acc ++ ms), rest).
Proof.
  intros Hne Hall. induction Hall as [|[k x] ms Hx Hms IH]; [congruence|].
  intros acc fuel rest Hkeys Hfuel.
  destruct (roundtrips_element_text x Hx) as (_ & _ & Hparse).
  assert (CreateDataProperty acc k x = acc ++ [(k, x)]) as Hset.
  { apply CreateDataProperty_append. rewrite map_app in Hkeys. cbn [map fst] in Hkeys.
    eapply keys_in_order_app_inv. exact Hkeys. }
  destruct fuel as [|f]; [lia|]. cbn [parse_members].
  destruct ms as [|kv ms].
  - cbn [map JSString.join] in *. rewrite member_text_eq.
    cbn [skip_ws]. change (is_json_ws DQUOTE) with false. cbn iota.
    change (DQUOTE =? DQUOTE) with true. cbn iota.
    rewrite parse_quote_units.
    cbn [skip_ws]. change (is_json_ws 58) with false. cbn iota.
    change (58 =? 58) with true. cbn iota.
    rewrite Hparse; [|unfold member_text in Hfuel; cbn [fst snd] in Hfuel; rewrite !length_app in Hfuel; lia
                     |apply ends_number_close; auto].
    cbn [skip_ws]. change (is_json_ws 125) with false. cbn iota.
    change (125 =? 125) with true. cbn iota.
    rewrite Hset. reflexivity.
  - cbn [map] in *. rewrite join_cons2 in *. rewrite <- app_assoc, member_text_eq.
    cbn [skip_ws]. change (is_json_ws DQUOTE) with false. cbn iota.
    change (DQUOTE =? DQUOTE) with true. cbn iota.
    rewrite parse_quote_units.
    cbn [skip_ws]. change (is_json_ws 58) with false. cbn iota.
    change (58 =? 58) with true. cbn iota.
    rewrite <- app_assoc. cbn [app].
    rewrite Hparse; [|unfold member_text in Hfuel; cbn [fst snd] in Hfuel; rewrite !length_app in Hfuel; lia
                     |apply ends_number_close; auto].
    cbn [skip_ws]. change (is_json_ws 44) with false. cbn iota.
    change (44 =? 125) with false. change (44 =? 44) with true. cbn iota.
    rewrite Hset. rewrite IH.
    + rewrite <- app_assoc. reflexivity.
    + discriminate.
    + rewrite <- app_assoc. exact Hkeys.
    + rewrite !length_app in Hfuel. cbn [length] in Hfuel. lia.
Qed.

Lemma visible_join (sep : jsstring) (parts : list jsstring) :
  visible sep -> Forall visible parts -> visible (JSString.join sep parts).
Proof.
  intros Hsep Hparts. induction Hparts as [|x parts Hx _ IH]; [constructor|].
  destruct parts as [|y parts]; [exact Hx|].
  rewrite join_cons2. apply Forall_app. split; [exact Hx|].
  apply Forall_app. split; [exact Hsep|exact IH].
Qed.

Lemma visible_uint_units (u : Decimal.uint) : visible (uint_units u).
Proof. induction u; cbn [uint_units]; constructor; (lia || assumption). Qed.

Lemma parse_value_number (f : nat) (c : N) (s : jsstring) :
  c = 45 \/ is_digit c = true ->
  parse_value (S f) (c :: s) = parse_number (c :: s).
Proof.
  intros Hc.
  assert (c = 45 \/ (48 <= c /\ c <= 57)) as Hrange.
  { destruct Hc as [?|Hd]; [left; assumption|right].
    unfold is_digit in Hd. apply andb_true_iff in Hd as [H1 H2].
    apply N.leb_le in H1, H2. auto. }
  cbn [parse_value skip_ws]. unfold is_json_ws.
  repeat (match goal with
          | |- context [?a =? ?b] =>
              destruct (N.eqb_spec a b);
              [exfalso; unfold DQUOTE in *; lia|]
          end; cbn [orb]).
  reflexivity.
Qed.

Lemma plain_roundtrips (v : value) : plain v = true -> roundtrips v.
Proof.
  induction v as [| | |b|z| |lit|s|l IH|ms IH] using value_nested_ind;
    intros Hplain; try discriminate Hplain.
  - exists (js "null"). split; [reflexivity|]. split; [|split].
    + eexists _, _. repeat split. discriminate.
    + repeat constructor; discriminate.
    + intros [|f] rest Hfuel _; [cbn in Hfuel; lia|]. reflexivity.
  - destruct b.
    + exists (js "true"). split; [reflexivity|]. split; [|split].
      * eexists _, _. repeat split. discriminate.
      * repeat constructor; discriminate.
      * intros [|f] rest Hfuel _; [cbn in Hfuel; lia|]. reflexivity.
    + exists (js "false"). split; [reflexivity|]. split; [|split].
      * eexists _, _. repeat split. discriminate.
      * repeat constructor; discriminate.
      * intros [|f] rest Hfuel _; [cbn in Hfuel; lia|]. reflexivity.
  - exists (Number_toString z). split; [reflexivity|].
    assert (exists c t, Number_toString z = c :: t /\ (c = 45 \/ is_digit c = true)) as Hhead.
    { unfold Number_toString. destruct (z <? 0)%Z.
      - eexists _, _. split; [reflexivity|]. left. reflexivity.
      - destruct (uint_units_head _ (bad_int_to_uint (Z.abs_N z))) as (c & t & E & Hc).
        exists c, t. rewrite E. auto. }
    destruct Hhead as (c & t & E & Hc). split; [|split].
    + exists c, t. split; [exact E|].
      destruct Hc as [->|Hd]; [split; [reflexivity|discriminate]|].
      unfold is_digit in Hd. apply andb_true_iff in Hd as [H1 H2].
      apply N.leb_le in H1, H2. split; [|lia].
      unfold is_json_ws.
      repeat match goal with
             | |- context [?a =? ?b] => destruct (N.eqb_spec a b); [exfalso; lia|]
             end.
      reflexivity.
    + unfold Number_toString. apply Forall_app. split; [|apply visible_uint_units].
      destruct (z <? 0)%Z; repeat constructor. discriminate.
    + intros [|f] rest Hfuel Hrest; [rewrite E in Hfuel; cbn in Hfuel; lia|].
      rewrite <- (parse_Number_toString z rest Hrest). rewrite E. cbn [app].
      apply parse_value_number. exact Hc.
  - exists (QuoteJSONString s). split; [reflexivity|]. split; [|split].
    + eexists _, _. repeat split. discriminate.
    + unfold QuoteJSONString. constructor; [discriminate|].
      apply Forall_app. split; [apply visible_quote_units|repeat constructor; discriminate].
    + intros [|f] rest Hfuel _; [cbn in Hfuel; lia|].
      unfold QuoteJSONString. cbn [app parse_value skip_ws].
      change (is_json_ws DQUOTE) with false. cbn iota.
      change (DQUOTE =? DQUOTE) with true. cbn iota.
      rewrite <- app_assoc. cbn [app]. rewrite parse_quote_units. reflexivity.
  - apply plain_VArr in Hplain.
    assert (Forall roundtrips l) as Hall.
    { clear -IH Hplain. induction IH; inversion Hplain; subst; constructor; auto. }
    eexists. split; [apply Serialize_VArr|]. split; [|split].
    + eexists _, _. repeat split. discriminate.
    + constructor; [discriminate|]. apply Forall_app. split; [|repeat constructor; discriminate].
      apply visible_join; [repeat constructor; discriminate|].
      clear -Hall. induction Hall as [|x l Hx _ IHl]; constructor; [|exact IHl].
      apply roundtrips_element_text. exact Hx.
    + intros [|f] rest Hfuel _; [cbn in Hfuel; lia|].
      cbn [app parse_value skip_ws]. change (is_json_ws 91) with false. cbn iota.
      change (91 =? DQUOTE) with false. change (91 =? 91) with true. cbn iota.
      rewrite <- app_assoc. cbn [app].
      destruct Hall as [|x l Hx Hl]; [reflexivity|].
      assert (starts_value (JSString.join [44] (map element_text (x :: l)))) as Hstart.
      { destruct (roundtrips_element_text x Hx) as ((c & t & E & Hc) & _).
        destruct l as [|y l]; cbn [map].
        - cbn [JSString.join]. exists c, t. auto.
        - rewrite join_cons2, E. eexists c, _. split; [reflexivity|exact Hc]. }
      rewrite skip_ws_starts by exact Hstart.
      destruct Hstart as (c & t & E & _ & Hc). rewrite E at 1. cbn [app].
      destruct (N.eqb_spec c 93); [congruence|].
      apply parse_elements_texts; [discriminate|constructor; assumption|].
      rewrite !length_app in Hfuel. cbn [length] in Hfuel. lia.
  - apply plain_VObj in Hplain as [Hkeys Hplain].
    assert (Forall (fun kv => roundtrips (snd kv)) ms) as Hall.
    { clear -IH Hplain. induction IH; inversion Hplain; subst; constructor; auto. }
    assert (Forall (fun kv => is_Some (SerializeJSONProperty (snd kv))) ms) as Hsome.
    { clear -Hall. induction Hall as [|kv ms (t & E & _) _ IHl]; constructor; [|exact IHl].
      exists t. exact E. }
    eexists. split; [apply Serialize_VObj; exact Hsome|]. split; [|split].
    + eexists _, _. repeat split. discriminate.
    + constructor; [discriminate|]. apply Forall_app. split; [|repeat constructor; discriminate].
      apply visible_join; [repeat constructor; discriminate|].
      clear -Hall. induction Hall as [|[k x] ms Hx _ IHl]; constructor; [|exact IHl].
      unfold member_text, QuoteJSONString. cbn [fst snd app].
      constructor; [discriminate|]. rewrite <- app_assoc. cbn [app].
      apply Forall_app. split; [apply visible_quote_units|].
      constructor; [discriminate|]. constructor; [discriminate|].
      apply roundtrips_element_text. exact Hx.
    + intros [|f] rest Hfuel _; [cbn in Hfuel; lia|].
      cbn [app parse_value skip_ws]. change (is_json_ws 123) with false. cbn iota.
      change (123 =? DQUOTE) with false. change (123 =? 91) with false.
      change (123 =? 123) with true. cbn iota.
      rewrite <- app_assoc. cbn [app].
      destruct Hall as [|[k x] ms Hx Hms]; [reflexivity|].
      assert (exists t, JSString.join [44] (map member_text ((k, x) :: ms)) = DQUOTE :: t)
        as [t Et].
      { destruct ms as [|kv ms]; cbn [map].
        - cbn [JSString.join]. eexists. reflexivity.
        - rewrite join_cons2. eexists. reflexivity. }
      rewrite Et. cbn [app skip_ws]. change (is_json_ws DQUOTE) with false. cbn iota.
      change (DQUOTE =? 125) with false. cbn iota.
      change (DQUOTE :: t ++ 125 :: rest) with ((DQUOTE :: t) ++ 125 :: rest).
      rewrite <- Et.
      apply (parse_members_texts ((k, x) :: ms)); [discriminate|constructor; assumption| |].
      * exact Hkeys.
      * rewrite !length_app in Hfuel. cbn [length] in Hfuel. lia.
Qed.


End JSONFacts.

(** ** The sentinel after the output of the body *)

Section SentinelFacts.

Import JSString.






End SentinelFacts.




(** C8.  Infrastructure faults propagate: when the
    workspace cannot be created, or the process cannot be spawned, the
    call of the engine throws that error.  Whatever the child did is
    data: once both streams are read and the child has ended, with any
    exit code, the call returns a normal result whose value and cleaned
    text are decoded from the standard output and whose [stderr] is the
    text of the error stream as it is; the exit code is not part of the
    result; and when the standard output carries no sentinel token, the
    value is undefined and the text is unchanged. *)
Theorem faults_as_data_or_exceptions (h : Host) (code workingDir : jsstring) (w : world) :
  let outcome := fst (runSkillCodeImpl code workingDir (defaultExecutor h) w) in
  let tmpFile tmpDir := path_join h tmpDir (js "code.ts") in
  (forall e, mkdtemp_answer h (tmp_prefix h) = Throw e -> outcome = Throw e)
  /\ (forall tmpDir e,
        mkdtemp_answer h (tmp_prefix h) = Normal tmpDir ->
        writeFile_answer h (tmpFile tmpDir) (program_of h code) = Normal tt ->
        spawn_answer h [js "bun"; js "run"; tmpFile tmpDir] workingDir (child_env h) = Throw e ->
        outcome = Throw e)
  /\ (forall tmpDir proc out err exitCode,
        mkdtemp_answer h (tmp_prefix h) = Normal tmpDir ->
        writeFile_answer h (tmpFile tmpDir) (program_of h code) = Normal tt ->
        spawn_answer h [js "bun"; js "run"; tmpFile tmpDir] workingDir (child_env h)
          = Normal proc ->
        proc_stdout proc = Normal out ->
        proc_stderr proc = Normal err ->
        proc_exited proc = Normal exitCode ->
        exists value clean,
          decode out = Normal (value, clean)
          /\ outcome = Normal {| returnValue := value; stdout := clean; stderr := err |}
          /\ (absent returnMarker out -> value = VUndefined /\ clean = out)).
Proof.
  intros outcome tmpFile. unfold outcome, runSkillCodeImpl, defaultExecutor. cbn [execute].
  rewrite execute_unfold. split; [|split].
  - intros e ->. reflexivity.
  - intros tmpDir e -> Hw Hs. cbn zeta. rewrite execute_body_unfold. cbn zeta.
    unfold tmpFile in Hw, Hs. rewrite Hw, Hs. reflexivity.
  - intros tmpDir proc out err exitCode -> Hw Hs Hout Herr Hexit.
    cbn zeta. rewrite execute_body_unfold. cbn zeta.
    unfold tmpFile in Hw, Hs. rewrite Hw, Hs, Hout, Herr, Hexit.
    destruct (decode_total out) as (value & clean & Hd).
    exists value, clean. rewrite Hd. split; [reflexivity|]. split; [reflexivity|].
    intros Habs. rewrite (decode_absent out Habs) in Hd. injection Hd as <- <-. auto.
Qed.

(** C2.  An import written with double quotes is an import line for
    the splitter, and its expansion opens the path with a single quote
    while the closing double quote stays: the quote character of the
    original is not kept. *)
Theorem double_quoted_alias_gets_single_quote :
  RegExp.test import_re double_quoted_import = true
  /\ expandedLine (js "/home/u") double_quoted_import
     = js "import { x } from '/home/u/lib/x.js" ++ [DQUOTE] ++ js ";".
Proof. split; vm_compute; reflexivity. Qed.

(** The same import written with single quotes is expanded as intended. *)
Lemma single_quoted_alias_expanded :
  expandedLine (js "/home/u") (js "import { x } from '~/lib/x.js';")
  = js "import { x } from '/home/u/lib/x.js';".
Proof. vm_compute. reflexivity. Qed.

(** Lines that are not imports keep their aliases: the expansion is
    applied to import lines only. *)
Lemma alias_outside_imports_kept :
  split_source (js "/home/u") (js "const p = '~/notes.txt';")
  = {| imports := []; codeLines := [js "const p = '~/notes.txt';"] |}.
Proof. vm_compute. reflexivity. Qed.

(** The home directory is read as a replacement pattern: two dollar
    signs in it come out as one. *)
Lemma dollar_in_home_is_a_pattern :
  expandedLine (js "/home/a$$b") (js "import x from '~/m';")
  = js "import x from '/home/a$b/m';".
Proof. vm_compute. reflexivity. Qed.

(** The replacement of every match opens with a single quote, whatever
    the quote matched. *)
Lemma substitution_opens_with_single_quote (homeDir matched before after : jsstring) :
  exists tail,
    RegExp.GetSubstitution (home_template homeDir) matched before after = SQUOTE :: tail.
Proof. eexists. reflexivity. Qed.

(** ** The properties at concrete inputs *)

Lemma decode_first_sentinel_excised_witness :
  ~ absent returnMarker sample_stdout
  /\ exists before payload after,
       sample_stdout = before ++ returnMarker ++ payload ++ line_rest after
       /\ first_occurrence returnMarker sample_stdout before
       /\ (LF ∉ payload)
       /\ decode sample_stdout
          = Normal (value_or_undefined (JSON.parse payload), before ++ default [] after).
Proof.
  assert (~ absent returnMarker sample_stdout) as H.
  { intros H. apply (H (js "out" ++ [LF])). eexists. reflexivity. }
  split; [exact H|]. exact (decode_first_sentinel_excised sample_stdout H).
Defined.

Lemma decode_never_fails_witness :
  (absent returnMarker (js "plain output")
   /\ decode (js "plain output") = Normal (VUndefined, js "plain output"))
  /\ (first_occurrence returnMarker (js "__RETURN_VALUE__:undefined") []
      /\ JSON.parse (js "undefined") = Throw SyntaxError
      /\ decode (js "__RETURN_VALUE__:undefined") = Normal (VUndefined, [])).
Proof.
  split.
  - assert (absent returnMarker (js "plain output")) as H.
    { apply (proj1 (indexOf_absent _ _)). reflexivity. }
    split; [exact H|].
    exact (proj1 (proj2 (decode_never_fails (js "plain output"))) H).
  - assert (first_occurrence returnMarker (js "__RETURN_VALUE__:undefined") []) as H.
    { unfold first_occurrence, occurs_at. split.
      - exists (js "undefined"). reflexivity.
      - intros pre' _. simpl. lia. }
    split; [exact H|]. split; [reflexivity|].
    refine (proj2 (proj2 (decode_never_fails (js "__RETURN_VALUE__:undefined")))
              [] (js "undefined") None SyntaxError eq_refl H _ eq_refl).
    intros Hin. repeat (apply elem_of_cons in Hin as [Hin|Hin]; [discriminate|]).
    apply elem_of_nil in Hin. exact Hin.
Defined.

Lemma workspace_removed_on_every_exit_witness :
  mkdtemp_answer failing_host (tmp_prefix failing_host) = Normal sample_tmpDir
  /\ let created := {| dirs := {[sample_tmpDir]} ∪ dirs empty_world;
                       trace := trace empty_world
                                ++ [CallMkdtemp (tmp_prefix failing_host)] |} in
     let primary := execute_body failing_host (js "return 42;") (js "/work/project")
                      (path_join failing_host sample_tmpDir (js "code.ts")) created in
     let final := DefaultTypeScriptExecutor_execute failing_host (js "return 42;")
                    (js "/work/project") empty_world in
     fst final = fst primary
     /\ (exists calls,
           trace (snd final) = trace created ++ calls ++ [CallRm sample_tmpDir true true]
           /\ forall path r f, CallRm path r f ∉ calls)
     /\ (forall w0, fst (cleanup failing_host sample_tmpDir w0) = Normal tt)
     /\ (forall u, rm_answer failing_host sample_tmpDir = Normal u ->
           sample_tmpDir ∉ dirs (snd final)).
Proof.
  split; [reflexivity|].
  exact (workspace_removed_on_every_exit failing_host (js "return 42;") (js "/work/project")
           sample_tmpDir empty_world eq_refl).
Defined.

Lemma child_runs_in_caller_dir_with_home_witness :
  let h := host_running logging_body in
  mkdtemp_answer h (tmp_prefix h) = Normal sample_tmpDir
  /\ writeFile_answer h (path_join h sample_tmpDir (js "code.ts"))
       (program_of h (code sample_params)) = Normal tt
  /\ (exists calls,
        trace (snd (runSkillCode h sample_params empty_world)) = trace empty_world ++ calls
        /\ CallSpawn [js "bun"; js "run"; js "/tmp/run-skill-code-Ab12Cd/code.ts"]
             (js "/work/project") (child_env h) ∈ calls)
  /\ child_env h !! js "HOME" = Some (js "/home/u")
  /\ child_env h !! js "PATH" = Some (js "/usr/bin").
Proof.
  intros h.
  destruct (child_runs_in_caller_dir_with_home h sample_params sample_tmpDir empty_world
              eq_refl eq_refl) as ((calls & Htrace & Hin & _) & Hhome & Hother & Hnone & _).
  split; [reflexivity|]. split; [reflexivity|]. split; [|split].
  - exists calls. split; [exact Htrace|exact Hin].
  - rewrite Hhome. rewrite (Hnone eq_refl). reflexivity.
  - rewrite Hother by discriminate. reflexivity.
Defined.



Lemma faults_as_data_or_exceptions_witness :
  fst (runSkillCodeImpl (js "return 42;") (js "/work/project")
         (defaultExecutor host_without_tmp) empty_world)
  = Throw (SystemError (js "EACCES"))
  /\ fst (runSkillCodeImpl (js "return 42;") (js "/work/project")
            (defaultExecutor failing_host) empty_world)
     = Throw (SystemError (js "ENOENT"))
  /\ fst (runSkillCodeImpl (js "throw new Error('boom');") (js "/work/project")
            (defaultExecutor (host_running throwing_body)) empty_world)
     = Normal {| returnValue := VUndefined;
                 stdout := js "before" ++ [LF];
                 stderr := js "error: boom" ++ [LF] |}.
Proof.
  split; [|split].
  - exact (proj1 (faults_as_data_or_exceptions host_without_tmp (js "return 42;")
                    (js "/work/project") empty_world) _ eq_refl).
  - exact (proj1 (proj2 (faults_as_data_or_exceptions failing_host (js "return 42;")
                           (js "/work/project") empty_world)) sample_tmpDir _
             eq_refl eq_refl eq_refl).
  - destruct (proj2 (proj2 (faults_as_data_or_exceptions (host_running throwing_body)
                              (js "throw new Error('boom');") (js "/work/project")
                              empty_world))
                sample_tmpDir _ _ _ 1%Z eq_refl eq_refl eq_refl eq_refl eq_refl eq_refl)
      as (value & clean & _ & Hout & Habs).
    assert (absent returnMarker (js "before" ++ [LF])) as H.
    { apply (proj1 (indexOf_absent _ _)). reflexivity. }
    destruct (Habs H) as [-> ->]. exact Hout.
Defined.



(** C8 without the condition on the output: a counterexample.  The submitted code logs the sentinel token
    followed by 1 and then throws: the engine returns a normal result with
    the diagnostic in [stderr], and its value is 1, not undefined. *)
Lemma decoy_throw_returns_a_value :
  settled decoy_then_throw = Throw (UserError (js "boom"))
  /\ fst (runSkillCode (host_running decoy_then_throw) decoy_params empty_world)
     = Normal {| returnValue := VNum 1; stdout := []; stderr := js "error: boom" ++ [LF] |}
  /\ VNum 1 <> VUndefined.
Proof. repeat split; try (vm_compute; reflexivity). discriminate. Qed.

(** ** The scenarios of the test suite *)

Example import_test_samples :
  RegExp.test import_re (js "import { a } from 'b';") = true
  /\ RegExp.test import_re (js "    import x from 'y'") = true
  /\ RegExp.test import_re (js "import('x')") = false
  /\ RegExp.test import_re (js "important = 1") = false
  /\ RegExp.test import_re (js "// import x from 'y'") = false
  /\ RegExp.test import_re (js "import") = false.
Proof. repeat split; reflexivity. Qed.

Example split_of_the_import_test :
  split_source (js "/home/u") (js "
        import { setWorkspace } from '~/.claude/skills/discovery-tree-workflow/src/beads.js';
        return typeof setWorkspace;
      ")
  = {| imports :=
         [js "        import { setWorkspace } from '/home/u/.claude/skills/discovery-tree-workflow/src/beads.js';"];
       codeLines := [[]; js "        return typeof setWorkspace;"; js "      "] |}.
Proof. vm_compute. reflexivity. Qed.

Example harness_of_return_42 :
  wrappedCode [] [js "return 42;"] = js "


(async () => {
  const __result = await (async () => {
    return 42;
  })();

  console.log('__RETURN_VALUE__:' + JSON.stringify(__result));
})();
".
Proof. vm_compute. reflexivity. Qed.

(** Scenario 1: the code returns 42. *)
Example scenario_return_42 :
  fst (runSkillCode (host_running (script_ret (VNum 42))) sample_params empty_world)
  = Normal {| returnValue := VNum 42; stdout := []; stderr := [] |}.
Proof. vm_compute. reflexivity. Qed.

(** Scenario 2: the code logs two lines and returns a string. *)
Example scenario_console_output :
  let body := script_bind (console_log (js "hello")) (fun _ =>
              script_bind (console_log (js "world")) (fun _ =>
              script_ret (VStr (js "done")))) in
  fst (runSkillCode (host_running body) sample_params empty_world)
  = Normal {| returnValue := VStr (js "done");
              stdout := js "hello" ++ [LF] ++ js "world" ++ [LF];
              stderr := [] |}.
Proof. vm_compute. reflexivity. Qed.

(** Scenario 4: the code throws. *)
Example scenario_runtime_error :
  fst (runSkillCode (host_running (script_throw (UserError (js "Something went wrong"))))
         sample_params empty_world)
  = Normal {| returnValue := VUndefined;
              stdout := [];
              stderr := js "error: Something went wrong" ++ [LF] |}.
Proof. vm_compute. reflexivity. Qed.

(** The calls of one execution, in order. *)
Example calls_of_one_execution :
  trace (snd (runSkillCode (host_running (script_ret (VNum 42))) sample_params empty_world))
  = [CallMkdtemp (js "/tmp/run-skill-code-");
     CallWriteFile (js "/tmp/run-skill-code-Ab12Cd/code.ts")
       (wrappedCode [] [js "return 42;"]);
     CallSpawn [js "bun"; js "run"; js "/tmp/run-skill-code-Ab12Cd/code.ts"]
       (js "/work/project") (child_env (host_running (script_ret (VNum 42))));
     CallReadStreams;
     CallExited;
     CallRm (js "/tmp/run-skill-code-Ab12Cd") true true].
Proof. reflexivity. Qed.

Example stringify_samples :
  JSON.stringify (VObj [(js "a", VArr [VNum (-12); VUndefined; VStr [0xD800; 10; DQUOTE]]);
                        (js "f", VFunction)])
  = Some (js "{" ++ [DQUOTE] ++ js "a" ++ [DQUOTE] ++ js ":[-12,null,"
          ++ [DQUOTE] ++ js "\ud800\n\" ++ [DQUOTE; DQUOTE] ++ js "]}")
  /\ JSON.stringify VUndefined = None
  /\ JSON.stringify (VArr [VNonFinite]) = Some (js "[null]").
Proof. repeat split; vm_compute; reflexivity. Qed.

Example parse_samples :
  JSON.parse (js "42") = Normal (VNum 42)
  /\ JSON.parse (js " [1, -2 , null,true] ") = Normal (VArr [VNum 1; VNum (-2); VNull; VBool true])
  /\ JSON.parse (js "{" ++ [DQUOTE] ++ js "b" ++ [DQUOTE] ++ js ":1,"
                 ++ [DQUOTE] ++ js "2" ++ [DQUOTE] ++ js ":2,"
                 ++ [DQUOTE] ++ js "b" ++ [DQUOTE] ++ js ":3}")
     = Normal (VObj [(js "2", VNum 2); (js "b", VNum 3)])
  /\ JSON.parse (js "-1.5e+3") = Normal (VFrac (js "-1.5e+3"))
  /\ JSON.parse (js "undefined") = Throw SyntaxError
  /\ JSON.parse (js "01") = Throw SyntaxError
  /\ JSON.parse (js "[1,]") = Throw SyntaxError
  /\ JSON.parse (js "1 2") = Throw SyntaxError
  /\ JSON.parse [] = Throw SyntaxError.
Proof. repeat split; vm_compute; reflexivity. Qed.

(** * Further properties of the engine *)

(** ** The calls of one execution *)

(** The calls of the guarded block are the first calls of the full
    sequence, at least the write of the program. *)
Lemma execute_body_prefix (h : Host) (code workingDir tmpDir : jsstring) (w : world) :
  exists k,
    (1 <= k <= 4)%nat
    /\ snd (execute_body h code workingDir (tmp_file h tmpDir) w)
       = called w (take k (block_calls h code workingDir tmpDir)).
Proof.
  rewrite execute_body_unfold. cbn zeta. unfold block_calls.
  destruct (writeFile_answer h _ _); [|exists 1%nat; split; [lia|reflexivity]].
  destruct (spawn_answer h _ _ _) as [proc|]; [|exists 2%nat; split; [lia|reflexivity]].
  destruct (proc_stdout proc); [|exists 3%nat; split; [lia|reflexivity]].
  destruct (proc_stderr proc); [|exists 3%nat; split; [lia|reflexivity]].
  destruct (proc_exited proc); [|exists 4%nat; split; [lia|reflexivity]].
  destruct (decode _) as [[rv clean]|]; exists 4%nat; (split; [lia|reflexivity]).
Qed.



(** X3. A program that cannot be written is never run.  When
    [fs.writeFile] fails, the call throws that error, no process is
    spawned, and the workspace is still removed: the calls are
    [fs.mkdtemp], [fs.writeFile] and [fs.rm]. *)
Theorem unwritten_program_is_not_run
    (h : Host) (code workingDir tmpDir : jsstring) (w : world) (e : exn) :
  mkdtemp_answer h (tmp_prefix h) = Normal tmpDir ->
  writeFile_answer h (tmp_file h tmpDir) (program_of h code) = Throw e ->
  let final := DefaultTypeScriptExecutor_execute h code workingDir w in
  fst final = Throw e
  /\ trace (snd final)
     = trace w ++ [CallMkdtemp (tmp_prefix h);
                   CallWriteFile (tmp_file h tmpDir) (program_of h code);
                   CallRm tmpDir true true].
Proof.
  intros Hmk Hw final. unfold final. rewrite execute_unfold, Hmk. cbn zeta.
  rewrite execute_body_unfold. cbn zeta. unfold tmp_file in Hw. rewrite Hw.
  cbn [fst snd trace called]. split; [reflexivity|].
  rewrite <- !app_assoc. reflexivity.
Qed.


(** ** The splitter and the alias expander, further *)

Section ExpanderFacts.

Import RegExp.

Lemma filter_none {A} (f : A -> bool) (l : list A) :
  Forall (fun x => f x = false) l ->
  List.filter f l = [] /\ List.filter (fun x => negb (f x)) l = l.
Proof.
  induction 1 as [|x l Hx _ [IH1 IH2]]; [split; reflexivity|].
  cbn [List.filter]. rewrite Hx. cbn [negb]. rewrite IH1, IH2. split; reflexivity.
Qed.

Lemma GetSubstitution_plain (template matched before after : jsstring) :
  DOLLAR ∉ template -> GetSubstitution template matched before after = template.
Proof.
  induction template as [|c t IH]; intros Hnot; [reflexivity|].
  cbn [GetSubstitution].
  destruct (N.eqb_spec c DOLLAR) as [->|_]; [exfalso; apply Hnot; left|].
  rewrite IH; [reflexivity|]. intros Hin. apply Hnot. right. exact Hin.
Qed.

(** Without dollar sign in the replacement, the scan does not depend on
    the text already passed. *)
Lemma replace_scan_before (pat : list (N -> bool)) (template : jsstring) (s : jsstring) :
  DOLLAR ∉ template ->
  forall before before' skip,
    replace_scan pat template before skip s = replace_scan pat template before' skip s.
Proof.
  intros Hnot. induction s as [|c t IH]; intros before before' skip; [reflexivity|].
  cbn [replace_scan]. destruct skip as [|k]; [|apply IH].
  destruct (match_atoms pat (c :: t)) as [[m rest]|].
  - rewrite !GetSubstitution_plain by exact Hnot. f_equal. apply IH.
  - f_equal. apply IH.
Qed.

Lemma home_template_plain (homeDir : jsstring) :
  DOLLAR ∉ homeDir -> DOLLAR ∉ home_template homeDir.
Proof.
  intros Hnot Hin. unfold home_template in Hin.
  rewrite !elem_of_app, !list_elem_of_singleton in Hin.
  destruct Hin as [Hin|[Hin|Hin]]; [discriminate|contradiction|discriminate].
Qed.

(** Where no alias starts, the scan copies the text. *)
Lemma replace_scan_copy (template : jsstring) (s : jsstring) :
  absent single_quoted_alias s -> absent double_quoted_alias s ->
  forall before, replace_scan home_alias_re template before 0 s = s.
Proof.
  induction s as [|c t IH]; intros Hs Hd before; [reflexivity|].
  cbn [replace_scan].
  assert (match_atoms home_alias_re (c :: t) = None) as ->.
  { unfold home_alias_re. cbn [match_atoms]. unfold is_quote.
    destruct (N.eqb_spec c SQUOTE) as [->|_].
    - destruct t as [|a [|b t']]; cbn [orb]; try reflexivity.
      + destruct (TILDE =? a); reflexivity.
      + destruct (N.eqb_spec TILDE a) as [<-|_]; [|reflexivity].
        destruct (N.eqb_spec SLASH b) as [<-|_]; [|reflexivity].
        exfalso. apply (Hs []). exists t'. reflexivity.
    - destruct (N.eqb_spec c DQUOTE) as [->|_]; [|reflexivity].
      destruct t as [|a [|b t']]; cbn [orb]; try reflexivity.
      + destruct (TILDE =? a); reflexivity.
      + destruct (N.eqb_spec TILDE a) as [<-|_]; [|reflexivity].
        destruct (N.eqb_spec SLASH b) as [<-|_]; [|reflexivity].
        exfalso. apply (Hd []). exists t'. reflexivity. }
  f_equal. apply IH.
  - intros pre [post E]. apply (Hs (c :: pre)). exists post. cbn [app]. rewrite E. reflexivity.
  - intros pre [post E]. apply (Hd (c :: pre)). exists post. cbn [app]. rewrite E. reflexivity.
Qed.

End ExpanderFacts.

(** X5. Code without import lines reaches the harness whole.  When no
    line of the submitted text passes the import test, there is no import,
    the body lines are the lines of the text, and the program is the
    opening of the template, the text itself, unchanged, and the closing of
    the template. *)
Theorem code_without_imports_is_wrapped_whole (homeDir code : jsstring) :
  Forall (fun line => RegExp.test import_re line = false) (JSString.split LF code) ->
  let parsed := split_source homeDir code in
  imports parsed = []
  /\ codeLines parsed = JSString.split LF code
  /\ wrappedCode (imports parsed) (codeLines parsed)
     = [LF] ++ harness_open ++ code ++ harness_close.
Proof.
  intros Hnone parsed.
  destruct (filter_none _ _ Hnone) as [E1 E2].
  assert (parsed = {| imports := []; codeLines := JSString.split LF code |}) as ->.
  { unfold parsed, split_source. rewrite fold_split_step. cbn [imports codeLines app].
    rewrite E1, E2. reflexivity. }
  cbn [imports codeLines]. split; [reflexivity|]. split; [reflexivity|].
  unfold wrappedCode. cbn [JSString.join app]. rewrite join_split. reflexivity.
Qed.

(** X6. An import line without alias is not altered.  A line in which
    neither a single quote nor a double quote is followed by a tilde and a
    slash is its own expansion, whatever the home directory. *)
Theorem line_without_alias_unchanged (homeDir line : jsstring) :
  absent single_quoted_alias line ->
  absent double_quoted_alias line ->
  expandedLine homeDir line = line.
Proof.
  intros Hs Hd. unfold expandedLine, RegExp.replace. apply replace_scan_copy; assumption.
Qed.

(** X7. The expansion, step by step.  For a home directory without
    dollar sign: where the text starts with a quote, a tilde and a slash,
    the expansion is a single quote, the home directory, a slash, and the
    expansion of what follows the slash; where it does not, the first code
    unit is kept and the expansion goes on behind it.  So every alias of
    the line is expanded, from left to right, and nothing else changes. *)
Theorem expansion_unfolds (homeDir : jsstring) :
  DOLLAR ∉ homeDir ->
  (forall q rest,
     is_quote q = true ->
     expandedLine homeDir (q :: TILDE :: SLASH :: rest)
     = [SQUOTE] ++ homeDir ++ [SLASH] ++ expandedLine homeDir rest)
  /\ (forall c rest,
        is_quote c = false \/ JSString.startsWith [TILDE; SLASH] rest = false ->
        expandedLine homeDir (c :: rest) = c :: expandedLine homeDir rest).
Proof.
  intros Hnot. pose proof (home_template_plain homeDir Hnot) as Htpl. split.
  - intros q rest Hq. unfold expandedLine, RegExp.replace.
    cbn [RegExp.replace_scan]. unfold home_alias_re at 1. cbn [RegExp.match_atoms].
    rewrite Hq, !N.eqb_refl. cbn [length Nat.sub RegExp.replace_scan].
    rewrite GetSubstitution_plain by exact Htpl.
    unfold home_template at 1. rewrite <- !app_assoc. do 3 f_equal.
    apply replace_scan_before. exact Htpl.
  - intros c rest Hc. unfold expandedLine, RegExp.replace.
    cbn [RegExp.replace_scan].
    assert (RegExp.match_atoms home_alias_re (c :: rest) = None) as ->.
    { unfold home_alias_re. cbn [RegExp.match_atoms].
      destruct (is_quote c); [|reflexivity].
      destruct Hc as [Hc|Hc]; [discriminate|].
      destruct rest as [|a [|b t]]; try reflexivity.
      - destruct (TILDE =? a); reflexivity.
      - cbn [JSString.startsWith] in Hc.
        destruct (TILDE =? a); [|reflexivity].
        destruct (SLASH =? b); [discriminate|reflexivity]. }
    f_equal. apply replace_scan_before. exact Htpl.
Qed.

(** ** What a decoded value can be *)

Section ParsedValueFacts.

Import JSON.

Lemma keyword_defined (w : string) (v0 : value) (s : jsstring) (v : value) (r : jsstring) :
  is_defined v0 = true -> keyword w v0 s = Some (v, r) -> is_defined v = true.
Proof.
  unfold keyword. intros H0 H. destruct (JSString.startsWith (js w) s); [|discriminate].
  injection H as <- _. exact H0.
Qed.

Lemma parse_number_defined (s : jsstring) (v : value) (r : jsstring) :
  parse_number s = Some (v, r) -> is_defined v = true.
Proof.
  unfold parse_number. intros H.
  destruct (match s with [] => (false, s) | c :: t => if c =? 45 then (true, t) else (false, s) end)
    as [neg s1].
  destruct (read_digits s1) as [int s2].
  destruct (bad_int int); [discriminate|].
  destruct (read_fraction s2) as [s3|]; [|discriminate].
  destruct (read_exponent s3) as [s4|]; [|discriminate].
  destruct (length s4 =? length s2)%nat; injection H as <- _; reflexivity.
Qed.

(** The parser builds strings, numbers, keywords, arrays and objects. *)
Lemma parse_value_defined (fuel : nat) :
  (forall s v r, parse_value fuel s = Some (v, r) -> is_defined v = true)
  /\ (forall s v r, parse_elements fuel s = Some (v, r) -> is_defined v = true)
  /\ (forall s acc v r, parse_members fuel s acc = Some (v, r) -> is_defined v = true).
Proof.
  induction fuel as [|f (IHv & IHe & IHm)]; [repeat split; discriminate|].
  split; [|split].
  - intros s v r H. cbn [parse_value] in H.
    destruct (skip_ws s) as [|c t]; [discriminate|].
    destruct (c =? DQUOTE).
    { destruct (parse_units t) as [[str rest]|]; [|discriminate].
      injection H as <- _. reflexivity. }
    destruct (c =? 91).
    { destruct (skip_ws t) as [|d r0]; [discriminate|].
      destruct (d =? 93); [injection H as <- _; reflexivity|].
      eapply IHe. exact H. }
    destruct (c =? 123).
    { destruct (skip_ws t) as [|d r0]; [discriminate|].
      destruct (d =? 125); [injection H as <- _; reflexivity|].
      eapply IHm. exact H. }
    destruct (c =? 110); [eapply keyword_defined; [|exact H]; reflexivity|].
    destruct (c =? 116); [eapply keyword_defined; [|exact H]; reflexivity|].
    destruct (c =? 102); [eapply keyword_defined; [|exact H]; reflexivity|].
    eapply parse_number_defined. exact H.
  - intros s v r H. cbn [parse_elements] in H.
    destruct (parse_value f s) as [[v0 r0]|]; [|discriminate].
    destruct (skip_ws r0) as [|d r1]; [discriminate|].
    destruct (d =? 93); [injection H as <- _; reflexivity|].
    destruct (d =? 44); [|discriminate].
    destruct (parse_elements f r1) as [[[] r2]|]; try discriminate.
    injection H as <- _. reflexivity.
  - intros s acc v r H. cbn [parse_members] in H.
    destruct (skip_ws s) as [|q t]; [discriminate|].
    destruct (q =? DQUOTE); [|discriminate].
    destruct (parse_units t) as [[k r0]|]; [|discriminate].
    destruct (skip_ws r0) as [|colon r1]; [discriminate|].
    destruct (colon =? 58); [|discriminate].
    destruct (parse_value f r1) as [[v0 r2]|]; [|discriminate].
    destruct (skip_ws r2) as [|d r3]; [discriminate|].
    destruct (d =? 125); [injection H as <- _; reflexivity|].
    destruct (d =? 44); [|discriminate].
    eapply IHm. exact H.
Qed.

Lemma parse_defined (text : jsstring) (v : value) :
  JSON.parse text = Normal v -> is_defined v = true.
Proof.
  unfold JSON.parse. intros H.
  destruct (parse_value _ text) as [[v0 rest]|] eqn:E; [|discriminate].
  destruct (skip_ws rest); [|discriminate]. injection H as <-.
  eapply (proj1 (parse_value_defined _)). exact E.
Qed.

End ParsedValueFacts.

(** X8. An undefined result is never the decoding of a payload.  When
    the decoder returns undefined, either the raw standard output holds no
    sentinel token, and is returned unchanged, or JSON.parse rejects the
    payload after the first token: no text decodes to undefined. *)
Theorem undefined_is_never_decoded (rawStdout stdoutClean : jsstring) :
  decode rawStdout = Normal (VUndefined, stdoutClean) ->
  (absent returnMarker rawStdout /\ stdoutClean = rawStdout)
  \/ (exists before payload after e,
        rawStdout = before ++ returnMarker ++ payload ++ line_rest after
        /\ first_occurrence returnMarker rawStdout before
        /\ (LF ∉ payload)
        /\ JSON.parse payload = Throw e
        /\ stdoutClean = before ++ default [] after).
Proof.
  intros Hd. destruct (absent_dec returnMarker rawStdout) as [Habs|Hocc].
  - left. split; [exact Habs|]. rewrite (decode_absent _ Habs) in Hd. congruence.
  - right.
    destruct (first_sentinel_exists rawStdout Hocc)
      as (before & payload & after & E & Hfirst & Hnot).
    pose proof Hfirst as Hfirst'. rewrite E in Hfirst'.
    pose proof (decode_at_first before payload after Hfirst' Hnot) as Hd'.
    rewrite <- E, Hd in Hd'. injection Hd' as Hv Hc.
    destruct (JSON.parse payload) as [v|e] eqn:Hp.
    + cbn [value_or_undefined] in Hv. apply parse_defined in Hp.
      rewrite <- Hv in Hp. discriminate.
    + exists before, payload, after, e. repeat split; try assumption; apply Hfirst.
Qed.

(** ** Values that JSON does not keep whole *)

Section JsonifiedFacts.

Import JSON.











End JsonifiedFacts.


(** ** JSON.stringify with indentation: the parser reads it back *)

Section IndentedFacts.

Import JSON.

Lemma enclose_compact (stepback : jsstring) (opening closing : N) (partial : list jsstring) :
  enclose [] stepback opening closing partial
  = [opening] ++ JSString.join [44] partial ++ [closing].
Proof. destruct partial; reflexivity. Qed.

(** Without gap the indented text is the compact text. *)
Lemma SerializeIndented_compact (v : value) :
  forall indent, SerializeIndented [] indent v = SerializeJSONProperty v.
Proof.
  induction v as [| | |b|z| |lit|s|l IH|ms IH] using value_nested_ind;
    intros indent; try reflexivity.
  - cbn [SerializeIndented SerializeJSONProperty]. rewrite enclose_compact.
    do 4 f_equal. induction IH as [|x l Hx _ IHl]; [reflexivity|].
    rewrite Hx, IHl. reflexivity.
  - cbn [SerializeIndented SerializeJSONProperty]. rewrite enclose_compact.
    do 4 f_equal. induction IH as [|[k x] ms Hx _ IHl]; [reflexivity|].
    cbn [snd] in Hx. rewrite Hx, IHl. reflexivity.
Qed.

End IndentedFacts.

(** ** The indented text is read back *)

Section IndentedRoundTrip.

Import JSON.

Lemma skip_ws_blank (b s : jsstring) : blank b -> skip_ws (b ++ s) = skip_ws s.
Proof.
  induction 1 as [|c b Hc _ IH]; [reflexivity|].
  cbn [app skip_ws]. rewrite Hc. exact IH.
Qed.

Lemma parse_value_blank (fuel : nat) (b s : jsstring) :
  blank b -> parse_value fuel (b ++ s) = parse_value fuel s.
Proof.
  intros Hb. destruct fuel as [|f]; [reflexivity|].
  cbn [parse_value]. rewrite (skip_ws_blank b s Hb). reflexivity.
Qed.

Lemma parse_elements_blank (fuel : nat) (b s : jsstring) :
  blank b -> parse_elements fuel (b ++ s) = parse_elements fuel s.
Proof.
  intros Hb. destruct fuel as [|f]; [reflexivity|].
  cbn [parse_elements]. rewrite (parse_value_blank f b s Hb). reflexivity.
Qed.

Lemma parse_members_blank (fuel : nat) (b s : jsstring) (acc : list (jsstring * value)) :
  blank b -> parse_members fuel (b ++ s) acc = parse_members fuel s acc.
Proof.
  intros Hb. destruct fuel as [|f]; [reflexivity|].
  cbn [parse_members]. rewrite (skip_ws_blank b s Hb). reflexivity.
Qed.

Lemma ends_number_break (c : N) (rest : jsstring) :
  c = LF \/ c = 44 -> ends_number (c :: rest).
Proof. intros [-> | ->]; repeat split; discriminate. Qed.

Lemma blank_app (a b : jsstring) : blank a -> blank b -> blank (a ++ b).
Proof. intros Ha Hb. apply Forall_app. split; assumption. Qed.

Lemma blank_LF (b : jsstring) : blank b -> blank (LF :: b).
Proof. intros Hb. constructor; [reflexivity|exact Hb]. Qed.

Lemma SerializeIndented_VArr (gap indent : jsstring) (l : list value) :
  SerializeIndented gap indent (VArr l)
  = Some (enclose gap indent 91 93 (map (element_indented gap (indent ++ gap)) l)).
Proof.
  cbn [SerializeIndented]. do 2 f_equal.
  induction l as [|x l IH]; [reflexivity|].
  cbn [map]. rewrite <- IH. unfold element_indented.
  destruct (SerializeIndented gap (indent ++ gap) x); reflexivity.
Qed.

Lemma SerializeIndented_VObj (gap indent : jsstring) (ms : list (jsstring * value)) :
  Forall (fun kv => is_Some (SerializeIndented gap (indent ++ gap) (snd kv))) ms ->
  SerializeIndented gap indent (VObj ms)
  = Some (enclose gap indent 123 125 (map (member_indented gap (indent ++ gap)) ms)).
Proof.
  intros H. cbn [SerializeIndented]. do 2 f_equal.
  induction H as [|[k x] ms [t Ht] _ IH]; [reflexivity|].
  cbn [map]. rewrite <- IH. unfold member_indented, element_indented. cbn [fst snd] in *.
  rewrite Ht. reflexivity.
Qed.

Lemma roundtrips_element_indented (gap ind : jsstring) (v : value) :
  roundtrips_indented gap v -> blank ind ->
  starts_value (element_indented gap ind v)
  /\ forall fuel rest,
       (length (element_indented gap ind v) <= fuel)%nat -> ends_number rest ->
       parse_value fuel (element_indented gap ind v ++ rest) = Some (v, rest).
Proof.
  intros H Hind. destruct (H ind Hind) as (t & E & Hs & Hp).
  unfold element_indented. rewrite E. split; assumption.
Qed.

Lemma parse_elements_indented (gap ind stepback : jsstring) (l : list value) :
  blank ind -> blank stepback ->
  l <> [] -> Forall (roundtrips_indented gap) l ->
  forall fuel rest,
    (1 + length (JSString.join (44%N :: LF :: ind) (map (element_indented gap ind) l))
     <= fuel)%nat ->
    parse_elements fuel
      (JSString.join (44 :: LF :: ind) (map (element_indented gap ind) l)
         ++ LF :: stepback ++ 93 :: rest)
    = Some (VArr l, rest).
Proof.
  intros Hind Hstep Hne Hall. induction Hall as [|x l Hx Hl IH]; [congruence|].
  intros fuel rest Hfuel.
  destruct (roundtrips_element_indented gap ind x Hx Hind) as (_ & Hparse).
  destruct fuel as [|f]; [lia|]. cbn [parse_elements].
  destruct l as [|y l].
  - cbn [map JSString.join] in *.
    rewrite Hparse; [|lia|apply ends_number_break; auto].
    change (LF :: stepback ++ 93 :: rest) with ((LF :: stepback) ++ 93 :: rest).
    rewrite skip_ws_blank by (apply blank_LF; exact Hstep).
    reflexivity.
  - cbn [map] in *. rewrite join_cons2 in *. rewrite !length_app in Hfuel.
    rewrite <- !app_assoc. cbn [app].
    rewrite Hparse; [|lia|apply ends_number_break; auto].
    cbn [skip_ws]. change (is_json_ws 44) with false. cbn iota.
    change (44 =? 93) with false. change (44 =? 44) with true. cbn iota.
    change (LF :: ind ++ ?x) with ((LF :: ind) ++ x).
    rewrite parse_elements_blank by (apply blank_LF; exact Hind).
    rewrite (IH ltac:(discriminate) f rest); [reflexivity|].
    cbn [length app] in Hfuel. lia.
Qed.

Lemma member_indented_eq (gap ind : jsstring) (k : jsstring) (x : value) (rest : jsstring) :
  gap <> [] ->
  member_indented gap ind (k, x) ++ rest
  = DQUOTE :: quote_units k ++ DQUOTE :: 58 :: 32 :: element_indented gap ind x ++ rest.
Proof.
  intros Hgap. unfold member_indented, QuoteJSONString, member_colon.
  destruct gap; [congruence|]. cbn [fst snd app].
  rewrite <- !app_assoc. reflexivity.
Qed.

Lemma parse_members_indented (gap ind stepback : jsstring) (ms : list (jsstring * value)) :
  gap <> [] -> blank ind -> blank stepback ->
  ms <> [] -> Forall (fun kv => roundtrips_indented gap (snd kv)) ms ->
  forall acc fuel rest,
    keys_in_order (map fst (acc ++ ms)) = true ->
    (1 + length (JSString.join (44%N :: LF :: ind) (map (member_indented gap ind) ms))
     <= fuel)%nat ->
    parse_members fuel
      (JSString.join (44 :: LF :: ind) (map (member_indented gap ind) ms)
         ++ LF :: stepback ++ 125 :: rest) acc
    = Some (VObj (acc ++ ms), rest).
Proof.
  intros Hgap Hind Hstep Hne Hall. induction Hall as [|[k x] ms Hx Hms IH]; [congruence|].
  intros acc fuel rest Hkeys Hfuel. cbn [snd] in Hx.
  destruct (roundtrips_element_indented gap ind x Hx Hind) as (_ & Hparse).
  assert (CreateDataProperty acc k x = acc ++ [(k, x)]) as Hset.
  { apply CreateDataProperty_append. rewrite map_app in Hkeys. cbn [map fst] in Hkeys.
    eapply keys_in_order_app_inv. exact Hkeys. }
  assert (length (element_indented gap ind x)
          <= length (member_indented gap ind (k, x)))%nat as Hlen.
  { unfold member_indented. cbn [fst snd]. rewrite !length_app. lia. }
  destruct fuel as [|f]; [lia|]. cbn [parse_members].
  destruct ms as [|kv ms].
  - cbn [map JSString.join] in *. rewrite member_indented_eq by exact Hgap.
    cbn [skip_ws]. change (is_json_ws DQUOTE) with false. cbn iota.
    change (DQUOTE =? DQUOTE) with true. cbn iota.
    rewrite parse_quote_units.
    cbn [skip_ws]. change (is_json_ws 58) with false. cbn iota.
    change (58 =? 58) with true. cbn iota.
    change (32 :: ?x) with ([32] ++ x).
    rewrite parse_value_blank by (repeat constructor).
    rewrite Hparse; [|lia|apply ends_number_break; auto].
    change (LF :: stepback ++ 125 :: rest) with ((LF :: stepback) ++ 125 :: rest).
    rewrite skip_ws_blank by (apply blank_LF; exact Hstep).
    cbn [skip_ws]. change (is_json_ws 125) with false. cbn iota.
    change (125 =? 125) with true. cbn iota.
    rewrite Hset. reflexivity.
  - cbn [map] in *. rewrite join_cons2 in *. rewrite !length_app in Hfuel.
    rewrite <- !app_assoc. rewrite member_indented_eq by exact Hgap.
    cbn [skip_ws]. change (is_json_ws DQUOTE) with false. cbn iota.
    change (DQUOTE =? DQUOTE) with true. cbn iota.
    rewrite parse_quote_units.
    cbn [skip_ws]. change (is_json_ws 58) with false. cbn iota.
    change (58 =? 58) with true. cbn iota.
    change (32 :: ?x) with ([32] ++ x).
    rewrite parse_value_blank by (repeat constructor).
    cbn [app].
    rewrite Hparse; [|lia|apply ends_number_break; auto].
    cbn [skip_ws]. change (is_json_ws 44) with false. cbn iota.
    change (44 =? 125) with false. change (44 =? 44) with true. cbn iota.
    change (LF :: ind ++ ?x) with ((LF :: ind) ++ x).
    rewrite parse_members_blank by (apply blank_LF; exact Hind).
    rewrite Hset. rewrite IH.
    + rewrite <- app_assoc. reflexivity.
    + discriminate.
    + rewrite <- app_assoc. exact Hkeys.
    + cbn [length app] in Hfuel. lia.
Qed.

Lemma starts_value_join (sep : jsstring) (x : jsstring) (l : list jsstring) (rest : jsstring) :
  starts_value x -> exists c t, JSString.join sep (x :: l) ++ rest = c :: t
                                /\ is_json_ws c = false /\ c <> 93.
Proof.
  intros (c & t & -> & Hc). destruct l as [|y l].
  - cbn [JSString.join app]. eauto.
  - rewrite join_cons2. cbn [app]. eauto.
Qed.

Lemma plain_roundtrips_indented (gap : jsstring) (v : value) :
  gap <> [] -> blank gap -> plain v = true -> roundtrips_indented gap v.
Proof.
  intros Hgap Hblank.
  induction v as [| | |b|z| |lit|s|l IH|ms IH] using value_nested_ind;
    intros Hplain; try discriminate Hplain.
  - intros indent _. destruct (plain_roundtrips VNull eq_refl) as (t & E & Hs & _ & Hp).
    exists t. split; [exact E|]. split; assumption.
  - intros indent _. destruct (plain_roundtrips (VBool b) eq_refl) as (t & E & Hs & _ & Hp).
    exists t. split; [destruct b; exact E|]. split; assumption.
  - intros indent _. destruct (plain_roundtrips (VNum z) Hplain) as (t & E & Hs & _ & Hp).
    exists t. split; [exact E|]. split; assumption.
  - intros indent _. destruct (plain_roundtrips (VStr s) eq_refl) as (t & E & Hs & _ & Hp).
    exists t. split; [exact E|]. split; assumption.
  - apply plain_VArr in Hplain.
    assert (Forall (roundtrips_indented gap) l) as Hall.
    { clear -IH Hplain. induction IH; inversion Hplain; subst; constructor; auto. }
    intros indent Hindent.
    assert (blank (indent ++ gap)) as Hind by (apply blank_app; assumption).
    eexists. split; [apply SerializeIndented_VArr|].
    destruct Hall as [|x l Hx Hl].
    + cbn [map enclose]. split; [eexists _, _; repeat split; discriminate|].
      intros [|f] rest Hfuel _; [cbn in Hfuel; lia|]. reflexivity.
    + cbn [map]. unfold enclose. destruct gap as [|g gap']; [congruence|].
      set (gap := g :: gap') in *.
      set (texts := element_indented gap (indent ++ gap) x
                    :: map (element_indented gap (indent ++ gap)) l).
      split; [eexists _, _; repeat split; discriminate|].
      intros [|f] rest Hfuel _; [cbn in Hfuel; lia|].
      change ([44; LF] ++ indent ++ gap) with (44 :: LF :: indent ++ gap) in *.
      rewrite <- !app_assoc. cbn [app parse_value skip_ws].
      change (is_json_ws 91) with false. cbn iota.
      change (91 =? DQUOTE) with false. change (91 =? 91) with true. cbn iota.
      rewrite (app_assoc indent gap).
      change (LF :: (indent ++ gap) ++ ?x) with ((LF :: indent ++ gap) ++ x).
      rewrite skip_ws_blank by (apply blank_LF; exact Hind).
      destruct (roundtrips_element_indented gap (indent ++ gap) x Hx Hind) as (Hstart & _).
      destruct (starts_value_join (44 :: LF :: indent ++ gap) _
                  (map (element_indented gap (indent ++ gap)) l)
                  (LF :: indent ++ 93 :: rest) Hstart) as (c & t & E & Hc & Hc93).
      fold texts in E. rewrite E. cbn [skip_ws]. rewrite Hc, <- E.
      destruct (N.eqb_spec c 93); [congruence|].
      rewrite parse_elements_blank by (apply blank_LF; exact Hind).
      apply (parse_elements_indented gap (indent ++ gap) indent (x :: l));
        [exact Hind|exact Hindent|discriminate|constructor; assumption|].
      subst texts. cbn [map].
      repeat (rewrite length_app in Hfuel || cbn [length] in Hfuel). lia.
  - apply plain_VObj in Hplain as [Hkeys Hplain].
    assert (Forall (fun kv => roundtrips_indented gap (snd kv)) ms) as Hall.
    { clear -IH Hplain. induction IH; inversion Hplain; subst; constructor; auto. }
    intros indent Hindent.
    assert (blank (indent ++ gap)) as Hind by (apply blank_app; assumption).
    assert (Forall (fun kv => is_Some (SerializeIndented gap (indent ++ gap) (snd kv))) ms)
      as Hsome.
    { clear -Hall Hind. induction Hall as [|kv ms Hx _ IHl]; constructor; [|exact IHl].
      destruct (Hx _ Hind) as (t & E & _). exists t. exact E. }
    eexists. split; [apply SerializeIndented_VObj; exact Hsome|].
    destruct Hall as [|[k x] ms Hx Hms].
    + cbn [map enclose]. split; [eexists _, _; repeat split; discriminate|].
      intros [|f] rest Hfuel _; [cbn in Hfuel; lia|]. reflexivity.
    + cbn [map]. unfold enclose. destruct gap as [|g gap'] eqn:Egap; [congruence|].
      rewrite <- Egap in *.
      set (texts := member_indented gap (indent ++ gap) (k, x)
                    :: map (member_indented gap (indent ++ gap)) ms).
      split; [eexists _, _; repeat split; discriminate|].
      intros [|f] rest Hfuel _; [cbn in Hfuel; lia|].
      change ([44; LF] ++ indent ++ gap) with (44 :: LF :: indent ++ gap) in *.
      rewrite <- !app_assoc. cbn [app parse_value skip_ws].
      change (is_json_ws 123) with false. cbn iota.
      change (123 =? DQUOTE) with false. change (123 =? 91) with false.
      change (123 =? 123) with true. cbn iota.
      rewrite (app_assoc indent gap).
      change (LF :: (indent ++ gap) ++ ?x) with ((LF :: indent ++ gap) ++ x).
      rewrite skip_ws_blank by (apply blank_LF; exact Hind).
      assert (exists t, JSString.join (44 :: LF :: indent ++ gap) texts = DQUOTE :: t)
        as [t Et].
      { unfold texts. destruct (map _ ms).
        - cbn [JSString.join]. unfold member_indented, QuoteJSONString. eexists. reflexivity.
        - rewrite join_cons2. unfold member_indented, QuoteJSONString. eexists. reflexivity. }
      rewrite Et. cbn [app skip_ws]. change (is_json_ws DQUOTE) with false. cbn iota.
      change (DQUOTE =? 125) with false. cbn iota.
      change (DQUOTE :: t ++ ?x) with ((DQUOTE :: t) ++ x). rewrite <- Et.
      change (LF :: (indent ++ gap) ++ ?x) with ((LF :: indent ++ gap) ++ x).
      rewrite parse_members_blank by (apply blank_LF; exact Hind).
      apply (parse_members_indented gap (indent ++ gap) indent ((k, x) :: ms));
        [rewrite Egap; discriminate|exact Hind|exact Hindent|discriminate
        |constructor; assumption|exact Hkeys|].
      subst texts. cbn [map].
      repeat (rewrite length_app in Hfuel || cbn [length] in Hfuel). lia.
Qed.

End IndentedRoundTrip.

(** ** The tool handler *)

Section HandlerFacts.

Import JSON.

Lemma blank_repeat (n : nat) : blank (repeat 32 n).
Proof. induction n; constructor; [reflexivity|assumption]. Qed.

Lemma parse_stringify_spaced (v : value) (space : nat) :
  (1 <= space)%nat -> plain v = true ->
  exists t, stringify_spaced v space = Some t /\ JSON.parse t = Normal v.
Proof.
  intros Hspace Hplain. unfold stringify_spaced.
  assert (repeat 32 (Nat.min 10 space) <> []) as Hgap.
  { destruct (Nat.min 10 space) eqn:E; [lia|discriminate]. }
  destruct (plain_roundtrips_indented _ v Hgap (blank_repeat _) Hplain [] (Forall_nil_2 _))
    as (t & E & _ & Hparse).
  exists t. split; [exact E|]. unfold JSON.parse.
  pose proof (Hparse (2 * length t + 2)%nat [] ltac:(lia) I) as H.
  rewrite app_nil_r in H. rewrite H. reflexivity.
Qed.

Lemma SerializeIndented_skips_undefined (gap indent : jsstring) (k : jsstring)
    (ms : list (jsstring * value)) :
  SerializeIndented gap indent (VObj ((k, VUndefined) :: ms))
  = SerializeIndented gap indent (VObj ms).
Proof. reflexivity. Qed.

Lemma tool_handler_unfold (describe : exn -> jsstring) (h : Host) (args : RunSkillCodeParams)
    (w : world) :
  tool_handler describe h args w
  = match runSkillCode h args w with
    | (Normal result, w') =>
        (Normal {| isError := None;
                   content := [{| content_type := js "text";
                                  content_text := stringify_spaced (result_object result) 2 |}] |},
         w')
    | (Throw error, w') =>
        (Normal {| isError := Some true;
                   content := [{| content_type := js "text";
                                  content_text :=
                                    Some (js "Error executing code: " ++ describe error) |}] |},
         w')
    end.
Proof.
  unfold tool_handler, try_catch_async, async_bind, async_ret.
  change (runSkillCode h {| code := code args; description := description args |})
    with (runSkillCode h args).
  destruct (runSkillCode h args w) as [[r|e] w']; reflexivity.
Qed.

Lemma stringify_spaced_object (ms : list (jsstring * value)) (space : nat) :
  is_Some (stringify_spaced (VObj ms) space).
Proof. unfold stringify_spaced. cbn [SerializeIndented]. eexists. reflexivity. Qed.

(** X10. The handler of the tool never rejects.  Whatever the host does,
    the handler fulfils with a response of one text content whose text is
    defined, and leaves the world as the engine left it.  The response is
    flagged as an error exactly when the engine threw, and then the text is
    the fixed prefix followed by the description of the thrown error;
    otherwise the flag is not set at all. *)
Theorem handler_never_rejects (describe : exn -> jsstring) (h : Host)
    (args : RunSkillCodeParams) (w : world) :
  exists flag text,
    tool_handler describe h args w
    = (Normal {| isError := flag;
                 content := [{| content_type := js "text"; content_text := Some text |}] |},
       snd (runSkillCode h args w))
    /\ (flag = None \/ flag = Some true)
    /\ (flag = None <-> exists result, fst (runSkillCode h args w) = Normal result)
    /\ (forall error, fst (runSkillCode h args w) = Throw error ->
          flag = Some true /\ text = js "Error executing code: " ++ describe error).
Proof.
  rewrite tool_handler_unfold.
  destruct (runSkillCode h args w) as [[result|error] w'] eqn:E; cbn [fst snd].
  - destruct (stringify_spaced_object
                [(js "returnValue", returnValue result);
                 (js "stdout", VStr (stdout result));
                 (js "stderr", VStr (stderr result))] 2) as [text Et].
    exists None, text. unfold result_object. rewrite Et.
    split; [reflexivity|]. split; [left; reflexivity|]. split.
    + split; [eauto|reflexivity].
    + intros error Herr. discriminate Herr.
  - exists (Some true), (js "Error executing code: " ++ describe error).
    split; [reflexivity|]. split; [right; reflexivity|]. split.
    + split; [discriminate|]. intros [result Hr]. discriminate Hr.
    + intros error' Herr. injection Herr as ->. split; reflexivity.
Qed.

Lemma result_text_parses (r : ExecutionResult) :
  plain (returnValue r) = true \/ returnValue r = VUndefined ->
  exists text,
    stringify_spaced (result_object r) 2 = Some text
    /\ JSON.parse text = Normal (VObj (reported_members r)).
Proof.
  intros [Hplain|Hundef].
  - assert (reported_members r = [(js "returnValue", returnValue r);
                                  (js "stdout", VStr (stdout r));
                                  (js "stderr", VStr (stderr r))]) as ->.
    { unfold reported_members. destruct (returnValue r); try discriminate Hplain; reflexivity. }
    apply (parse_stringify_spaced (result_object r) 2); [lia|].
    unfold result_object. apply plain_VObj. split; [reflexivity|].
    repeat constructor. exact Hplain.
  - unfold reported_members, result_object, stringify_spaced. rewrite Hundef.
    rewrite SerializeIndented_skips_undefined. cbn [app].
    apply (parse_stringify_spaced (VObj [(js "stdout", VStr (stdout r));
                                         (js "stderr", VStr (stderr r))]) 2); [lia|].
    apply plain_VObj. split; [reflexivity|]. repeat constructor.
Qed.

(** X11. The text of a successful response is JSON of the result.  When
    the engine returns a result whose return value is plain or undefined,
    the response carries no error flag and its text parses to an object
    with the members returnValue, stdout, stderr in this order; the member
    returnValue is missing when the return value is undefined. *)
Theorem response_text_parses_to_result (describe : exn -> jsstring) (h : Host)
    (args : RunSkillCodeParams) (w : world) (r : ExecutionResult) :
  fst (runSkillCode h args w) = Normal r ->
  plain (returnValue r) = true \/ returnValue r = VUndefined ->
  exists text,
    fst (tool_handler describe h args w)
    = Normal {| isError := None;
                content := [{| content_type := js "text"; content_text := Some text |}] |}
    /\ JSON.parse text = Normal (VObj (reported_members r)).
Proof.
  intros Hrun Hvalue. destruct (result_text_parses r Hvalue) as (text & Et & Hp).
  exists text. split; [|exact Hp].
  rewrite tool_handler_unfold. destruct (runSkillCode h args w) as [[r'|e] w'].
  - cbn [fst] in Hrun |- *. injection Hrun as ->. rewrite Et. reflexivity.
  - discriminate Hrun.
Qed.

(** X12. A crash of the submitted code is no error of the tool.  When the
    workspace and the program file were written and the child process was
    started and read to its end, then whatever the child wrote to its
    streams and whatever its exit code, the engine returns a result with
    the standard error text as it was read, and the handler answers
    without the error flag. *)
Theorem crash_of_the_code_is_no_tool_error (describe : exn -> jsstring) (h : Host)
    (args : RunSkillCodeParams) (w : world) (tmpDir out err : jsstring) (exitCode : Z) :
  mkdtemp_answer h (tmp_prefix h) = Normal tmpDir ->
  writeFile_answer h (tmp_file h tmpDir) (program_of h (code args)) = Normal tt ->
  spawn_answer h [js "bun"; js "run"; tmp_file h tmpDir] (process_cwd h) (child_env h)
  = Normal {| proc_stdout := Normal out; proc_stderr := Normal err;
              proc_exited := Normal exitCode |} ->
  exists rv clean text,
    decode out = Normal (rv, clean)
    /\ fst (runSkillCode h args w)
       = Normal {| returnValue := rv; stdout := clean; stderr := err |}
    /\ fst (tool_handler describe h args w)
       = Normal {| isError := None;
                   content := [{| content_type := js "text"; content_text := Some text |}] |}.
Proof.
  intros Hmk Hw Hs. destruct (decode_total out) as (rv & clean & Hd).
  assert (fst (runSkillCode h args w)
          = Normal {| returnValue := rv; stdout := clean; stderr := err |}) as Hrun.
  { unfold runSkillCode, runSkillCodeImpl. cbn [execute defaultExecutor].
    rewrite execute_unfold, Hmk. cbn zeta. rewrite execute_body_unfold. cbn zeta.
    unfold tmp_file in Hw, Hs. rewrite Hw, Hs.
    cbn [proc_stdout proc_stderr proc_exited]. rewrite Hd. reflexivity. }
  destruct (stringify_spaced_object
              [(js "returnValue", rv); (js "stdout", VStr clean); (js "stderr", VStr err)] 2)
    as [text Et].
  exists rv, clean, text. split; [exact Hd|]. split; [exact Hrun|].
  rewrite tool_handler_unfold. destruct (runSkillCode h args w) as [[r'|e] w'].
  - cbn [fst] in Hrun |- *. injection Hrun as ->. unfold result_object.
    cbn [returnValue stdout stderr]. rewrite Et. reflexivity.
  - discriminate Hrun.
Qed.


End HandlerFacts.

(** ** The further properties at concrete inputs *)


Lemma unwritten_program_is_not_run_witness :
  let final := DefaultTypeScriptExecutor_execute host_with_full_disk (js "return 42;")
                 (js "/work/project") empty_world in
  mkdtemp_answer host_with_full_disk (tmp_prefix host_with_full_disk) = Normal sample_tmpDir
  /\ writeFile_answer host_with_full_disk (tmp_file host_with_full_disk sample_tmpDir)
       (program_of host_with_full_disk (js "return 42;"))
     = Throw (SystemError (js "ENOSPC"))
  /\ fst final = Throw (SystemError (js "ENOSPC"))
  /\ trace (snd final)
     = trace empty_world
       ++ [CallMkdtemp (tmp_prefix host_with_full_disk);
           CallWriteFile (tmp_file host_with_full_disk sample_tmpDir)
             (program_of host_with_full_disk (js "return 42;"));
           CallRm sample_tmpDir true true].
Proof.
  intros final. split; [reflexivity|]. split; [reflexivity|].
  exact (unwritten_program_is_not_run host_with_full_disk (js "return 42;")
           (js "/work/project") sample_tmpDir empty_world (SystemError (js "ENOSPC"))
           eq_refl eq_refl).
Defined.


Lemma code_without_imports_is_wrapped_whole_witness :
  let code := js "const n = 41;" ++ [LF] ++ js "return n + 1;" in
  Forall (fun line => RegExp.test import_re line = false) (JSString.split LF code)
  /\ imports (split_source (js "/home/u") code) = []
  /\ wrappedCode (imports (split_source (js "/home/u") code))
       (codeLines (split_source (js "/home/u") code))
     = [LF] ++ harness_open ++ code ++ harness_close.
Proof.
  intros code.
  assert (Forall (fun line => RegExp.test import_re line = false) (JSString.split LF code))
    as H by (repeat constructor).
  split; [exact H|].
  destruct (code_without_imports_is_wrapped_whole (js "/home/u") code H) as (Hi & _ & Hw).
  split; [exact Hi|exact Hw].
Defined.

Lemma line_without_alias_unchanged_witness :
  let line := js "import { z } from 'zod';" in
  absent single_quoted_alias line
  /\ absent double_quoted_alias line
  /\ expandedLine (js "/home/u") line = line.
Proof.
  intros line.
  assert (absent single_quoted_alias line) as H1
    by (apply (proj1 (indexOf_absent _ _)); reflexivity).
  assert (absent double_quoted_alias line) as H2
    by (apply (proj1 (indexOf_absent _ _)); reflexivity).
  split; [exact H1|]. split; [exact H2|].
  exact (line_without_alias_unchanged (js "/home/u") line H1 H2).
Defined.

Lemma expansion_unfolds_witness :
  (DOLLAR ∉ js "/home/u")
  /\ expandedLine (js "/home/u") (SQUOTE :: TILDE :: SLASH :: js "lib/x.js';")
     = [SQUOTE] ++ js "/home/u" ++ [SLASH] ++ expandedLine (js "/home/u") (js "lib/x.js';")
  /\ expandedLine (js "/home/u") (js "from '~/lib';")
     = 102 :: expandedLine (js "/home/u") (js "rom '~/lib';").
Proof.
  assert (DOLLAR ∉ js "/home/u") as H.
  { intros Hin. repeat (apply elem_of_cons in Hin as [Hin|Hin]; [discriminate Hin|]).
    inversion Hin. }
  split; [exact H|].
  destruct (expansion_unfolds (js "/home/u") H) as [Hq Hc].
  split.
  - exact (Hq SQUOTE (js "lib/x.js';") eq_refl).
  - exact (Hc 102 (js "rom '~/lib';") (or_introl eq_refl)).
Defined.

Lemma undefined_is_never_decoded_witness :
  let raw := js "log" ++ [LF] ++ js "__RETURN_VALUE__:undefined" ++ [LF] in
  decode raw = Normal (VUndefined, js "log" ++ [LF])
  /\ ((absent returnMarker raw /\ js "log" ++ [LF] = raw)
      \/ (exists before payload after e,
            raw = before ++ returnMarker ++ payload ++ line_rest after
            /\ first_occurrence returnMarker raw before
            /\ (LF ∉ payload)
            /\ JSON.parse payload = Throw e
            /\ js "log" ++ [LF] = before ++ default [] after)).
Proof.
  intros raw. split; [reflexivity|].
  exact (undefined_is_never_decoded raw (js "log" ++ [LF]) eq_refl).
Defined.


Lemma response_text_parses_to_result_witness :
  let r := {| returnValue := VObj [(js "7", VArr [VNum (-42); VNull]);
                                   (js "title", VStr (js "done"))];
              stdout := js "hello" ++ [LF];
              stderr := [] |} in
  fst (runSkillCode (host_running logging_body) sample_params empty_world) = Normal r
  /\ plain (returnValue r) = true
  /\ exists text,
       fst (tool_handler sample_describe (host_running logging_body) sample_params empty_world)
       = Normal {| isError := None;
                   content := [{| content_type := js "text"; content_text := Some text |}] |}
       /\ JSON.parse text = Normal (VObj (reported_members r)).
Proof.
  intros r. split; [reflexivity|]. split; [reflexivity|].
  exact (response_text_parses_to_result sample_describe (host_running logging_body)
           sample_params empty_world r eq_refl (or_introl eq_refl)).
Defined.

Lemma crash_of_the_code_is_no_tool_error_witness :
  spawn_answer host_with_crashed_child
    [js "bun"; js "run"; tmp_file host_with_crashed_child sample_tmpDir]
    (process_cwd host_with_crashed_child) (child_env host_with_crashed_child)
  = Normal {| proc_stdout := Normal (js "step 1" ++ [LF]);
              proc_stderr := Normal (js "error: boom");
              proc_exited := Normal 1%Z |}
  /\ exists rv clean text,
       decode (js "step 1" ++ [LF]) = Normal (rv, clean)
       /\ fst (runSkillCode host_with_crashed_child sample_params empty_world)
          = Normal {| returnValue := rv; stdout := clean; stderr := js "error: boom" |}
       /\ fst (tool_handler sample_describe host_with_crashed_child sample_params empty_world)
          = Normal {| isError := None;
                      content := [{| content_type := js "text";
                                     content_text := Some text |}] |}.
Proof.
  split; [reflexivity|].
  exact (crash_of_the_code_is_no_tool_error sample_describe host_with_crashed_child
           sample_params empty_world sample_tmpDir (js "step 1" ++ [LF]) (js "error: boom") 1%Z
           eq_refl eq_refl eq_refl).
Defined.


(** * An empty HOME *)

(** X20. An empty HOME counts as no HOME.  When the environment of the
    host has HOME set to the empty string, the engine expands the import
    aliases with the home directory the platform reports and gives that
    directory to the child as its HOME: the calls of an execution are
    those of the lifecycle, with the program and the environment built
    from [os.homedir()]. *)
Theorem empty_home_counts_as_unset
    (h : Host) (code workingDir tmpDir : jsstring) (w : world) :
  process_env h !! js "HOME" = Some [] ->
  mkdtemp_answer h (tmp_prefix h) = Normal tmpDir ->
  let final := snd (DefaultTypeScriptExecutor_execute h code workingDir w) in
  let parsed := split_source (os_homedir h) code in
  exists k,
    (1 <= k <= 4)%nat
    /\ trace final
       = trace w ++ [CallMkdtemp (tmp_prefix h)]
         ++ take k [CallWriteFile (tmp_file h tmpDir)
                      (wrappedCode (imports parsed) (codeLines parsed));
                    CallSpawn [js "bun"; js "run"; tmp_file h tmpDir] workingDir
                      (<[js "HOME" := os_homedir h]> (process_env h));
                    CallReadStreams;
                    CallExited]
         ++ [CallRm tmpDir true true].
Proof.
  intros Hhome Hmk final parsed.
  assert (resolve_home h = os_homedir h) as Hres.
  { unfold resolve_home. rewrite Hhome. reflexivity. }
  unfold final. rewrite execute_unfold, Hmk. cbn zeta.
  match goal with |- context [execute_body h code workingDir ?f ?w1] =>
    destruct (execute_body_prefix h code workingDir tmpDir w1) as (k & Hk & E);
    change f with (tmp_file h tmpDir);
    destruct (execute_body h code workingDir (tmp_file h tmpDir) w1) as [r w2] end.
  cbn [snd] in E. subst w2. exists k. split; [exact Hk|].
  cbn [snd trace called]. unfold block_calls, program_of, child_env.
  rewrite Hres. fold parsed. rewrite <- !app_assoc. reflexivity.
Qed.

Lemma empty_home_counts_as_unset_witness :
  let h := host_with_empty_home in
  let line := js "import { a } from '~/lib/a.js';" in
  let final := snd (DefaultTypeScriptExecutor_execute h line (js "/work/project")
                      empty_world) in
  process_env h !! js "HOME" = Some []
  /\ exists k,
       (1 <= k <= 4)%nat
       /\ trace final
          = trace empty_world ++ [CallMkdtemp (tmp_prefix h)]
            ++ take k [CallWriteFile (tmp_file h sample_tmpDir)
                         (wrappedCode (imports (split_source (js "/home/u") line))
                            (codeLines (split_source (js "/home/u") line)));
                       CallSpawn [js "bun"; js "run"; tmp_file h sample_tmpDir]
                         (js "/work/project")
                         (<[js "HOME" := js "/home/u"]> (process_env h));
                       CallReadStreams;
                       CallExited]
            ++ [CallRm sample_tmpDir true true].
Proof.
  intros h line final. split; [reflexivity|].
  exact (empty_home_counts_as_unset h line (js "/work/project") sample_tmpDir
           empty_world eq_refl eq_refl).
Defined.

(** * Properties of the restructuring script *)

Section ScriptFacts.

Import Restructure.

Variable rt : Runtime.

Lemma commands_app (a b : list effect) : commands (a ++ b) = commands a ++ commands b.
Proof. apply omap_app. Qed.

(** *** How a job is taken apart *)

Lemma bind_Done {A B} (m : Job A) (k : A -> Job B) (past now : list effect) (b : B) :
  job_bind m k past = (Done b, now) ->
  exists a mid, m past = (Done a, mid) /\ k a mid = (Done b, now).
Proof.
  unfold job_bind. destruct (m past) as [[a|e] mid]; [eauto|discriminate].
Qed.

Lemma bind_run {A B} (m : Job A) (k : A -> Job B) (past mid : list effect) (a : A) :
  m past = (Done a, mid) -> job_bind m k past = k a mid.
Proof. intros E. unfold job_bind. rewrite E. reflexivity. Qed.

Lemma bind_fail {A B} (m : Job A) (k : A -> Job B) (past mid : list effect) (e : fault) :
  m past = (Failed e, mid) -> job_bind m k past = (Failed e, mid).
Proof. intros E. unfold job_bind. rewrite E. reflexivity. Qed.

Lemma section_run (title : jsstring) (past : list effect) :
  exists added, section title past = (Done tt, past ++ added) /\ commands added = [].
Proof.
  eexists. unfold section, job_bind, log. rewrite <- !app_assoc. split; reflexivity.
Qed.

(** *** The command runner *)

Lemma bd_run (args : jsstring) (past : list effect) :
  bd rt args past
  = match shell_text rt (past ++ [bd_echo args]) (bd_command args) with
    | Failed e => (Failed e, past ++ [bd_echo args; Shell (bd_command args)])
    | Done result =>
        if negb (JSString.indexOf args (js "--json") =? -1)%Z then
          match JSON.parse result with
          | Normal v => (Done v, past ++ [bd_echo args; Shell (bd_command args)])
          | Throw _ =>
              (Done (VObj [(js "id", VNull)]),
               past ++ [bd_echo args; Shell (bd_command args); bd_warning result])
          end
        else (Done (VStr result), past ++ [bd_echo args; Shell (bd_command args)])
    end.
Proof.
  unfold bd, job_bind, job_ret, log, shell, bd_command, bd_echo, bd_warning.
  destruct (shell_text rt _ _) as [result|e]; [|rewrite <- app_assoc; reflexivity].
  destruct (negb _); [|rewrite <- app_assoc; reflexivity].
  destruct (JSON.parse result); rewrite <- !app_assoc; reflexivity.
Qed.

(** What [bd] adds: the echo of the command, the command, and no further
    command. *)
Lemma bd_added (args : jsstring) (past : list effect) :
  exists tail,
    snd (bd rt args past) = past ++ bd_echo args :: Shell (bd_command args) :: tail
    /\ commands tail = []
    /\ (forall e, shell_text rt (past ++ [bd_echo args]) (bd_command args) = Failed e ->
          fst (bd rt args past) = Failed e /\ tail = [])
    /\ (forall e, fst (bd rt args past) = Failed e ->
          shell_text rt (past ++ [bd_echo args]) (bd_command args) = Failed e).
Proof.
  rewrite bd_run.
  destruct (shell_text rt (past ++ [bd_echo args]) (bd_command args)) as [result|e0].
  - destruct (negb _); [destruct (JSON.parse result)|].
    + exists []. repeat split; try reflexivity; discriminate.
    + eexists [_]. repeat split; try reflexivity; discriminate.
    + exists []. repeat split; try reflexivity; discriminate.
  - exists []. split; [reflexivity|]. split; [reflexivity|].
    split; intros e He;
      [injection He as ->; split; reflexivity|cbn [fst] in He; injection He as ->; reflexivity].
Qed.

Lemma bd_commands (args : jsstring) (past now : list effect) (r : outcome value) :
  bd rt args past = (r, now) -> commands now = commands past ++ [bd_command args].
Proof.
  intros E. destruct (bd_added args past) as (tail & Hs & Ht & _).
  rewrite E in Hs. cbn [snd] in Hs. rewrite Hs.
  change (bd_echo args :: Shell (bd_command args) :: tail)
    with ([bd_echo args; Shell (bd_command args)] ++ tail).
  rewrite !commands_app, Ht, app_nil_r. reflexivity.
Qed.


(** *** Jobs that stop at the first failed command *)

Lemma no_command_inside (added pre post : list effect) (cmd : jsstring) :
  commands added = [] -> added <> pre ++ Shell cmd :: post.
Proof.
  intros Hq E. rewrite E, commands_app in Hq. cbn in Hq.
  destruct (commands pre); discriminate Hq.
Qed.

(** A job that runs no command stops at failure. *)
Lemma stops_quiet {A} (m : Job A) :
  (forall past, exists added, snd (m past) = past ++ added /\ commands added = []) ->
  stops_at_failure rt m.
Proof.
  intros Hq past. destruct (Hq past) as (added & E & Hc). exists added.
  split; [exact E|]. intros pre cmd post e Hadd _.
  destruct (no_command_inside added pre post cmd Hc Hadd).
Qed.

Lemma stops_ret {A} (a : A) : stops_at_failure rt (job_ret a).
Proof. apply stops_quiet. intros past. exists []. rewrite app_nil_r. split; reflexivity. Qed.

Lemma stops_job_of {A} (o : outcome A) : stops_at_failure rt (job_of o).
Proof. apply stops_quiet. intros past. exists []. rewrite app_nil_r. split; reflexivity. Qed.

Lemma stops_log (message color : jsstring) : stops_at_failure rt (log message color).
Proof. apply stops_quiet. intros past. eexists [_]. split; reflexivity. Qed.

Lemma stops_shell (cmd : jsstring) : stops_at_failure rt (shell rt cmd).
Proof.
  intros past. exists [Shell cmd]. split; [reflexivity|].
  intros pre cmd' post e Hadd Hfail.
  destruct pre as [|x pre].
  - injection Hadd as <- <-. rewrite app_nil_r in Hfail. split; [exact Hfail|reflexivity].
  - injection Hadd as _ Hadd. destruct pre; discriminate Hadd.
Qed.

Lemma stops_bind {A B} (m : Job A) (k : A -> Job B) :
  stops_at_failure rt m -> (forall a, stops_at_failure rt (k a)) ->
  stops_at_failure rt (job_bind m k).
Proof.
  intros Hm Hk past. destruct (Hm past) as (a1 & E1 & H1).
  unfold job_bind. destruct (m past) as [[a|e1] mid] eqn:Em; cbn [fst snd] in *.
  - destruct (Hk a mid) as (a2 & E2 & H2). exists (a1 ++ a2).
    split; [rewrite E2, E1, app_assoc; reflexivity|].
    intros pre cmd post e Hadd Hfail.
    apply app_eq_inv in Hadd as [(mid' & Ha1 & Hrest)|(mid' & Hpre & Ha2)].
    + destruct mid' as [|x mid'].
      * rewrite app_nil_r in Ha1. cbn [app] in Hrest. subst pre.
        apply (H2 [] cmd post e); [symmetry; exact Hrest|].
        rewrite app_nil_r, E1. exact Hfail.
      * injection Hrest as <- Hpost.
        destruct (H1 pre cmd mid' e Ha1 Hfail) as [Habs _]. discriminate Habs.
    + subst pre. apply (H2 mid' cmd post e Ha2).
      rewrite E1, <- app_assoc. exact Hfail.
  - exists a1. split; [exact E1|]. intros pre cmd post e Hadd Hfail.
    destruct (H1 pre cmd post e Hadd Hfail) as [Hr Hc]. injection Hr as ->.
    split; [reflexivity|exact Hc].
Qed.

(** [try { body } catch (error) { log(...); throw error; }] *)
Lemma stops_rethrow {A} (body : Job A) (report : fault -> jsstring) (color : jsstring) :
  stops_at_failure rt body ->
  stops_at_failure rt
    (job_try_catch body (fun error => job_bind (log (report error) color)
                                        (fun _ => job_of (Failed error)))).
Proof.
  intros Hb past. destruct (Hb past) as (a1 & E1 & H1).
  unfold job_try_catch. destruct (body past) as [[a|e1] mid] eqn:Eb; cbn [fst snd] in *.
  - exists a1. split; [exact E1|]. exact H1.
  - unfold job_bind, log, job_of. cbn [fst snd]. subst mid.
    eexists (a1 ++ [_]). split; [rewrite <- app_assoc; reflexivity|].
    intros pre cmd post e Hadd Hfail.
    apply app_eq_inv in Hadd as [(mid' & Ha1 & Hrest)|(mid' & Hpre & Ha2)].
    + destruct mid' as [|x mid'].
      * cbn [app] in Hrest. discriminate Hrest.
      * injection Hrest as <- Hpost. subst post.
        destruct (H1 pre cmd mid' e Ha1 Hfail) as [Hr Hc].
        split; [exact Hr|]. rewrite commands_app, Hc. reflexivity.
    + destruct mid' as [|x mid']; [discriminate Ha2|].
      injection Ha2 as _ Ha2. destruct mid'; discriminate Ha2.
Qed.

Lemma stops_for_of {A} (l : list A) (body : A -> Job unit) :
  (forall x, stops_at_failure rt (body x)) -> stops_at_failure rt (for_of l body).
Proof.
  intros Hb. induction l as [|x l IH]; [apply stops_ret|].
  cbn [for_of]. apply stops_bind; [apply Hb|intros _; exact IH].
Qed.

Lemma stops_section (title : jsstring) : stops_at_failure rt (section title).
Proof.
  apply stops_quiet. intros past. destruct (section_run title past) as (added & E & Hc).
  exists added. rewrite E. split; [reflexivity|exact Hc].
Qed.

Lemma stops_bd (args : jsstring) : stops_at_failure rt (bd rt args).
Proof.
  unfold bd. cbn zeta. apply stops_bind; [apply stops_log|intros _].
  apply stops_bind; [apply stops_shell|intros result].
  destruct (negb _); [|apply stops_ret].
  destruct (JSON.parse result); [apply stops_ret|].
  apply stops_bind; [apply stops_log|intros _; apply stops_ret].
Qed.

Local Ltac stops :=
  repeat first
    [ apply stops_ret | apply stops_log | apply stops_section | apply stops_bd
    | apply stops_job_of
    | apply stops_bind; [|intros ?] ].

Lemma stops_closeObsoleteTasks : stops_at_failure rt (closeObsoleteTasks rt).
Proof.
  unfold closeObsoleteTasks. apply stops_bind; [apply stops_section|intros _].
  apply stops_for_of. intros task. stops.
Qed.

Lemma stops_linkRootToEpic (rootId epicId : jsstring) :
  stops_at_failure rt (linkRootToEpic rt rootId epicId).
Proof. unfold linkRootToEpic. stops. Qed.

Lemma stops_create_subtask (rootId : jsstring) (task : Subtask) (createdIds : list value) :
  stops_at_failure rt (create_subtask rt rootId task createdIds).
Proof.
  unfold create_subtask. apply stops_bind; [apply stops_log|intros _].
  apply stops_bind; [apply stops_bd|intros result].
  apply stops_bind; [apply stops_job_of|intros id].
  destruct (ToBoolean rt id); stops.
Qed.

Lemma stops_create_all (rootId : jsstring) (tasks : list Subtask) :
  forall createdIds, stops_at_failure rt (create_all rt rootId tasks createdIds).
Proof.
  induction tasks as [|task tasks IH]; intros createdIds; [apply stops_ret|].
  cbn [create_all]. apply stops_bind; [apply stops_create_subtask|intros ids; apply IH].
Qed.

Lemma stops_createSubtasks (rootId : jsstring) :
  stops_at_failure rt (createSubtasks rt rootId).
Proof.
  unfold createSubtasks. apply stops_bind; [apply stops_section|intros _].
  apply stops_create_all.
Qed.

Lemma stops_migrateExistingTasks (rootId : jsstring) :
  stops_at_failure rt (migrateExistingTasks rt rootId).
Proof. unfold migrateExistingTasks. stops. Qed.

Lemma stops_showUpdatedTree (epicId rootId : jsstring) :
  stops_at_failure rt (showUpdatedTree rt epicId rootId).
Proof. unfold showUpdatedTree. stops. Qed.

Lemma stops_workflow : stops_at_failure rt (workflow rt).
Proof.
  unfold workflow.
  apply stops_bind; [apply stops_closeObsoleteTasks|intros _].
  apply stops_bind; [apply stops_linkRootToEpic|intros _].
  apply stops_bind; [apply stops_createSubtasks|intros _].
  apply stops_bind; [apply stops_migrateExistingTasks|intros _].
  apply stops_bind; [apply stops_showUpdatedTree|intros _].
  stops.
Qed.

Lemma stops_main : stops_at_failure rt (main rt).
Proof.
  unfold main. apply stops_bind; [apply stops_log|intros _].
  apply stops_bind; [apply stops_log|intros _].
  apply stops_rethrow. apply stops_workflow.
Qed.


(** *** The main workflow rethrows what it caught *)

Lemma main_rethrows (past : list effect) (e : fault) :
  fst (main rt past) = Failed e ->
  exists mid, snd (main rt past) = mid ++ [error_report rt e].
Proof.
  destruct (main rt past) as [r now] eqn:E. cbn [fst snd]. intros ->. revert E.
  unfold main, job_bind at 1 2, log at 1 2, job_try_catch. cbn iota.
  destruct (workflow rt _) as [[[]|e0] mid]; [discriminate|].
  unfold job_bind, log, job_of. intros H. injection H as -> <-.
  exists mid. reflexivity.
Qed.

Lemma main_Done (past now : list effect) :
  main rt past = (Done tt, now) ->
  exists head, commands head = [] /\ workflow rt (past ++ head) = (Done tt, now).
Proof.
  unfold main, job_bind at 1 2, log at 1 2, job_try_catch. cbn iota.
  rewrite <- app_assoc.
  destruct (workflow rt _) as [[[]|e0] mid] eqn:E.
  - intros H. injection H as <-. eexists. split; [|exact E]. reflexivity.
  - unfold job_bind, log, job_of. discriminate.
Qed.

(** *** What the steps run when they succeed *)

Lemma log_Done (message color : jsstring) (past now : list effect) (u : unit) :
  log message color past = (Done u, now) -> commands now = commands past.
Proof.
  unfold log. intros H. apply (f_equal snd) in H. cbn [snd] in H. subst now.
  rewrite commands_app, app_nil_r. reflexivity.
Qed.

Lemma section_Done (title : jsstring) (past now : list effect) (u : unit) :
  section title past = (Done u, now) -> commands now = commands past.
Proof.
  destruct (section_run title past) as (added & E & Hc). rewrite E.
  intros H. apply (f_equal snd) in H. cbn [snd] in H. subst now.
  rewrite commands_app, Hc, app_nil_r. reflexivity.
Qed.

Lemma job_of_Done {A} (o : outcome A) (past now : list effect) (a : A) :
  job_of o past = (Done a, now) -> o = Done a /\ now = past.
Proof. unfold job_of. intros H. injection H as -> <-. split; reflexivity. Qed.

Lemma ret_Done {A} (a b : A) (past now : list effect) :
  job_ret a past = (Done b, now) -> a = b /\ now = past.
Proof. unfold job_ret. intros H. injection H as -> <-. split; reflexivity. Qed.

(** Take the next step of a successful job apart. *)
Local Ltac step H :=
  let a := fresh "a" in
  let mid := fresh "mid" in
  let E := fresh "E" in
  apply bind_Done in H as (a & mid & E & H);
  first [ apply section_Done in E | apply bd_commands in E | apply log_Done in E
        | apply job_of_Done in E as [E ->] ].

(** Follow the commands back from the end of the job. *)
Local Ltac chain :=
  repeat match goal with
         | E : commands ?x = _ |- context [commands ?x] => rewrite E; clear E
         end;
  rewrite <- ?app_assoc; try reflexivity.

Lemma closeObsoleteTasks_Done (past now : list effect) (u : unit) :
  closeObsoleteTasks rt past = (Done u, now) ->
  commands now
  = commands past
    ++ map (fun task =>
              bd_command (js "close " ++ obsolete_id task ++ js " --reason "
                          ++ [DQUOTE] ++ obsolete_reason task ++ [DQUOTE]))
         obsoleteTasks.
Proof.
  unfold closeObsoleteTasks. intros H. step H. rewrite <- E. clear E past.
  revert mid now H. induction obsoleteTasks as [|task l IH]; intros past now H.
  - apply ret_Done in H as [_ ->]. cbn [map]. rewrite app_nil_r. reflexivity.
  - cbn [for_of map] in H |- *. apply bind_Done in H as (? & mid1 & E & H).
    cbn beta in E. do 2 step E. apply log_Done in E.
    rewrite (IH _ _ H). chain.
Qed.

Lemma linkRootToEpic_Done (rootId epicId : jsstring) (past now : list effect) (u : unit) :
  linkRootToEpic rt rootId epicId past = (Done u, now) ->
  commands now
  = commands past
    ++ [bd_command (js "dep add " ++ rootId ++ js " " ++ epicId ++ js " -t parent-child")].
Proof.
  unfold linkRootToEpic. intros H. do 3 step H. apply log_Done in H. chain.
Qed.

Lemma create_subtask_Done (rootId : jsstring) (task : Subtask) (ids0 ids : list value)
    (past now : list effect) :
  create_subtask rt rootId task ids0 past = (Done ids, now) ->
  exists linked : option (value * jsstring),
    commands now = commands past ++ round_commands rootId task (snd <$> linked)
    /\ ids = ids0 ++ option_list (fst <$> linked)
    /\ match linked with
       | Some (id, idText) => ToBoolean rt id = true /\ ToString rt id = Some idText
       | None => True
       end.
Proof.
  unfold create_subtask. intros H. do 2 step H.
  apply bind_Done in H as (id & mid1 & Eid & H). apply job_of_Done in Eid as [Eid ->].
  destruct (ToBoolean rt id) eqn:Etrue.
  - apply bind_Done in H as (idText & mid2 & Et & H). apply job_of_Done in Et as [Et ->].
    unfold template in Et. destruct (ToString rt id) as [text|] eqn:Etext; [|discriminate Et].
    injection Et as ->. do 4 step H. apply ret_Done in H as [<- ->].
    exists (Some (id, idText)). cbn [fmap option_fmap option_map snd fst option_list].
    split; [|split; [reflexivity|split; [exact Etrue|exact Etext]]].
    unfold round_commands. chain.
  - apply ret_Done in H as [<- ->]. exists None.
    cbn [fmap option_fmap option_map option_list].
    split; [|split; [rewrite app_nil_r; reflexivity|exact I]].
    unfold round_commands. chain.
Qed.

Lemma create_all_Done (rootId : jsstring) (tasks : list Subtask) :
  forall (ids0 ids : list value) (past now : list effect),
    create_all rt rootId tasks ids0 past = (Done ids, now) ->
    exists (linked : list (option jsstring)) (new : list value),
      length linked = length tasks
      /\ commands now = commands past ++ concat (zip_with (round_commands rootId) tasks linked)
      /\ ids = ids0 ++ new
      /\ Forall2 (fun id idText => ToBoolean rt id = true /\ ToString rt id = Some idText)
           new (omap (fun x => x) linked).
Proof.
  induction tasks as [|task tasks IH]; intros ids0 ids past now H.
  - apply ret_Done in H as [<- ->]. exists [], [].
    cbn. rewrite !app_nil_r. repeat split; constructor.
  - cbn [create_all] in H. apply bind_Done in H as (ids1 & mid & E & H).
    apply create_subtask_Done in E as (linked1 & Ec & Eids & Hl).
    destruct (IH _ _ _ _ H) as (linked & new & Hlen & Hc & Hids & Hall).
    exists ((snd <$> linked1) :: linked), (option_list (fst <$> linked1) ++ new).
    split; [cbn [length]; rewrite Hlen; reflexivity|]. split; [|split].
    + cbn [zip_with concat]. rewrite Hc, Ec, <- !app_assoc. reflexivity.
    + rewrite Hids, Eids, <- app_assoc. reflexivity.
    + destruct linked1 as [[id idText]|];
        cbn [fmap option_fmap option_map option_list snd fst omap app].
      * constructor; [exact Hl|exact Hall].
      * exact Hall.
Qed.

Lemma createSubtasks_Done (rootId : jsstring) (ids : list value) (past now : list effect) :
  createSubtasks rt rootId past = (Done ids, now) ->
  exists linked : list (option jsstring),
    length linked = length subtasks
    /\ commands now
       = commands past ++ concat (zip_with (round_commands rootId) subtasks linked)
    /\ Forall2 (fun id idText => ToBoolean rt id = true /\ ToString rt id = Some idText)
         ids (omap (fun x => x) linked).
Proof.
  unfold createSubtasks. intros H. step H.
  apply create_all_Done in H as (linked & new & Hlen & Hc & Hids & Hall).
  exists linked. split; [exact Hlen|]. split; [rewrite Hc, E; reflexivity|].
  rewrite Hids. exact Hall.
Qed.

Lemma migrateExistingTasks_Done (rootId : jsstring) (past now : list effect) (u : unit) :
  migrateExistingTasks rt rootId past = (Done u, now) ->
  commands now
  = commands past
    ++ [bd_command (js "dep add bts-jz9 " ++ rootId ++ js " -t parent-child")].
Proof.
  unfold migrateExistingTasks. intros H. do 2 step H.
  apply bind_Done in H as (id0 & ? & E1 & H). apply job_of_Done in E1 as [E1 ->].
  injection E1 as <-. step H.
  apply bind_Done in H as (id0' & ? & E3 & H). apply job_of_Done in E3 as [E3 ->].
  injection E3 as <-. do 2 step H. apply log_Done in H. chain.
Qed.

Lemma showUpdatedTree_Done (epicId rootId : jsstring) (past now : list effect) (u : unit) :
  showUpdatedTree rt epicId rootId past = (Done u, now) ->
  commands now
  = commands past
    ++ [bd_command (js "epic status --no-daemon");
        bd_command (js "dep tree " ++ rootId);
        bd_command (js "ready")].
Proof.
  unfold showUpdatedTree. intros H. do 7 step H. apply ret_Done in H as [_ ->].
  chain.
Qed.


Lemma present_in (pre needle post : jsstring) :
  JSString.indexOf (pre ++ needle ++ post) needle <> (-1)%Z.
Proof.
  intros E. apply (proj1 (indexOf_absent _ _)) in E. apply (E pre). exists post. reflexivity.
Qed.

Lemma bd_skips (args : jsstring) (past : list effect) (out : jsstring) (e : exn) :
  ~ absent (js "--json") args ->
  shell_text rt (past ++ [bd_echo args]) (bd_command args) = Done out ->
  JSON.parse out = Throw e ->
  bd rt args past
  = (Done (VObj [(js "id", VNull)]),
     past ++ [bd_echo args; Shell (bd_command args); bd_warning out]).
Proof.
  intros Hpres Hout He. rewrite bd_run, Hout.
  destruct (Z.eqb_spec (JSString.indexOf args (js "--json")) (-1)) as [E|E].
  { destruct Hpres. apply (proj1 (indexOf_absent _ _)). exact E. }
  cbn [negb]. rewrite He. reflexivity.
Qed.

(** Every creation command asks for JSON. *)
Lemma create_args_flag (task : Subtask) : ~ absent (js "--json") (create_args task).
Proof.
  intros Habs. apply (proj2 (indexOf_absent _ _)) in Habs. revert Habs.
  unfold create_args.
  change (js " --json") with ([32] ++ js "--json" ++ []). rewrite !app_assoc.
  rewrite <- (app_assoc _ (js "--json") []). apply present_in.
Qed.

(** *** The properties *)

(** X14. The command runner fails only with the shell.  [bd(args)] echoes
    its command in one line, runs the one shell command [bd ] followed by
    the arguments, and runs no other command; it is rejected exactly when
    the shell call is, with the error of the shell, and then nothing is
    written after the command: an output that JSON.parse rejects never
    makes it fail. *)
Theorem bd_fails_only_with_the_shell (args : jsstring) (past : list effect) :
  let before := past ++ [bd_echo args] in
  exists tail,
    snd (bd rt args past) = before ++ Shell (bd_command args) :: tail
    /\ commands tail = []
    /\ (forall e, fst (bd rt args past) = Failed e
                  <-> shell_text rt before (bd_command args) = Failed e)
    /\ (forall e, shell_text rt before (bd_command args) = Failed e -> tail = []).
Proof.
  intros before. destruct (bd_added args past) as (tail & Hs & Hc & Hf & Hb).
  exists tail. split; [|split; [exact Hc|split]].
  - unfold before. rewrite <- app_assoc. exact Hs.
  - intros e. split; [apply Hb|]. intros He. apply (Hf e He).
  - intros e He. apply (Hf e He).
Qed.

(** X15. What the command runner returns.  When the shell call returns
    a text: if the arguments do not contain the flag, the result is that
    text and nothing but the echo is written; if the flag occurs anywhere
    in the arguments, the result is the value JSON.parse gives for the
    text, or, when JSON.parse rejects it, an object whose id is null,
    after one line of warning. *)
Theorem bd_parses_on_request (args : jsstring) (past : list effect) (out : jsstring) :
  let cmd := bd_command args in
  shell_text rt (past ++ [bd_echo args]) cmd = Done out ->
  (absent (js "--json") args ->
   bd rt args past = (Done (VStr out), past ++ [bd_echo args; Shell cmd]))
  /\ (~ absent (js "--json") args ->
      forall v, JSON.parse out = Normal v ->
      bd rt args past = (Done v, past ++ [bd_echo args; Shell cmd]))
  /\ (~ absent (js "--json") args ->
      forall e, JSON.parse out = Throw e ->
      bd rt args past
      = (Done (VObj [(js "id", VNull)]), past ++ [bd_echo args; Shell cmd; bd_warning out])).
Proof.
  intros cmd Hout. pose proof (bd_run args past) as Hrun.
  fold cmd in Hrun. rewrite Hout in Hrun.
  split; [|split].
  - intros Habs. apply (proj2 (indexOf_absent _ _)) in Habs.
    rewrite Habs in Hrun. exact Hrun.
  - intros Hpres v Hv.
    destruct (Z.eqb_spec (JSString.indexOf args (js "--json")) (-1)) as [E|E].
    { destruct Hpres. apply (proj1 (indexOf_absent _ _)). exact E. }
    cbn [negb] in Hrun. rewrite Hv in Hrun. exact Hrun.
  - intros Hpres e He.
    destruct (Z.eqb_spec (JSString.indexOf args (js "--json")) (-1)) as [E|E].
    { destruct Hpres. apply (proj1 (indexOf_absent _ _)). exact E. }
    cbn [negb] in Hrun. rewrite He in Hrun. exact Hrun.
Qed.


(** X17. An answer that is no JSON is skipped.  When the shell answers
    every creation command with a text that JSON.parse rejects, and null
    is false as a condition, [createSubtasks] fulfils with no identifier,
    having run the creation commands of the table in order and no link
    command. *)
Theorem unparsable_answers_are_skipped (rootId : jsstring) (past : list effect) :
  ToBoolean rt VNull = false ->
  (forall before task,
     task ∈ subtasks ->
     exists out e,
       shell_text rt before (bd_command (create_args task)) = Done out
       /\ JSON.parse out = Throw e) ->
  exists now,
    createSubtasks rt rootId past = (Done [], now)
    /\ commands now
       = commands past ++ map (fun task => bd_command (create_args task)) subtasks.
Proof.
  intros Hnull Hshell. unfold createSubtasks.
  destruct (section_run (js "STEP 3: Create Subtasks for In-Process Implementation") past)
    as (added & Es & Hq).
  rewrite (bind_run _ _ _ _ _ Es).
  assert (forall tasks ids0 before,
            (forall task, task ∈ tasks -> task ∈ subtasks) ->
            exists now,
              create_all rt rootId tasks ids0 before = (Done ids0, now)
              /\ commands now
                 = commands before ++ map (fun task => bd_command (create_args task)) tasks)
    as Hloop.
  { induction tasks as [|task tasks IH]; intros ids0 before Hin.
    - exists before. split; [reflexivity|]. cbn [map]. rewrite app_nil_r. reflexivity.
    - assert (forall out e,
                shell_text rt ((before ++ [creating_line task]) ++ [bd_echo (create_args task)])
                  (bd_command (create_args task)) = Done out ->
                JSON.parse out = Throw e ->
                create_subtask rt rootId task ids0 before
                = (Done ids0,
                   (before ++ [creating_line task])
                     ++ [bd_echo (create_args task); Shell (bd_command (create_args task));
                         bd_warning out])) as Hround.
      { intros out e Hout Hparse. unfold create_subtask.
        rewrite (bind_run _ _ before (before ++ [creating_line task]) tt eq_refl).
        rewrite (bind_run _ _ _ _ _ (bd_skips (create_args task) _ out e
                                       (create_args_flag task) Hout Hparse)).
        rewrite (bind_run _ _ _ _ VNull eq_refl). rewrite Hnull. reflexivity. }
      destruct (Hshell ((before ++ [creating_line task]) ++ [bd_echo (create_args task)]) task)
        as (out & e & Hout & Hparse); [apply Hin; left|].
      cbn [create_all]. rewrite (bind_run _ _ _ _ _ (Hround out e Hout Hparse)).
      destruct (IH ids0 ((before ++ [creating_line task])
                           ++ [bd_echo (create_args task);
                               Shell (bd_command (create_args task)); bd_warning out]))
        as (now & Erun & Hc).
      { intros t Ht. apply Hin. right. exact Ht. }
      exists now. split; [exact Erun|]. rewrite Hc, !commands_app, <- !app_assoc.
      reflexivity. }
  destruct (Hloop subtasks [] (past ++ added) (fun _ H => H)) as (now & Erun & Hc).
  exists now. split; [exact Erun|]. rewrite Hc, commands_app, Hq, app_nil_r. reflexivity.
Qed.

(** X18. Nothing runs after a failed command.  Where a shell command of
    the main workflow fails, it is the last command that is run, the
    workflow is rejected with the error of that command, and the last
    thing written is the report of that error. *)
Theorem main_stops_at_the_first_failure (past pre post : list effect) (cmd : jsstring)
    (e : fault) :
  snd (main rt past) = past ++ pre ++ Shell cmd :: post ->
  shell_text rt (past ++ pre) cmd = Failed e ->
  fst (main rt past) = Failed e
  /\ commands post = []
  /\ last post = Some (error_report rt e).
Proof.
  intros Hs Hfail. destruct (stops_main past) as (added & Ea & Hstop).
  rewrite Hs in Ea. apply app_inv_head in Ea.
  destruct (Hstop pre cmd post e (eq_sym Ea) Hfail) as [Hr Hc].
  split; [exact Hr|]. split; [exact Hc|].
  destruct (main_rethrows past e Hr) as (mid & Hmid).
  rewrite Hs in Hmid. apply (f_equal last) in Hmid.
  rewrite last_snoc, !last_app, last_cons in Hmid.
  destruct (last post) as [x|]; [exact Hmid|discriminate Hmid].
Qed.

(** X19. The plan of a successful run.  When the main workflow fulfils,
    the shell commands it ran are: the closing of the two obsolete tasks
    and the link of the root task to the epic; then the rounds of the
    creation loop, each a creation followed by at most one link; then the
    link of the migrated task, the status of the epic, the tree of the
    root task and the list of ready tasks. *)
Theorem main_runs_the_plan (past now : list effect) :
  main rt past = (Done tt, now) ->
  exists linked : list (option jsstring),
    length linked = length subtasks
    /\ commands now
       = commands past
         ++ commands_before_creation
         ++ concat (zip_with (round_commands EXISTING_ROOT_ID) subtasks linked)
         ++ commands_after_creation.
Proof.
  intros H. apply main_Done in H as (head & Hq & H).
  unfold workflow in H.
  apply bind_Done in H as (? & m1 & E1 & H). apply closeObsoleteTasks_Done in E1.
  apply bind_Done in H as (? & m2 & E2 & H). apply linkRootToEpic_Done in E2.
  apply bind_Done in H as (ids & m3 & E3 & H).
  apply createSubtasks_Done in E3 as (linked & Hlen & E3 & _).
  apply bind_Done in H as (? & m4 & E4 & H). apply migrateExistingTasks_Done in E4.
  apply bind_Done in H as (? & m5 & E5 & H). apply showUpdatedTree_Done in E5.
  do 6 step H. apply log_Done in H.
  exists linked. split; [exact Hlen|].
  chain. rewrite commands_app, Hq. cbn [app]. rewrite <- !app_assoc. reflexivity.
Qed.

End ScriptFacts.

(** ** Every rejection has a reason *)

Section RejectionFacts.

Import Restructure.

Variable rt : Runtime.

(** A job that always fulfils. *)
Lemma reason_fulfils {A} (m : Job A) :
  (forall past, exists a, fst (m past) = Done a) -> fails_for_a_reason rt m.
Proof.
  intros H past e He. destruct (H past) as [a Ha]. rewrite Ha in He. discriminate He.
Qed.

Lemma reason_ret {A} (a : A) : fails_for_a_reason rt (job_ret a).
Proof. apply reason_fulfils. intros past. exists a. reflexivity. Qed.

Lemma reason_log (message color : jsstring) : fails_for_a_reason rt (log message color).
Proof. apply reason_fulfils. intros past. exists tt. reflexivity. Qed.

Lemma reason_section (title : jsstring) : fails_for_a_reason rt (section title).
Proof. apply reason_fulfils. intros past. exists tt. reflexivity. Qed.

(** A synchronous step that throws nothing but a TypeError. *)
Lemma reason_job_of {A} (o : outcome A) :
  (forall e, o = Failed e -> e = TypeError) -> fails_for_a_reason rt (job_of o).
Proof. intros H past e He. left. apply H. exact He. Qed.

Lemma Get_id_TypeError (o : value) (e : fault) : Get_id o = Failed e -> e = TypeError.
Proof. destruct o; cbn; intros H; try discriminate H; injection H as <-; reflexivity. Qed.

Lemma template_TypeError (v : value) (e : fault) : template rt v = Failed e -> e = TypeError.
Proof.
  unfold template. destruct (ToString rt v); intros H; [discriminate H|].
  injection H as <-. reflexivity.
Qed.

Lemma reason_shell (cmd : jsstring) : fails_for_a_reason rt (shell rt cmd).
Proof.
  intros past e He. right. exists [], cmd, []. cbn [fst snd shell] in *.
  rewrite app_nil_r. repeat split. exact He.
Qed.

Lemma reason_bind {A B} (m : Job A) (k : A -> Job B) :
  stops_at_failure rt m -> fails_for_a_reason rt m ->
  (forall a, fails_for_a_reason rt (k a)) ->
  fails_for_a_reason rt (job_bind m k).
Proof.
  intros Hgrow Hm Hk past e. destruct (Hgrow past) as (added & Ea & _).
  specialize (Hm past e). unfold job_bind.
  destruct (m past) as [[a|e1] mid]; cbn [fst snd] in *.
  - intros He. destruct (Hk a mid e He) as [Ht|(pre & cmd & post & Es & Hf & Hc)];
      [left; exact Ht|right].
    subst mid. exists (added ++ pre), cmd, post.
    rewrite Es, <- !app_assoc. rewrite <- app_assoc in Hf. repeat split; assumption.
  - intros He. injection He as ->. apply Hm. reflexivity.
Qed.

Lemma reason_for_of {A} (l : list A) (body : A -> Job unit) :
  (forall x, stops_at_failure rt (body x)) ->
  (forall x, fails_for_a_reason rt (body x)) ->
  fails_for_a_reason rt (for_of l body).
Proof.
  intros Hs Hb. induction l as [|x l IH]; [apply reason_ret|].
  cbn [for_of]. apply reason_bind; [apply Hs|apply Hb|intros _; exact IH].
Qed.

Lemma reason_bd (args : jsstring) : fails_for_a_reason rt (bd rt args).
Proof.
  unfold bd. cbn zeta.
  apply reason_bind; [apply stops_log|apply reason_log|intros _].
  apply reason_bind; [apply stops_shell|apply reason_shell|intros result].
  destruct (negb _); [|apply reason_ret].
  destruct (JSON.parse result); [apply reason_ret|].
  apply reason_bind; [apply stops_log|apply reason_log|intros _; apply reason_ret].
Qed.

Local Ltac reason :=
  repeat first
    [ apply reason_ret | apply reason_log | apply reason_section | apply reason_bd
    | apply reason_job_of; first [apply Get_id_TypeError | apply template_TypeError
                                 | intros ? H; discriminate H]
    | apply reason_bind;
      [first [apply stops_log | apply stops_section | apply stops_bd | apply stops_job_of]
      | | intros ?] ].

Lemma reason_closeObsoleteTasks : fails_for_a_reason rt (closeObsoleteTasks rt).
Proof.
  unfold closeObsoleteTasks.
  apply reason_bind; [apply stops_section|apply reason_section|intros _].
  apply reason_for_of; intros task.
  - apply stops_bind; [apply stops_log|intros _].
    apply stops_bind; [apply stops_bd|intros _; apply stops_log].
  - reason.
Qed.

Lemma reason_linkRootToEpic (rootId epicId : jsstring) :
  fails_for_a_reason rt (linkRootToEpic rt rootId epicId).
Proof. unfold linkRootToEpic. reason. Qed.

Lemma reason_create_subtask (rootId : jsstring) (task : Subtask) (createdIds : list value) :
  fails_for_a_reason rt (create_subtask rt rootId task createdIds).
Proof.
  unfold create_subtask.
  apply reason_bind; [apply stops_log|apply reason_log|intros _].
  apply reason_bind; [apply stops_bd|apply reason_bd|intros result].
  apply reason_bind;
    [apply stops_job_of|apply reason_job_of; apply Get_id_TypeError|intros id].
  destruct (ToBoolean rt id); reason.
Qed.

Lemma reason_create_all (rootId : jsstring) (tasks : list Subtask) :
  forall createdIds, fails_for_a_reason rt (create_all rt rootId tasks createdIds).
Proof.
  induction tasks as [|task tasks IH]; intros createdIds; [apply reason_ret|].
  cbn [create_all].
  apply reason_bind;
    [apply stops_create_subtask|apply reason_create_subtask|intros ids; apply IH].
Qed.

Lemma reason_createSubtasks (rootId : jsstring) :
  fails_for_a_reason rt (createSubtasks rt rootId).
Proof.
  unfold createSubtasks.
  apply reason_bind; [apply stops_section|apply reason_section|intros _].
  apply reason_create_all.
Qed.

Lemma reason_migrateExistingTasks (rootId : jsstring) :
  fails_for_a_reason rt (migrateExistingTasks rt rootId).
Proof. unfold migrateExistingTasks. reason. Qed.

Lemma reason_showUpdatedTree (epicId rootId : jsstring) :
  fails_for_a_reason rt (showUpdatedTree rt epicId rootId).
Proof. unfold showUpdatedTree. reason. Qed.

Lemma reason_workflow : fails_for_a_reason rt (workflow rt).
Proof.
  unfold workflow.
  apply reason_bind;
    [apply stops_closeObsoleteTasks|apply reason_closeObsoleteTasks|intros _].
  apply reason_bind; [apply stops_linkRootToEpic|apply reason_linkRootToEpic|intros _].
  apply reason_bind; [apply stops_createSubtasks|apply reason_createSubtasks|intros _].
  apply reason_bind;
    [apply stops_migrateExistingTasks|apply reason_migrateExistingTasks|intros _].
  apply reason_bind; [apply stops_showUpdatedTree|apply reason_showUpdatedTree|intros _].
  reason.
Qed.

(** X21. Every rejection of the main workflow has a reason.  When
    [main] is rejected, the error is a TypeError, or it is the error with
    which the last shell command that was run has failed; after that
    command only the report was written.  So no output of a command, read
    as JSON or not, makes the workflow fail, except by a TypeError. *)
Theorem main_is_rejected_for_a_reason (past : list effect) (e : fault) :
  fst (main rt past) = Failed e ->
  last (snd (main rt past)) = Some (error_report rt e)
  /\ (e = TypeError
      \/ exists pre cmd post,
           snd (main rt past) = past ++ pre ++ Shell cmd :: post
           /\ shell_text rt (past ++ pre) cmd = Failed e
           /\ commands post = []).
Proof.
  intros He. split.
  { destruct (main_rethrows rt past e He) as (mid & Hmid). rewrite Hmid. apply last_snoc. }
  destruct (main rt past) as [r now] eqn:E. cbn [fst snd] in *. subst r. revert E.
  unfold main, job_bind at 1 2, log at 1 2, job_try_catch. cbn iota.
  set (opened := (past ++ _) ++ _).
  pose proof (reason_workflow opened) as Hw.
  destruct (workflow rt opened) as [[[]|e0] mid]; cbn [fst snd] in *; [discriminate|].
  unfold job_bind, log, job_of. intros H. injection H as -> <-.
  destruct (Hw e eq_refl) as [Ht|(pre & cmd & post & Es & Hf & Hc)]; [left; exact Ht|right].
  subst opened. rewrite <- !app_assoc in Es, Hf. cbn [app] in Es, Hf.
  eexists (_ :: _ :: pre), cmd, (post ++ [_]).
  split; [|split; [exact Hf|]].
  { rewrite Es, <- !app_assoc. cbn [app]. rewrite <- ?app_assoc. reflexivity. }
  rewrite commands_app, Hc. reflexivity.
Qed.

End RejectionFacts.

(** ** The properties of the script at concrete inputs *)

Lemma bd_parses_on_request_witness :
  let out := js "Created issue bts-new" ++ [LF] in
  let args := js "create x --json" in
  Restructure.shell_text (sample_runtime plain_answer) ([] ++ [bd_echo args]) (bd_command args)
  = Restructure.Done out
  /\ ~ absent (js "--json") args
  /\ JSON.parse out = Throw SyntaxError
  /\ Restructure.bd (sample_runtime plain_answer) args []
     = (Restructure.Done (VObj [(js "id", VNull)]),
        [] ++ [bd_echo args; Restructure.Shell (bd_command args); bd_warning out]).
Proof.
  intros out args.
  assert (~ absent (js "--json") args) as Hflag.
  { intros H. apply (proj2 (indexOf_absent _ _)) in H. discriminate H. }
  split; [reflexivity|]. split; [exact Hflag|]. split; [reflexivity|].
  exact (proj2 (proj2 (bd_parses_on_request (sample_runtime plain_answer) args [] out eq_refl))
           Hflag SyntaxError eq_refl).
Defined.


Lemma unparsable_answers_are_skipped_witness :
  Restructure.ToBoolean (sample_runtime plain_answer) VNull = false
  /\ JSON.parse (js "Created issue bts-new" ++ [LF]) = Throw SyntaxError
  /\ exists now,
       Restructure.createSubtasks (sample_runtime plain_answer) (js "bts-m2w") []
       = (Restructure.Done [], now)
       /\ Restructure.commands now
          = Restructure.commands []
            ++ map (fun task => bd_command (Restructure.create_args task)) Restructure.subtasks.
Proof.
  split; [reflexivity|]. split; [reflexivity|].
  apply (unparsable_answers_are_skipped (sample_runtime plain_answer) (js "bts-m2w") []);
    [reflexivity|].
  intros before task _. exists (js "Created issue bts-new" ++ [LF]), SyntaxError.
  split; reflexivity.
Defined.

Lemma main_stops_at_the_first_failure_witness :
  let rt := sample_runtime failing_answer in
  let e := Restructure.ShellError (js "Failed with exit code 1") in
  let effects := snd (Restructure.main rt []) in
  let cmd := js "bd close bts-qv1 --reason " ++ [DQUOTE]
             ++ js "No longer needed - was for modifying forked mcp-bun, "
             ++ js "now building from scratch" ++ [DQUOTE] in
  effects = [] ++ take 11 effects ++ Restructure.Shell cmd :: drop 12 effects
  /\ Restructure.shell_text rt ([] ++ take 11 effects) cmd = Restructure.Failed e
  /\ fst (Restructure.main rt []) = Restructure.Failed e
  /\ Restructure.commands (drop 12 effects) = []
  /\ last (drop 12 effects) = Some (error_report rt e).
Proof.
  intros rt e effects cmd.
  assert (effects = [] ++ take 11 effects ++ Restructure.Shell cmd :: drop 12 effects) as H1
    by (vm_compute; reflexivity).
  assert (Restructure.shell_text rt ([] ++ take 11 effects) cmd = Restructure.Failed e) as H2
    by (vm_compute; reflexivity).
  split; [exact H1|]. split; [exact H2|].
  exact (main_stops_at_the_first_failure rt [] (take 11 effects) (drop 12 effects) cmd e H1 H2).
Defined.

Lemma main_runs_the_plan_witness :
  let run := Restructure.main (sample_runtime tracker_answer) [] in
  run = (Restructure.Done tt, snd run)
  /\ exists linked : list (option jsstring),
       length linked = length Restructure.subtasks
       /\ Restructure.commands (snd run)
          = Restructure.commands []
            ++ commands_before_creation
            ++ concat (zip_with (round_commands Restructure.EXISTING_ROOT_ID)
                         Restructure.subtasks linked)
            ++ commands_after_creation.
Proof.
  intros run.
  assert (run = (Restructure.Done tt, snd run)) as H by (vm_compute; reflexivity).
  split; [exact H|].
  exact (main_runs_the_plan (sample_runtime tracker_answer) [] (snd run) H).
Defined.

Lemma main_is_rejected_for_a_reason_witness :
  let rt := sample_runtime failing_answer in
  let e := Restructure.ShellError (js "Failed with exit code 1") in
  fst (Restructure.main rt []) = Restructure.Failed e
  /\ last (snd (Restructure.main rt [])) = Some (error_report rt e)
  /\ (e = Restructure.TypeError
      \/ exists pre cmd post,
           snd (Restructure.main rt []) = [] ++ pre ++ Restructure.Shell cmd :: post
           /\ Restructure.shell_text rt ([] ++ pre) cmd = Restructure.Failed e
           /\ Restructure.commands post = []).
Proof.
  intros rt e.
  assert (fst (Restructure.main rt []) = Restructure.Failed e) as H by (vm_compute; reflexivity).
  split; [exact H|].
  exact (main_is_rejected_for_a_reason rt [] e H).
Defined.
